(** * md_img_sync: extraction, naming, download and rewriting of image links

    A shallow embedding of [md_img_sync.py] together with the parts of
    the Python standard library it calls, and the properties of the
    pipeline proved or refuted on it.

    Conventions.
    - A Python [str] is the list of its Unicode code points ([Z]); a
      [bytes] value is a list of integers in [0, 255]; a header value is
      a Latin-1 string.
    - The library functions follow CPython 3.11: [re] (backtracking, in
      the order it tries the alternatives), [urllib.parse.urlsplit] with
      its checks of the netloc, [urllib.parse.unquote], [ipaddress],
      [posixpath], [hashlib.sha1], and the Unicode 14.0 tables where
      they matter (blank characters, letters under [re.IGNORECASE], the
      NFKC check of the netloc).
    - [extract_image_urls] and [new_md] take a document as its text;
      the files they read and write, the console and [main] come with
      the program, in the last part of the definitions, for a POSIX
      system ([os.linesep] is the line feed, [os.sep] the slash).
    - A fetch runs against an environment that gives the answers of the
      server and says which calls raise; what is raised is an instance
      of [Exception].  Printing a line does not fail.
    - [create_session] only configures the transport (retries, user
      agent): what a request finally returns or raises is the answer
      of the environment. *)

From Stdlib Require Import ZArith List String Ascii Bool Lia.
From stdpp Require Import gmap list.

Local Open Scope Z_scope.
Local Open Scope list_scope.

(** ** Strings *)

Definition str := list Z.

(** An ASCII literal of the source, as a Python [str]. *)
Definition lit (s : string) : str :=
  map (fun a => Z.of_N (N_of_ascii a)) (list_ascii_of_string s).

Definition ch (s : string) : Z :=
  match lit s with c :: _ => c | [] => 0 end.

(** [str.isspace] of one code point; the same set is the class [\s] of a
    [str] pattern and what [str.strip()] removes. *)
Definition is_space (c : Z) : bool :=
  ((9 <=? c) && (c <=? 13)) || ((28 <=? c) && (c <=? 32))
  || (c =? 0x85) || (c =? 0xA0) || (c =? 0x1680)
  || ((0x2000 <=? c) && (c <=? 0x200A))
  || (c =? 0x2028) || (c =? 0x2029) || (c =? 0x202F) || (c =? 0x205F)
  || (c =? 0x3000).

Definition is_ascii_upper (c : Z) : bool := (65 <=? c) && (c <=? 90).
Definition is_ascii_lower (c : Z) : bool := (97 <=? c) && (c <=? 122).
Definition is_ascii_alpha (c : Z) : bool := is_ascii_upper c || is_ascii_lower c.
Definition is_ascii_digit (c : Z) : bool := (48 <=? c) && (c <=? 57).
Definition ascii_lower (c : Z) : Z := if is_ascii_upper c then c + 32 else c.
Definition ascii_upper (c : Z) : Z := if is_ascii_lower c then c - 32 else c.

(** ** The regular expressions of the program

    The subset of [re] syntax that the three patterns of the source use,
    matched by backtracking in the order [re] tries the alternatives. *)

Inductive citem :=
| CChar (c : Z)            (* a single character *)
| CRange (lo hi : Z)       (* lo-hi *)
| CSpace.                  (* \s *)

Inductive re :=
| Eps
| Lit (c : Z)                          (* a literal character *)
| In (negate : bool) (items : list citem)   (* [...] and [^...] *)
| Cat (r1 r2 : re)
| Alt (r1 r2 : re)                     (* r1|r2, r1 tried first *)
| Star (greedy : bool) (r : re)        (* r* and r*? *)
| Group (r : re)                       (* the capturing group (group 1) *)
| AtEnd.                               (* $ *)

Definition Opt (r : re) : re := Alt r Eps.                       (* r? *)
Definition Plus (greedy : bool) (r : re) : re := Cat r (Star greedy r).  (* r+ and r+? *)

Fixpoint Word (s : str) : re :=
  match s with
  | [] => Eps
  | c :: s' => Cat (Lit c) (Word s')
  end.

Definition citem_has (i : citem) (c : Z) : bool :=
  match i with
  | CChar x => c =? x
  | CRange lo hi => (lo <=? c) && (c <=? hi)
  | CSpace => is_space c
  end.

Definition class_has (negate : bool) (items : list citem) (c : Z) : bool :=
  xorb negate (existsb (fun i => citem_has i c) items).

(** The code points that match the ASCII literal [p] under
    [re.IGNORECASE] in a [str] pattern: a character matches when its
    simple lower-case mapping is the lower case of [p] or one of the
    extra equivalents [re] registers for it (dotless i for [i], long s
    for [s], the Kelvin sign for [k]); U+0130 lower-cases to [i]. *)
Definition ignorecase_variants (p : Z) : list Z :=
  if is_ascii_alpha p then
    let lo := ascii_lower p in
    [lo; ascii_upper p]
      ++ (if lo =? 105 then [0x130; 0x131]
          else if lo =? 115 then [0x17F]
          else if lo =? 107 then [0x212A]
          else [])
  else [p].

Definition lit_matches (ignorecase : bool) (p c : Z) : bool :=
  if ignorecase then existsb (Z.eqb c) (ignorecase_variants p) else c =? p.

(** [$] without [re.MULTILINE]: at the end, or before a final newline. *)
Definition at_end (s : str) : bool :=
  match s with
  | [] => true
  | [c] => c =? 10
  | _ => false
  end.

Section Matcher.
Variable ignorecase : bool.
Context {X : Type}.

(** [rmatch r s g k]: match [r] at the start of [s], with [g] the text
    captured so far, and pass what is left of [s] to the continuation
    [k]; when [k] fails the next alternative of [r] is tried. The
    repetitions of the patterns here are over single characters, so an
    iteration always consumes input. *)
Fixpoint rmatch (r : re) (s : str) (g : option str)
    (k : str -> option str -> option X) {struct r} : option X :=
  match r with
  | Eps => k s g
  | Lit p =>
      match s with
      | c :: s' => if lit_matches ignorecase p c then k s' g else None
      | [] => None
      end
  | In negate items =>
      match s with
      | c :: s' => if class_has negate items c then k s' g else None
      | [] => None
      end
  | Cat r1 r2 => rmatch r1 s g (fun s' g' => rmatch r2 s' g' k)
  | Alt r1 r2 =>
      match rmatch r1 s g k with
      | Some x => Some x
      | None => rmatch r2 s g k
      end
  | Star true r1 =>
      (fix loop (n : nat) (s : str) (g : option str) {struct n} : option X :=
         match n with
         | O => k s g
         | S n' =>
             match rmatch r1 s g
                     (fun s' g' =>
                        if (length s' <? length s)%nat then loop n' s' g' else None) with
             | Some x => Some x
             | None => k s g
             end
         end) (length s) s g
  | Star false r1 =>
      (fix loop (n : nat) (s : str) (g : option str) {struct n} : option X :=
         match k s g with
         | Some x => Some x
         | None =>
             match n with
             | O => None
             | S n' =>
                 rmatch r1 s g
                   (fun s' g' =>
                      if (length s' <? length s)%nat then loop n' s' g' else None)
             end
         end) (length s) s g
  | Group r1 =>
      rmatch r1 s g (fun s' _ => k s' (Some (take (length s - length s') s)))
  | AtEnd => if at_end s then k s g else None
  end.
End Matcher.

(** A match object: [group(0)], [group(1)], and the text after the match. *)
Record Match := { m_whole : str; m_group1 : option str; m_rest : str }.

(** [pattern.match] at the start of [s]. *)
Definition match_here (ignorecase : bool) (r : re) (s : str) : option Match :=
  rmatch ignorecase r s None
    (fun s' g => Some {| m_whole := take (length s - length s') s;
                         m_group1 := g; m_rest := s' |}).

(** [m.group(1)]; a group that did not take part yields [None], which
    the callers here never meet and is rendered as the empty string. *)
Definition group1 (m : Match) : str := default [] (m_group1 m).

(** The left-to-right scan shared by [finditer] and [sub]: every start
    position is tried in turn; after a match the scan resumes at its end
    ([skip] counts the characters of the last match still to pass).
    The result lists each match with the unmatched text before it, and
    the unmatched text after the last match.  An empty match (none of
    the patterns below has one) moves on by one character. *)
Fixpoint scan (ignorecase : bool) (r : re) (s : str) (skip : nat) (gap : str)
    : list (str * Match) * str :=
  match skip, s with
  | S k, _ :: s' => scan ignorecase r s' k gap
  | S _, [] => ([], gap)
  | O, _ =>
      match match_here ignorecase r s with
      | Some m =>
          match s with
          | [] => ([(gap, m)], [])
          | c :: s' =>
              let n := length (m_whole m) in
              let '(ms, tl) :=
                scan ignorecase r s' (n - 1) (if (n =? 0)%nat then [c] else []) in
              ((gap, m) :: ms, tl)
          end
      | None =>
          match s with
          | [] => ([], gap)
          | c :: s' => scan ignorecase r s' 0 (gap ++ [c])
          end
      end
  end.

(** [pattern.finditer(text)] *)
Definition finditer (ignorecase : bool) (r : re) (text : str) : list Match :=
  map snd (fst (scan ignorecase r text 0 [])).

(** [pattern.sub(repl, text)] with a callable [repl] *)
Definition re_sub (ignorecase : bool) (r : re) (repl : Match -> str) (text : str) : str :=
  let '(ms, tl) := scan ignorecase r text 0 [] in
  concat (map (fun gm => fst gm ++ repl (snd gm)) ms) ++ tl.

(** [re.search]: the first match of the scan *)
Definition re_search (ignorecase : bool) (r : re) (text : str) : option Match :=
  head (finditer ignorecase r text).

(** The pattern of [extract_image_urls] and [new_md], compiled with
    [re.IGNORECASE].  Its source text, piece by piece:
      - [\]\(] and [\s*]: the two literals and the greedy run of blanks;
      - [(https?://[^\s\)]+?\.(?:png|jpe?g|gif))]: the capturing group,
        with a lazy run of one or more characters that are neither
        blank nor a closing parenthesis;
      - [(?:[^\)]*] closed by [)]: the greedy run of characters other
        than a closing parenthesis;
      - [\)]: the closing parenthesis. *)
Definition image_exts : re :=
  Alt (Word (lit "png"))
      (Alt (Cat (Word (lit "jp")) (Cat (Opt (Lit (ch "e"))) (Lit (ch "g"))))
           (Word (lit "gif"))).

Definition link_pattern : re :=
  Cat (Lit (ch "]")) (Cat (Lit (ch "("))
  (Cat (Star true (In false [CSpace]))
  (Cat (Group
          (Cat (Word (lit "http")) (Cat (Opt (Lit (ch "s")))
          (Cat (Word (lit "://"))
          (Cat (Plus false (In true [CSpace; CChar (ch ")")]))
          (Cat (Lit (ch ".")) image_exts))))))
  (Cat (Star true (In true [CChar (ch ")")]))
       (Lit (ch ")")))))).

(** ** extract_image_urls *)

(** The loop over the matches: [urls] in order of first appearance,
    [seen] the set of URLs already taken. *)
Definition extract_step (acc : list str * gset str) (m : Match) : list str * gset str :=
  let raw := group1 m in
  if decide (raw ∈ acc.2) then acc
  else (acc.1 ++ [raw], {[raw]} ∪ acc.2).

Definition extract_image_urls (text : str) : list str :=
  (fold_left extract_step (finditer true link_pattern text) ([], ∅)).1.


(** The deduplication rule in the words of the specification: an
    occurrence is kept exactly when no equal capture precedes it
    ([before] holds the captures already passed). *)
Fixpoint first_occurrences (before l : list str) : list str :=
  match l with
  | [] => []
  | x :: l' =>
      (if decide (x ∈ before) then [] else [x])
        ++ first_occurrences (before ++ [x]) l'
  end.

(** The captured URLs of all matches, in text order, repeats included. *)
Definition captures (text : str) : list str :=
  map group1 (finditer true link_pattern text).

(** ** What a pattern matches

    The declarative reading of the patterns, against which the
    backtracking matcher is proved sound: [matches ic r w rest g g']
    says that [r] matches the word [w] when [rest] follows it, and turns
    the capture [g] into [g']. *)
Inductive matches (ic : bool) : re → str → str → option str → option str → Prop :=
| M_Eps rest g : matches ic Eps [] rest g g
| M_Lit p c rest g :
    lit_matches ic p c = true → matches ic (Lit p) [c] rest g g
| M_In negate items c rest g :
    class_has negate items c = true → matches ic (In negate items) [c] rest g g
| M_Cat r1 r2 w1 w2 rest g g1 g2 :
    matches ic r1 w1 (w2 ++ rest) g g1 → matches ic r2 w2 rest g1 g2 →
    matches ic (Cat r1 r2) (w1 ++ w2) rest g g2
| M_AltL r1 r2 w rest g g' :
    matches ic r1 w rest g g' → matches ic (Alt r1 r2) w rest g g'
| M_AltR r1 r2 w rest g g' :
    matches ic r2 w rest g g' → matches ic (Alt r1 r2) w rest g g'
| M_StarNil greedy r rest g : matches ic (Star greedy r) [] rest g g
| M_StarCons greedy r w1 w2 rest g g1 g2 :
    w1 ≠ [] →
    matches ic r w1 (w2 ++ rest) g g1 → matches ic (Star greedy r) w2 rest g1 g2 →
    matches ic (Star greedy r) (w1 ++ w2) rest g g2
| M_Group r w rest g g1 :
    matches ic r w rest g g1 → matches ic (Group r) w rest g (Some w)
| M_AtEnd rest g : at_end rest = true → matches ic AtEnd [] rest g g.

(** Equality of a string with the ASCII word [p] up to the case folding
    of [re.IGNORECASE]. *)
Definition ci_eq (p s : str) : Prop :=
  Forall2 (fun a c => lit_matches true a c = true) p s.

(** The shape of a captured URL: [http] or [https], [://], a non-empty
    run without blank or closing parenthesis, a dot and one of the four
    extensions; letters are compared as [re.IGNORECASE] does. *)
Definition image_url_shape (url : str) : Prop :=
  ∃ scheme body ext,
    url = scheme ++ lit "://" ++ body ++ lit "." ++ ext
    ∧ (ci_eq (lit "http") scheme ∨ ci_eq (lit "https") scheme)
    ∧ body ≠ []
    ∧ Forall (fun c => is_space c = false ∧ c ≠ ch ")") body
    ∧ (ci_eq (lit "png") ext ∨ ci_eq (lit "jpg") ext
       ∨ ci_eq (lit "jpeg") ext ∨ ci_eq (lit "gif") ext).

(** ** Exceptions and results

    The exceptions the modelled code can meet; every one is an instance
    of Python's [Exception].  A message is kept as its template and the
    value it is formatted with. *)
Inductive exn :=
| ValueError (template : string) (arg : str)
| UnicodeEncodeError (s : str)
| FileNotFoundError (path : str)
| EnvironmentFailure (what : string).   (* raised by the network or the file system *)

Inductive result (A : Type) :=
| Ok (a : A)
| Raise (e : exn).
Arguments Ok {A} a.
Arguments Raise {A} e.

Global Instance result_ret : MRet result := @Ok.
Global Instance result_bind : MBind result := fun A B f m =>
  match m with
  | Ok a => f a
  | Raise e => Raise e
  end.

(** ** Pieces of [str]: find, split, partition, strip *)

(** [s.split(sep)] for a one-character separator: the pieces between
    the separators, at least one piece. *)
Fixpoint split_on (sep : Z) (s : str) : list str :=
  match s with
  | [] => [[]]
  | c :: s' =>
      if c =? sep then [] :: split_on sep s'
      else match split_on sep s' with
           | p :: ps => (c :: p) :: ps
           | [] => [[c]]
           end
  end.

(** [s.partition(sep)]: the text before the first [sep], whether [sep]
    was found, and the text after it. *)
Fixpoint partition_on (sep : Z) (s : str) : str * bool * str :=
  match s with
  | [] => ([], false, [])
  | c :: s' =>
      if c =? sep then ([], true, s')
      else let '(a, found, b) := partition_on sep s' in (c :: a, found, b)
  end.

(** [s.rpartition(sep)[2]]: the text after the last [sep], all of [s]
    when there is none. *)
Definition after_last (sep : Z) (s : str) : str := List.last (split_on sep s) [].

Definition contains (c : Z) (s : str) : bool := existsb (Z.eqb c) s.

(** [s.startswith(p)] *)
Fixpoint starts_with (p s : str) : bool :=
  match p, s with
  | [], _ => true
  | a :: p', c :: s' => (a =? c) && starts_with p' s'
  | _ :: _, [] => false
  end.

Fixpoint lstrip (drop : Z → bool) (s : str) : str :=
  match s with
  | c :: s' => if drop c then lstrip drop s' else s
  | [] => []
  end.

Definition rstrip (drop : Z → bool) (s : str) : str := rev (lstrip drop (rev s)).

(** [s.strip()] *)
Definition strip (s : str) : str := rstrip is_space (lstrip is_space s).

Definition replace_char (old new : Z) (s : str) : str :=
  map (fun c => if c =? old then new else c) s.

Definition is_ascii (c : Z) : bool := (0 <=? c) && (c <=? 127).

Definition is_hex_digit (c : Z) : bool :=
  is_ascii_digit c || ((65 <=? c) && (c <=? 70)) || ((97 <=? c) && (c <=? 102)).

Definition hex_value (c : Z) : Z :=
  if is_ascii_digit c then c - 48
  else if (65 <=? c) && (c <=? 70) then c - 55
  else c - 87.

(** The value of a string of decimal digits. *)
Definition decimal_value (s : str) : Z := fold_left (fun n c => 10 * n + (c - 48)) s 0.

(** ** ipaddress: the literals accepted inside brackets *)

(** [IPv4Address._parse_octet] succeeds. *)
Definition octet_ok (o : str) : bool :=
  negb (bool_decide (o = []))
  && forallb is_ascii_digit o
  && (length o <=? 3)%nat
  && negb (match o with c :: _ :: _ => c =? 48 | _ => false end)
  && (decimal_value o <=? 255).

(** [IPv4Address(s)] succeeds. *)
Definition ipv4_ok (s : str) : bool :=
  negb (contains 47 s)
  && negb (bool_decide (s = []))
  && let octets := split_on 46 s in
     (length octets =? 4)%nat && forallb octet_ok octets.

(** [IPv6Address._parse_hextet] succeeds. *)
Definition hextet_ok (h : str) : bool :=
  forallb is_hex_digit h && (length h <=? 4)%nat && negb (bool_decide (h = [])).

(** [IPv6Address._ip_int_from_string] succeeds.  An IPv4 suffix, once
    accepted, stands for two hextets (written [0] here: only their
    number matters to acceptance). *)
Definition ipv6_body_ok (s : str) : bool :=
  negb (bool_decide (s = []))
  && let parts := split_on 58 s in
     (3 <=? length parts)%nat
     && let v4 := contains 46 (List.last parts []) in
        (negb v4 || ipv4_ok (List.last parts []))
        && let parts := if v4 then removelast parts ++ [[48]; [48]] else parts in
           let n := length parts in
           (n <=? 9)%nat
           && let first_empty := bool_decide (parts !! 0%nat = Some []) in
              let last_empty := bool_decide (List.last parts [0] = []) in
              match filter (fun i => bool_decide (parts !! i = Some []))
                           (seq 1 (n - 2)) with
              | [] =>
                  (n =? 8)%nat && negb first_empty && negb last_empty
                  && forallb hextet_ok parts
              | [skip_index] =>
                  let parts_hi := if first_empty then (skip_index - 1)%nat else skip_index in
                  let parts_lo :=
                    if last_empty then (n - skip_index - 1 - 1)%nat
                    else (n - skip_index - 1)%nat in
                  (negb first_empty || (parts_hi =? 0)%nat)
                  && (negb last_empty || (parts_lo =? 0)%nat)
                  && (1 <=? 8 - (parts_hi + parts_lo))%nat
                  && forallb hextet_ok (take parts_hi parts)
                  && forallb hextet_ok (drop (n - parts_lo) parts)
              | _ => false
              end.

(** [IPv6Address(s)] succeeds. *)
Definition ipv6_ok (s : str) : bool :=
  negb (contains 47 s)
  && let '(addr, has_scope, scope_id) := partition_on 37 s in
     (negb has_scope || (negb (bool_decide (scope_id = [])) && negb (contains 37 scope_id)))
     && ipv6_body_ok addr.

(** ** urllib.parse.urlsplit *)

Record SplitResult := {
  us_scheme : str; us_netloc : str; us_path : str; us_query : str; us_fragment : str
}.

(** [_WHATWG_C0_CONTROL_OR_SPACE] *)
Definition c0_control_or_space (c : Z) : bool := (0 <=? c) && (c <=? 32).

(** [_UNSAFE_URL_BYTES_TO_REMOVE]: tab, carriage return, newline *)
Definition unsafe_url_char (c : Z) : bool := (c =? 9) || (c =? 13) || (c =? 10).

(** [scheme_chars]: letters, digits, [+], [-], [.] *)
Definition scheme_char (c : Z) : bool :=
  is_ascii_alpha c || is_ascii_digit c || (c =? 43) || (c =? 45) || (c =? 46).

(** [_splitnetloc(url, 2)]: the netloc runs up to the first of [/], [?], [#]. *)
Definition netloc_delim (c : Z) : bool := (c =? 47) || (c =? 63) || (c =? 35).

Fixpoint span_until (stop : Z → bool) (s : str) : str * str :=
  match s with
  | [] => ([], [])
  | c :: s' =>
      if stop c then ([], s)
      else let '(a, b) := span_until stop s' in (c :: a, b)
  end.

(** [_check_bracketed_host]: an IPvFuture literal, the pattern being
    [v], one or more hexadecimal digits, a dot, and one or more
    characters other than a newline up to the end; or an IPv6 address. *)
Definition ipvfuture_ok (hostname : str) : bool :=
  match hostname with
  | 118 :: h =>
      let '(digits, rest) := span_until (fun c => negb (is_hex_digit c)) h in
      negb (bool_decide (digits = []))
      && match rest with
         | 46 :: tl => negb (bool_decide (tl = [])) && negb (contains 10 tl)
         | _ => false
         end
  | _ => false
  end.

Definition check_bracketed_host (hostname : str) : result unit :=
  match hostname with
  | 118 :: _ =>
      if ipvfuture_ok hostname then Ok tt
      else Raise (ValueError "IPvFuture address is invalid" [])
  | _ =>
      if ipv4_ok hostname then
        Raise (ValueError "An IPv4 address cannot be in brackets" [])
      else if ipv6_ok hostname then Ok tt
      else Raise (ValueError "{address!r} does not appear to be an IPv4 or IPv6 address"
                             hostname)
  end.

Definition check_bracketed_netloc (netloc : str) : result unit :=
  let hostname_and_port := after_last 64 netloc in
  let '(before_bracket, have_open_br, bracketed) := partition_on 91 hostname_and_port in
  if have_open_br then
    if negb (bool_decide (before_bracket = [])) then
      Raise (ValueError "Invalid IPv6 URL" [])
    else
      let '(hostname, _, port) := partition_on 93 bracketed in
      if negb (bool_decide (port = [])) && negb (bool_decide (head port = Some 58)) then
        Raise (ValueError "Invalid IPv6 URL" [])
      else check_bracketed_host hostname
  else
    let '(hostname, _, _) := partition_on 58 hostname_and_port in
    check_bracketed_host hostname.

(** The code points whose NFKC form (Unicode 14.0, the tables of Python
    3.11) contains one of [/], [?], [#], [@], [:]. No decomposition
    composes with one of these, so the NFKC form of a netloc contains
    one of them exactly when the netloc contains one of these code
    points. *)
Definition nfkc_expands_to_delimiter (c : Z) : bool :=
  existsb (Z.eqb c)
    [0x2047; 0x2048; 0x2049; 0x2100; 0x2101; 0x2105; 0x2106; 0x2A74; 0xFE13;
     0xFE16; 0xFE55; 0xFE56; 0xFE5F; 0xFE6B; 0xFF03; 0xFF0F; 0xFF1A; 0xFF1F;
     0xFF20].

(** [_checknetloc] *)
Definition checknetloc (netloc : str) : result unit :=
  if bool_decide (netloc = []) || forallb is_ascii netloc then Ok tt
  else if existsb nfkc_expands_to_delimiter netloc then
    Raise (ValueError "netloc '{netloc}' contains invalid characters under NFKC normalization"
                      netloc)
  else Ok tt.

(** The removal of the unsafe characters from the URL. *)
Fixpoint remove_unsafe (url : str) : str :=
  match url with
  | [] => []
  | c :: s => if unsafe_url_char c then remove_unsafe s else c :: remove_unsafe s
  end.

(** The scheme: with [i = url.find(':')], it is [url[:i]] in lower case
    when [i > 0], the first character is an ASCII letter and every
    character of [url[:i]] is a scheme character. *)
Definition split_scheme (url : str) : str * str :=
  match partition_on 58 url with
  | (before, true, after) =>
      match before with
      | c :: _ =>
          if is_ascii_alpha c && forallb scheme_char before
          then (map ascii_lower before, after) else ([], url)
      | [] => ([], url)
      end
  | _ => ([], url)
  end.

(** The netloc, when what follows the scheme starts with two slashes,
    and the checks of its brackets. *)
Definition split_netloc (url : str) : result (str * str) :=
  if starts_with (lit "//") url then
    let '(netloc, url) := span_until netloc_delim (drop 2 url) in
    if (contains 91 netloc && negb (contains 93 netloc))
       || (contains 93 netloc && negb (contains 91 netloc))
    then Raise (ValueError "Invalid IPv6 URL" [])
    else
      _ ← (if contains 91 netloc && contains 93 netloc
           then check_bracketed_netloc netloc else Ok tt);
      Ok (netloc, url)
  else Ok ([], url).

Definition urlsplit (url : str) : result SplitResult :=
  let url := lstrip c0_control_or_space url in
  let url := remove_unsafe url in
  let '(scheme, url) := split_scheme url in
  '(netloc, url) ← split_netloc url;
  let '(url, _, fragment) := partition_on 35 url in
  let '(url, _, query) := partition_on 63 url in
  _ ← checknetloc netloc;
  Ok {| us_scheme := scheme; us_netloc := netloc; us_path := url;
        us_query := query; us_fragment := fragment |}.

(** ** posixpath *)

(** [os.path.basename]: what follows the last [/]. *)
Definition basename (p : str) : str := after_last 47 p.

(** [os.path.join(a, b)] *)
Definition path_join (a b : str) : str :=
  match b with
  | 47 :: _ => b
  | _ =>
      if bool_decide (a = []) || bool_decide (List.last a 0 = 47) then a ++ b
      else a ++ [47] ++ b
  end.

(** ** UTF-8 *)

(** [s.encode()]: UTF-8; a surrogate code point cannot be encoded. *)
Definition encode_char (c : Z) : option (list Z) :=
  if c <? 0x80 then Some [c]
  else if c <? 0x800 then
    Some [Z.lor 0xC0 (Z.shiftr c 6); Z.lor 0x80 (Z.land c 0x3F)]
  else if (0xD800 <=? c) && (c <=? 0xDFFF) then None
  else if c <? 0x10000 then
    Some [Z.lor 0xE0 (Z.shiftr c 12); Z.lor 0x80 (Z.land (Z.shiftr c 6) 0x3F);
          Z.lor 0x80 (Z.land c 0x3F)]
  else
    Some [Z.lor 0xF0 (Z.shiftr c 18); Z.lor 0x80 (Z.land (Z.shiftr c 12) 0x3F);
          Z.lor 0x80 (Z.land (Z.shiftr c 6) 0x3F); Z.lor 0x80 (Z.land c 0x3F)].

Fixpoint encode_chars (s : str) : option (list Z) :=
  match s with
  | [] => Some []
  | c :: s' =>
      match encode_char c, encode_chars s' with
      | Some b, Some bs => Some (b ++ bs)
      | _, _ => None
      end
  end.

Definition encode (s : str) : result (list Z) :=
  match encode_chars s with
  | Some bs => Ok bs
  | None => Raise (UnicodeEncodeError s)
  end.

Definition is_continuation (b : Z) : bool := (0x80 <=? b) && (b <=? 0xBF).

(** [bs.decode('utf-8', 'replace')]: each ill-formed sequence, cut at
    the first byte that cannot continue it, becomes U+FFFD. *)
Fixpoint decode_replace (bs : list Z) : str :=
  match bs with
  | [] => []
  | b :: t1 =>
      if b <? 0x80 then b :: decode_replace t1
      else if (b <? 0xC2) || (0xF4 <? b) then 0xFFFD :: decode_replace t1
      else if b <? 0xE0 then
        match t1 with
        | [] => [0xFFFD]
        | b1 :: t2 =>
            if is_continuation b1
            then Z.lor (Z.shiftl (Z.land b 0x1F) 6) (Z.land b1 0x3F) :: decode_replace t2
            else 0xFFFD :: decode_replace t1
        end
      else if b <? 0xF0 then
        match t1 with
        | [] => [0xFFFD]
        | b1 :: t2 =>
            if ((if b =? 0xE0 then 0xA0 else 0x80) <=? b1)
               && (b1 <=? (if b =? 0xED then 0x9F else 0xBF))
            then
              match t2 with
              | [] => [0xFFFD]
              | b2 :: t3 =>
                  if is_continuation b2
                  then Z.lor (Z.shiftl (Z.land b 0x0F) 12)
                         (Z.lor (Z.shiftl (Z.land b1 0x3F) 6) (Z.land b2 0x3F))
                       :: decode_replace t3
                  else 0xFFFD :: decode_replace t2
              end
            else 0xFFFD :: decode_replace t1
        end
      else
        match t1 with
        | [] => [0xFFFD]
        | b1 :: t2 =>
            if ((if b =? 0xF0 then 0x90 else 0x80) <=? b1)
               && (b1 <=? (if b =? 0xF4 then 0x8F else 0xBF))
            then
              match t2 with
              | [] => [0xFFFD]
              | b2 :: t3 =>
                  if is_continuation b2 then
                    match t3 with
                    | [] => [0xFFFD]
                    | b3 :: t4 =>
                        if is_continuation b3
                        then Z.lor (Z.shiftl (Z.land b 0x07) 18)
                               (Z.lor (Z.shiftl (Z.land b1 0x3F) 12)
                                  (Z.lor (Z.shiftl (Z.land b2 0x3F) 6) (Z.land b3 0x3F)))
                             :: decode_replace t4
                        else 0xFFFD :: decode_replace t3
                    end
                  else 0xFFFD :: decode_replace t2
              end
            else 0xFFFD :: decode_replace t1
        end
  end.

(** ** urllib.parse.unquote *)

(** One piece after a [%]: two hexadecimal digits give a byte, anything
    else keeps the [%]. *)
Definition unquote_item (item : list Z) : list Z :=
  match item with
  | a :: b :: rest =>
      if is_hex_digit a && is_hex_digit b
      then (16 * hex_value a + hex_value b) :: rest
      else 37 :: item
  | _ => 37 :: item
  end.

(** [unquote_to_bytes] of an ASCII string *)
Definition unquote_to_bytes (s : str) : list Z :=
  match split_on 37 s with
  | first :: items => first ++ concat (map unquote_item items)
  | [] => s
  end.

(** The loop over the pieces of [_asciire.split(string)]: each maximal
    ASCII run ([run] collects the current one) is unquoted to bytes and
    decoded, the other characters are kept. *)
Fixpoint unquote_runs (s : str) (run : str) : str :=
  match s with
  | [] => decode_replace (unquote_to_bytes run)
  | c :: s' =>
      if is_ascii c then unquote_runs s' (run ++ [c])
      else decode_replace (unquote_to_bytes run) ++ c :: unquote_runs s' []
  end.

Definition unquote (s : str) : str :=
  if negb (contains 37 s) then s else unquote_runs s [].

(** ** hashlib.sha1 *)

Definition w32 (x : Z) : Z := x mod 2 ^ 32.

Definition rotl (n x : Z) : Z :=
  w32 (Z.lor (Z.shiftl x n) (Z.shiftr x (32 - n))).

Definition be64 (x : Z) : list Z :=
  map (fun i => Z.land (Z.shiftr x (8 * i)) 0xFF) [7; 6; 5; 4; 3; 2; 1; 0].

Definition sha1_pad (msg : list Z) : list Z :=
  let l := Z.of_nat (length msg) in
  msg ++ [0x80] ++ repeat 0 (Z.to_nat ((55 - l) mod 64)) ++ be64 (8 * l).

Fixpoint words_be (bs : list Z) : list Z :=
  match bs with
  | a :: b :: c :: d :: t =>
      Z.lor (Z.shiftl a 24) (Z.lor (Z.shiftl b 16) (Z.lor (Z.shiftl c 8) d)) :: words_be t
  | _ => []
  end.

(** The message schedule, latest word first. *)
Fixpoint sha1_extend (n : nat) (r : list Z) : list Z :=
  match n with
  | O => r
  | S n' =>
      sha1_extend n'
        (rotl 1 (Z.lxor (Z.lxor (nth 2 r 0) (nth 7 r 0)) (Z.lxor (nth 13 r 0) (nth 15 r 0)))
         :: r)
  end.

Definition sha1_state : Type := Z * Z * Z * Z * Z.

Definition sha1_round (t : nat) (st : sha1_state) (w : Z) : sha1_state :=
  let '(a, b, c, d, e) := st in
  let '(f, k) :=
    if (t <? 20)%nat then (Z.lor (Z.land b c) (Z.land (Z.lxor b 0xFFFFFFFF) d), 0x5A827999)
    else if (t <? 40)%nat then (Z.lxor b (Z.lxor c d), 0x6ED9EBA1)
    else if (t <? 60)%nat then
      (Z.lor (Z.land b c) (Z.lor (Z.land b d) (Z.land c d)), 0x8F1BBCDC)
    else (Z.lxor b (Z.lxor c d), 0xCA62C1D6) in
  (w32 (rotl 5 a + f + e + k + w), a, rotl 30 b, c, d).

Fixpoint sha1_rounds (t : nat) (ws : list Z) (st : sha1_state) : sha1_state :=
  match ws with
  | [] => st
  | w :: ws' => sha1_rounds (S t) ws' (sha1_round t st w)
  end.

Definition sha1_block (h : sha1_state) (block : list Z) : sha1_state :=
  let ws := rev (sha1_extend 64 (rev (words_be block))) in
  let '(h0, h1, h2, h3, h4) := h in
  let '(a, b, c, d, e) := sha1_rounds 0 ws h in
  (w32 (h0 + a), w32 (h1 + b), w32 (h2 + c), w32 (h3 + d), w32 (h4 + e)).

Fixpoint sha1_blocks (n : nat) (h : sha1_state) (bs : list Z) : sha1_state :=
  match n with
  | O => h
  | S n' => sha1_blocks n' (sha1_block h (take 64 bs)) (drop 64 bs)
  end.

Definition hex_digit (v : Z) : Z := if v <? 10 then 48 + v else 87 + v.

Definition hex_word (w : Z) : str :=
  map (fun i => hex_digit (Z.land (Z.shiftr w (4 * i)) 0xF)) [7; 6; 5; 4; 3; 2; 1; 0].

(** [hashlib.sha1(data).hexdigest()] *)
Definition sha1_hexdigest (data : list Z) : str :=
  let padded := sha1_pad data in
  let '(h0, h1, h2, h3, h4) :=
    sha1_blocks (length padded / 64)
      (0x67452301, 0xEFCDAB89, 0x98BADCFE, 0x10325476, 0xC3D2E1F0) padded in
  hex_word h0 ++ hex_word h1 ++ hex_word h2 ++ hex_word h3 ++ hex_word h4.

(** ** str.replace, str.lower *)

(** The scan of [s.replace(old, new)] for a non-empty [old]: every
    occurrence found from left to right is replaced and the scan resumes
    after it ([skip] counts the characters of the occurrence still to
    pass). *)
Fixpoint replace_scan (old new s : str) (skip : nat) : str :=
  match s with
  | [] => []
  | c :: s' =>
      match skip with
      | S k => replace_scan old new s' k
      | O =>
          if starts_with old s then new ++ replace_scan old new s' (length old - 1)
          else c :: replace_scan old new s' 0
      end
  end.

(** [s.replace(old, new)]; an empty [old] matches between all characters. *)
Definition str_replace (s old new : str) : str :=
  match old with
  | [] => new ++ flat_map (fun c => c :: new) s
  | _ => replace_scan old new s 0
  end.

(** [str.lower] of the characters a match of the extension pattern can
    hold: ASCII letters, U+0130 (whose lower case is [i] followed by
    U+0307) and U+0131; no other character reaches it in this program. *)
Definition lower_char (c : Z) : str :=
  if is_ascii_upper c then [c + 32]
  else if c =? 0x130 then [0x69; 0x307]
  else [c].

Definition str_lower (s : str) : str := flat_map lower_char s.

(** [pattern.sub(repl, text)] with a string [repl] free of backslashes *)
Definition re_sub_str (ignorecase : bool) (r : re) (repl : str) (text : str) : str :=
  re_sub ignorecase r (fun _ => repl) text.

(** [pattern.sub(repl, text)] with a callable [repl] that may raise: the
    first exception, in text order, leaves [sub]. *)
Fixpoint sub_pieces (repl : Match → result str) (ms : list (str * Match)) : result str :=
  match ms with
  | [] => Ok []
  | (gap, m) :: ms' =>
      new ← repl m;
      rest ← sub_pieces repl ms';
      Ok (gap ++ new ++ rest)
  end.

Definition re_sub_with (ignorecase : bool) (r : re) (repl : Match → result str)
    (text : str) : result str :=
  let '(ms, tl) := scan ignorecase r text 0 [] in
  body ← sub_pieces repl ms;
  Ok (body ++ tl).

(** ** safe_basename_from_url *)

(** The search of the source for an extension at the end of the path,
    with [re.IGNORECASE]: a dot, the group [(png|jpe?g|gif)], [$]. *)
Definition ext_pattern : re := Cat (Lit (ch ".")) (Cat (Group image_exts) AtEnd).

(** The characters replaced in file names, without flags: the class of
    [<], [>], [:], the double quote, [/], the backslash, [|], [?], the
    star and the range from 0x00 to 0x1f. *)
Definition unsafe_name_chars : re :=
  In false [CChar 60; CChar 62; CChar 58; CChar 34; CChar 47; CChar 92;
            CChar 124; CChar 63; CChar 42; CRange 0 31].

Definition safe_basename_from_url (url : str) : result str :=
  u ← urlsplit url;
  let path := us_path u in
  let name := basename path in
  let name := unquote name in
  name ←
    (if bool_decide (name = []) then
       data ← encode url;
       let h := take 12 (sha1_hexdigest data) in
       let ext :=
         match re_search true ext_pattern path with
         | Some ext_match => lit "." ++ str_lower (group1 ext_match)
         | None => lit ".img"
         end in
       Ok (replace_char 58 95 (us_netloc u) ++ lit "_" ++ h ++ ext)
     else Ok name);
  Ok (re_sub_str false unsafe_name_chars (lit "_") name).

(** ** normalize_server_path and new_md *)

Definition normalize_server_path (server_path : str) : str :=
  match server_path with
  | [] => []
  | _ => if bool_decide (List.last server_path 0 = 47) then server_path
         else server_path ++ [47]
  end.

(** The replacement function of [new_md]. *)
Definition repl (server_path : str) (m : Match) : result str :=
  let orig_url := group1 m in
  basename ← safe_basename_from_url orig_url;
  let new_url := server_path ++ basename in
  Ok (str_replace (m_whole m) orig_url new_url).

(** [new_md], from the text of [md_file] to the text written to
    [new_file]. *)
Definition new_md (text server_path : str) : result str :=
  let server_path := normalize_server_path server_path in
  re_sub_with true link_pattern (repl server_path) text.

(** The request URL of [img_download_batch]: [url.split('#')[0].strip()] *)
Definition url_for_req (url : str) : str :=
  strip (hd [] (split_on 35 url)).


(** ** The environment of a fetch

    A fetch talks to a server and to the file system.  The server's
    answers and the failures of either are given by an environment; the
    files, and the trace of what was asked of the outside, are the
    state.  A path is a regular file or absent.  The retries of the
    session happen inside the transport: what a call finally returns or
    raises is the environment's answer. *)

(** Header values are Latin-1 strings, as [http.client] yields them. *)
Record response := {
  status_code : Z;
  content_length_header : option string;   (* headers.get("Content-Length") *)
  body : list (list Z)                      (* what iter_content yields *)
}.

(** The calls of [download_with_resume] that can fail on their own. *)
Inductive step :=
| StHead | StGetsize | StGet | StIterContent (i : nat) | StMakedirs | StOpen
| StWrite (i : nat) | StFlush | StCloseFile | StCloseResponse | StRemove | StReplace.

Record env := {
  head_response : response;
  get_response : response;
  fault : step → option exn     (* the exception a call raises, if any *)
}.

(** The result messages, each with the values its f-string is
    formatted with. *)
Inductive message :=
| MsgSkip (safe_name : str)          (* skip (exists, size match): {safe_name} *)
| MsgHTTP (status : Z) (url : str)   (* HTTP {r.status_code} for {url} *)
| MsgIncomplete (total expected : Z) (safe_name : str)
    (* incomplete download (got {total} != expected {content_length}) for {safe_name} *)
| MsgDownloaded (safe_name : str)    (* downloaded: {safe_name} *)
| MsgException (e : exn) (url : str).  (* exception: {e} for url {url} *)

Inductive event :=
| EvHead (url : str)
| EvGet (url : str)
| EvMakedirs (path : str)
| EvOpen (path : str)
| EvWrite (path : str) (data : list Z)
| EvRemove (path : str)
| EvReplace (src dst : str)
| EvPrint (success : bool) (msg : message).   (* [OK] or [FAIL], and the message *)

Record world := {
  files : gmap str (list Z);
  trace : list event
}.

Definition emit (ev : event) (w : world) : world :=
  {| files := files w; trace := trace w ++ [ev] |}.

Definition set_files (f : gmap str (list Z)) (w : world) : world :=
  {| files := f; trace := trace w |}.

(** Computations that read and change the world and may raise. *)
Definition M (A : Type) : Type := world → result A * world.

Global Instance M_ret : MRet M := fun A a w => (Ok a, w).
Global Instance M_bind : MBind M := fun A B f m w =>
  match m w with
  | (Ok a, w') => f a w'
  | (Raise e, w') => (Raise e, w')
  end.

Definition lift {A} (r : result A) : M A := fun w => (r, w).

(** [try: body / except Exception as e: handler e] *)
Definition try_except {A} (body : M A) (handler : exn → M A) : M A := fun w =>
  match body w with
  | (Ok a, w') => (Ok a, w')
  | (Raise e, w') => handler e w'
  end.

(** [with ... :] the resource is closed however the body ends, and an
    exception of the closing replaces the outcome of the body. *)
Definition closing {A} (close : M unit) (body : M A) : M A := fun w =>
  let '(r, w1) := body w in
  match close w1 with
  | (Ok _, w2) => (r, w2)
  | (Raise e, w2) => (Raise e, w2)
  end.

(** A call that fails when the environment says so. *)
Definition may_fail (E : env) (s : step) : M unit := fun w =>
  match fault E s with
  | Some e => (Raise e, w)
  | None => (Ok tt, w)
  end.

Definition record (ev : event) : M unit := fun w => (Ok tt, emit ev w).

Definition session_head (E : env) (url : str) : M response :=
  _ ← record (EvHead url); _ ← may_fail E StHead; mret (head_response E).

Definition session_get (E : env) (url : str) : M response :=
  _ ← record (EvGet url); _ ← may_fail E StGet; mret (get_response E).

Definition raise {A} (e : exn) : M A := fun w => (Raise e, w).
Definition get_files : M (gmap str (list Z)) := fun w => (Ok (files w), w).
Definition put_files (f : gmap str (list Z)) : M unit := fun w => (Ok tt, set_files f w).

Definition os_path_exists (p : str) : M bool :=
  fs ← get_files; mret (bool_decide (is_Some (fs !! p))).

Definition os_path_getsize (E : env) (p : str) : M Z :=
  _ ← may_fail E StGetsize;
  fs ← get_files;
  match fs !! p with
  | Some data => mret (Z.of_nat (length data))
  | None => raise (FileNotFoundError p)
  end.

(** [os.makedirs(path, exist_ok=True)] *)
Definition ensure_dir (E : env) (path : str) : M unit :=
  _ ← record (EvMakedirs path); may_fail E StMakedirs.

(** [open(path, 'wb')]: the file is created or emptied. *)
Definition open_wb (E : env) (p : str) : M unit :=
  _ ← record (EvOpen p); _ ← may_fail E StOpen;
  fs ← get_files; put_files (<[p := []]> fs).

Definition file_write (E : env) (p : str) (i : nat) (chunk : list Z) : M unit :=
  _ ← record (EvWrite p chunk); _ ← may_fail E (StWrite i);
  fs ← get_files; put_files (<[p := default [] (fs !! p) ++ chunk]> fs).

Definition os_remove (E : env) (p : str) : M unit :=
  _ ← record (EvRemove p); _ ← may_fail E StRemove;
  fs ← get_files;
  match fs !! p with
  | Some _ => put_files (delete p fs)
  | None => raise (FileNotFoundError p)
  end.

Definition os_replace (E : env) (src dst : str) : M unit :=
  _ ← record (EvReplace src dst); _ ← may_fail E StReplace;
  fs ← get_files;
  match fs !! src with
  | Some data => put_files (<[dst := data]> (delete src fs))
  | None => raise (FileNotFoundError src)
  end.

(** [str.isdigit] on a Latin-1 character: the ten digits and the
    superscripts two, three and one. *)
Definition isdigit (c : Z) : bool :=
  is_ascii_digit c || (c =? 0xB2) || (c =? 0xB3) || (c =? 0xB9).

(** [int(cl)] on a non-empty string of [isdigit] characters: the
    superscripts are no decimal digits, and more than 4300 digits are
    refused. *)
Definition py_int (cl : str) : result Z :=
  if negb (forallb is_ascii_digit cl) then
    Raise (ValueError "invalid literal for int() with base 10: {cl!r}" cl)
  else if (4300 <? length cl)%nat then
    Raise (ValueError "Exceeds the limit (4300 digits) for integer string conversion" cl)
  else Ok (decimal_value cl).

(** [if cl and cl.isdigit(): content_length = int(cl)] *)
Definition cl_is_digits (header : option string) : bool :=
  match header with
  | Some cl => negb (bool_decide (lit cl = [])) && forallb isdigit (lit cl)
  | None => false
  end.

Definition read_content_length (header : option string) : result (option Z) :=
  match header with
  | Some cl => if cl_is_digits header then n ← py_int (lit cl); Ok (Some n) else Ok None
  | None => Ok None
  end.

(** ** download_with_resume *)

(** The loop over [r.iter_content]: [i] numbers the chunks, [total]
    counts the bytes written. *)
Fixpoint write_chunks (E : env) (temp_path : str) (chunks : list (list Z))
    (i : nat) (total : Z) : M Z :=
  match chunks with
  | [] => _ ← may_fail E (StIterContent i); mret total
  | chunk :: rest =>
      _ ← may_fail E (StIterContent i);
      total ← (if bool_decide (chunk = []) then mret total
               else _ ← file_write E temp_path i chunk;
                    mret (total + Z.of_nat (length chunk)) : M Z);
      write_chunks E temp_path rest (S i) total
  end.

(** The probe by HEAD, with its own [try]: any exception leaves the
    length unknown. *)
Definition probe_content_length (E : env) (url : str) : M (option Z) :=
  try_except
    (head ← session_head E url;
     if status_code head =? 200
     then lift (read_content_length (content_length_header head))
     else mret None)
    (fun _ => mret None).

(** The block under [with session.get(...) as r:]: the streamed GET,
    the check of the length and the renaming. *)
Definition streamed_download (E : env) (url dest_dir safe_name : str)
    (content_length : option Z) : M (bool * message) :=
  let dest_path := path_join dest_dir safe_name in
  let temp_path := dest_path ++ lit ".part" in
  r ← session_get E url;
  closing (may_fail E StCloseResponse)
    (if negb (status_code r =? 200)
     then (mret (false, MsgHTTP (status_code r) url) : M (bool * message))
     else
       content_length ←
         (match content_length with
          | Some n => mret (Some n)
          | None => lift (read_content_length (content_length_header r))
          end : M (option Z));
       _ ← ensure_dir E dest_dir;
       _ ← open_wb E temp_path;
       total ← closing (may_fail E StCloseFile)
                 (total ← write_chunks E temp_path (body r) 0 0;
                  _ ← may_fail E StFlush;
                  mret total);
       let incomplete :=
         match content_length with
         | Some expected => negb (total =? expected)
         | None => false
         end in
       if incomplete then
         _ ← try_except (os_remove E temp_path) (fun _ => mret tt);
         (mret (false, MsgIncomplete total (default 0 content_length) safe_name)
            : M (bool * message))
       else
         _ ← os_replace E temp_path dest_path;
         mret (true, MsgDownloaded safe_name)).

Definition download_with_resume (E : env) (url dest_dir : str) : M (bool * message) :=
  try_except
    (safe_name ← lift (safe_basename_from_url url);
     let dest_path := path_join dest_dir safe_name in
     content_length ← probe_content_length E url;
     dest_exists ← os_path_exists dest_path;
     skip ←
       (match content_length with
        | Some expected =>
            if (dest_exists : bool) then
              local_size ← os_path_getsize E dest_path;
              mret (local_size =? expected)
            else mret false
        | None => mret false
        end : M bool);
     if (skip : bool) then (mret (true, MsgSkip safe_name) : M (bool * message))
     else streamed_download E url dest_dir safe_name content_length)
    (fun e => mret (false, MsgException e url)).

(** ** img_download_batch *)

(** The loop over [img_list]; [envs i] is the environment of the fetch
    number [i]. *)
Fixpoint batch_loop (envs : nat → env) (i : nat) (img_list : list str)
    (images_dir : str) (results : list (str * bool * message))
    : M (list (str * bool * message)) :=
  match img_list with
  | [] => mret results
  | url :: rest =>
      '(success, msg) ← download_with_resume (envs i) (url_for_req url) images_dir;
      _ ← record (EvPrint success msg);
      batch_loop envs (S i) rest images_dir (results ++ [(url, success, msg)])
  end.

Definition img_download_batch (envs : nat → env) (img_list : list str)
    (images_dir : str) : M (list (str * bool * message)) :=
  batch_loop envs 0 img_list images_dir [].

(** [IMAGES_DIR] *)
Definition IMAGES_DIR : str := lit "images".

(** What the probe by HEAD yields: the length announced by a 200 answer
    whose header is a string of digits that [int] accepts; nothing when
    the call or the conversion raises. *)
Definition probed_size (E : env) : option Z :=
  match fault E StHead with
  | Some _ => None
  | None =>
      if status_code (head_response E) =? 200 then
        match read_content_length (content_length_header (head_response E)) with
        | Ok n => n
        | Raise _ => None
        end
      else None
  end.

(** The file name a result message reports, if it reports one. *)
Definition message_name (msg : message) : option str :=
  match msg with
  | MsgSkip n | MsgIncomplete _ _ n | MsgDownloaded n => Some n
  | MsgHTTP _ _ | MsgException _ _ => None
  end.

(** [m] only adds to the trace. *)
Definition extends {A} (m : M A) : Prop :=
  ∀ w r w', m w = (r, w') → ∃ later, trace w' = trace w ++ later.

(** [m] can only return values satisfying [P]. *)
Definition returns {A} (m : M A) (P : A → Prop) : Prop :=
  ∀ w a w', m w = (Ok a, w') → P a.

(** The length the check after the download compares with: the one of
    the probe, else the one of the GET answer. *)
Definition expected_size (E : env) : result (option Z) :=
  match probed_size E with
  | Some n => Ok (Some n)
  | None => read_content_length (content_length_header (get_response E))
  end.

(** The skip test: a file at the destination whose size is the probed one. *)
Definition size_matches (E : env) (w : world) (dest_path : str) : bool :=
  match probed_size E, files w !! dest_path with
  | Some expected, Some data => Z.of_nat (length data) =? expected
  | _, _ => false
  end.

(** The writes of the loop over the chunks: one per non-empty chunk. *)
Definition chunk_writes (temp_path : str) (chunks : list (list Z)) : list event :=
  map (EvWrite temp_path) (filter (fun c => c ≠ []) chunks).

(** What a result of [download_with_resume] for [url] can be: success
    exactly with the messages of a skip or a completed download, and a
    file name that is the one derived from [url]. *)
Definition result_for (url : str) (r : bool * message) : Prop :=
  match r.2 with
  | MsgSkip n | MsgDownloaded n => r.1 = true ∧ safe_basename_from_url url = Ok n
  | MsgIncomplete _ _ n => r.1 = false ∧ safe_basename_from_url url = Ok n
  | MsgHTTP _ u | MsgException _ u => r.1 = false ∧ u = url
  end.

(** ** Sample fetches, used to instantiate the statements below *)

Definition no_fault : step → option exn := fun _ => None.

Definition sample_url : str := lit "http://a/b.png".

(** A server that announces [announced] bytes (on HEAD and on GET, when
    given) and sends five, in two chunks around an empty one. *)
Definition sample_env (announced : option string) (f : step → option exn) : env :=
  {| head_response :=
       {| status_code := 200; content_length_header := announced; body := [] |};
     get_response :=
       {| status_code := 200; content_length_header := announced;
          body := [[1; 2; 3]; []; [4; 5]] |};
     fault := f |}.

Definition empty_world : world := {| files := ∅; trace := [] |}.

(** A world in which [images/b.png] already holds five bytes. *)
Definition world_with_file : world :=
  {| files := {[ lit "images/b.png" := [9; 9; 9; 9; 9] ]}; trace := [] |}.

(** The removal of the temporary file fails, every other call works. *)
Definition remove_fails : step → option exn := fun s =>
  match s with
  | StRemove => Some (EnvironmentFailure "PermissionError")
  | _ => None
  end.

(** The connection breaks after the first chunk: the second step of
    [iter_content] raises, every other call works. *)
Definition stream_breaks : step → option exn := fun s =>
  match s with
  | StIterContent 1 => Some (EnvironmentFailure "ChunkedEncodingError")
  | _ => None
  end.

(** ** Notions used in the statements about names and URLs *)

(** What the substitution of [unsafe_name_chars] does to one character. *)
Definition sanitize_char (c : Z) : Z :=
  if class_has false [CChar 60; CChar 62; CChar 58; CChar 34; CChar 47; CChar 92;
                      CChar 124; CChar 63; CChar 42; CRange 0 31] c
  then 95 else c.

(** One of the four extensions, letters compared as [re.IGNORECASE] does. *)
Definition image_ext (ext : str) : Prop :=
  ci_eq (lit "png") ext ∨ ci_eq (lit "jpg") ext
  ∨ ci_eq (lit "jpeg") ext ∨ ci_eq (lit "gif") ext.

Fixpoint ci_eqb (p s : str) : bool :=
  match p, s with
  | [], [] => true
  | a :: p', c :: s' => lit_matches true a c && ci_eqb p' s'
  | _, _ => false
  end.

(** [s] ends with the ASCII word [p], up to case. *)
Definition ends_with_ci (p s : str) : bool :=
  (length p <=? length s)%nat && ci_eqb p (drop (length s - length p) s).

(** The reading of "a URL whose path ends in an image extension": the
    path component that [urlsplit] gives ends with one of the four. *)
Definition url_path_has_image_ext (url : str) : bool :=
  match urlsplit url with
  | Ok u =>
      existsb (fun e => ends_with_ci e (us_path u))
        [lit ".png"; lit ".jpg"; lit ".jpeg"; lit ".gif"]
  | Raise _ => false
  end.

(** The fallback name in the words of the specification, before any
    sanitising: the netloc with colons replaced, an underscore, the
    first twelve hexadecimal digits of the SHA-1 of the URL, and the
    extension. *)
Definition unsanitized_fallback_name (u : SplitResult) (data : list Z) (ext : str) : str :=
  replace_char 58 95 (us_netloc u) ++ lit "_" ++ take 12 (sha1_hexdigest data) ++ ext.

(** Sample documents *)

Definition doc_fragment_only : str := lit "![x](https://example.com/gallery/#photo.png)".
Definition doc_url_in_query : str := lit "![x](http://a.com/p.png?src=http://a.com/p.png)".
Definition doc_ext_in_query : str := lit "![i](http://a.com/x?y=b.png)".
Definition doc_spec_example : str := lit "![x](https://a.com/img/pic.png?v=2)".
Definition cdn : str := lit "https://cdn.x.com/d/".

(** [old] occurs in [s]. *)
Definition occurs (old s : str) : Prop := ∃ a b, s = a ++ old ++ b.

(** [url.split('#')[0]]: what precedes the first [#]. *)
Definition before_hash (url : str) : str := (partition_on 35 url).1.1.

(** ** Notions used in the statements about file names and fetches *)

(** A character that the last substitution of [safe_basename_from_url]
    leaves in a name: no control character and none of [<], [>], [:],
    the double quote, [/], the backslash, [|], [?] and the star. *)
Definition filename_char (c : Z) : Prop :=
  ¬ (0 ≤ c ≤ 31) ∧ c ∉ [60; 62; 58; 34; 47; 92; 124; 63; 42].

(** [url.partition(sep)[0]]: what precedes the first [sep]. *)
Definition before (sep : Z) (url : str) : str := (partition_on sep url).1.1.

(** A URL cut before its query and its fragment: what precedes the
    first [?] or [#]. *)
Definition without_query_and_fragment (url : str) : str := before 63 (before 35 url).

(** ** A document as the pattern reads it *)

(** One match of the link pattern with the text that precedes it since
    the match before: that text, the blanks after the opening [](], the
    captured URL, and what follows the URL up to the closing
    parenthesis. *)
Record link := { l_gap : str; l_blank : str; l_url : str; l_tail : str }.

Definition link_text (l : link) : str :=
  l_gap l ++ lit "](" ++ l_blank l ++ l_url l ++ l_tail l ++ lit ")".

(** The link with [new_url] in the place of its URL, nothing else
    changed. *)
Definition link_with_url (new_url : str) (l : link) : str :=
  l_gap l ++ lit "](" ++ l_blank l ++ new_url ++ l_tail l ++ lit ")".

(** The link is well formed: blanks after the opening, a URL of the
    shape the pattern captures, and no closing parenthesis after it. *)
Definition link_wf (l : link) : Prop :=
  Forall (fun c => is_space c = true) (l_blank l)
  ∧ image_url_shape (l_url l)
  ∧ Forall (fun c => c ≠ ch ")") (l_tail l).

(** The link [l] is the match [gm.2], found after the text [gm.1]. *)
Definition link_of (l : link) (gm : str * Match) : Prop :=
  l_gap l = gm.1
  ∧ m_whole gm.2 = lit "](" ++ l_blank l ++ l_url l ++ l_tail l ++ lit ")"
  ∧ group1 gm.2 = l_url l
  ∧ link_wf l.

(** What [new_md] writes for a link: the new URL in the place of the
    captured one, and [str.replace] applied to what follows it. *)
Definition link_rewritten (new_url : str) (l : link) : str :=
  l_gap l ++ lit "](" ++ l_blank l ++ new_url
    ++ str_replace (l_tail l ++ lit ")") (l_url l) new_url.

(** A document without any link, and one with a URL that [urlsplit]
    refuses. *)
Definition doc_plain : str := lit "# Notes [a](b.md) ![c](images/c.png)".
Definition doc_bad_bracket : str := lit "![x](http://[x.png)".

(** ** Notions used in the statements about the effects of a fetch *)

(** [m] relates the world it starts in to the world it ends in by [R],
    however it ends. *)
Definition keeps {A} (R : world → world → Prop) (m : M A) : Prop :=
  ∀ w r w', m w = (r, w') → R w w'.

(** The trace grows by events that satisfy [P]. *)
Definition adds_only (P : event → Prop) (w w' : world) : Prop :=
  ∃ later, trace w' = trace w ++ later ∧ Forall P later.

(** The files are the same but for those at the paths [paths]. *)
Definition same_files_except (paths : list str) (w w' : world) : Prop :=
  ∀ p, p ∉ paths → files w' !! p = files w !! p.

(** What [download_with_resume] asks of the file system for the name
    [safe_name] in [dest_dir]: to create the directory, to open, write
    and remove the temporary file, and to rename it to the
    destination. *)
Definition file_op (dest_dir safe_name : str) (ev : event) : Prop :=
  let dest_path := path_join dest_dir safe_name in
  let temp_path := dest_path ++ lit ".part" in
  match ev with
  | EvMakedirs d => d = dest_dir
  | EvOpen p | EvWrite p _ | EvRemove p => p = temp_path
  | EvReplace src dst => src = temp_path ∧ dst = dest_path
  | EvHead _ | EvGet _ | EvPrint _ _ => False
  end.

(** Both at once: events that satisfy [P], and files changed at
    [paths] only. *)
Definition effect_within (P : event → Prop) (paths : list str) (w w' : world) : Prop :=
  adds_only P w w' ∧ same_files_except paths w w'.

(** The calls of the streamed download of the answer [r], from the GET
    request to the closing of the answer: with another status than 200
    the request and the closing only; with 200 also the creation of the
    directory, the opening of the temporary file, every step of
    [iter_content] (the last one finds the end of the body), the write
    of every chunk that is not empty, [flush] and the closing of the
    file. *)
Definition transfer_step (r : response) (s : step) : Prop :=
  match s with
  | StGet | StCloseResponse => True
  | StMakedirs | StOpen | StFlush | StCloseFile => status_code r = 200
  | StIterContent i => status_code r = 200 ∧ (i ≤ length (body r))%nat
  | StWrite i => status_code r = 200 ∧ ∃ chunk, body r !! i = Some chunk ∧ chunk ≠ []
  | StHead | StGetsize | StRemove | StReplace => False
  end.

(** The calls that a fetch ending with the message [msg] has made,
    apart from the HEAD request and [os.remove], whose exceptions are
    swallowed by handlers of their own: [os.path.getsize] when the
    probe gave a size and the destination exists, the calls of the
    transfer unless the fetch was skipped, and [os.replace] when the
    download was completed. *)
Definition calls_made (E : env) (w : world) (dest_path : str) (msg : message)
    (s : step) : Prop :=
  match s with
  | StHead | StRemove => False
  | StGetsize => probed_size E ≠ None ∧ is_Some (files w !! dest_path)
  | StReplace => ∃ n, msg = MsgDownloaded n
  | _ => (∀ n, msg ≠ MsgSkip n) ∧ transfer_step (get_response E) s
  end.

(** ** Further sample fetches *)

(** A server that answers every request with the status 404. *)
Definition not_found_env : env :=
  {| head_response := {| status_code := 404; content_length_header := None; body := [] |};
     get_response := {| status_code := 404; content_length_header := None; body := [] |};
     fault := no_fault |}.

(** Two environments that differ at most in how the probe by HEAD came
    to its result and, when the probe gave a size, in the
    Content-Length of the GET answer. *)
Definition same_fetch (E E' : env) : Prop :=
  probed_size E = probed_size E'
  ∧ status_code (get_response E) = status_code (get_response E')
  ∧ body (get_response E) = body (get_response E')
  ∧ (probed_size E = None →
     content_length_header (get_response E) = content_length_header (get_response E'))
  ∧ ∀ s, s ≠ StHead → fault E s = fault E' s.

(** The HEAD request fails, or is answered by 500 without length; the
    GET answer is the one of [sample_env]. *)
Definition head_raises : step → option exn := fun s =>
  match s with
  | StHead => Some (EnvironmentFailure "ConnectionError")
  | _ => None
  end.

Definition head_500_env : env :=
  {| head_response := {| status_code := 500; content_length_header := None; body := [] |};
     get_response := get_response (sample_env None no_fault);
     fault := no_fault |}.

(** A Content-Length that [str.isdigit] accepts and [int] refuses: the
    superscript two, U+00B2. *)
Definition superscript_two : string := String (ascii_of_nat 178) EmptyString.

Definition superscript_env : env :=
  {| head_response := {| status_code := 200; content_length_header := Some superscript_two;
                         body := [] |};
     get_response := {| status_code := 200; content_length_header := Some superscript_two;
                        body := [[1; 2; 3]] |};
     fault := no_fault |}.

(** What a batch over [img_list] may ask of the outside: to print its
    lines; to send requests for the request URL of a member of the
    list, which holds no [#]; and the file operations of the fetch of
    such a URL in [images_dir]. *)
Definition batch_event (img_list : list str) (images_dir : str) (ev : event) : Prop :=
  match ev with
  | EvPrint _ _ => True
  | EvHead u | EvGet u =>
      contains 35 u = false ∧ ∃ url, url ∈ img_list ∧ u = url_for_req url
  | _ =>
      ∃ url safe_name,
        url ∈ img_list
        ∧ safe_basename_from_url (url_for_req url) = Ok safe_name
        ∧ file_op images_dir safe_name ev
  end.

(** The files a batch over [img_list] may change: the destination and
    the temporary file of one of its fetches. *)
Definition batch_path (img_list : list str) (images_dir : str) (p : str) : Prop :=
  ∃ url safe_name,
    url ∈ img_list
    ∧ safe_basename_from_url (url_for_req url) = Ok safe_name
    ∧ (p = path_join images_dir safe_name
       ∨ p = path_join images_dir safe_name ++ lit ".part").

(** A list of one URL with a fragment. *)
Definition urls_with_fragment : list str := [lit "http://a/b#c.png"].

(** ** Text files

    [open(path, 'r', encoding='utf-8')] and [open(path, 'w',
    encoding='utf-8')] on a POSIX system: the bytes of a file are
    decoded as UTF-8, strictly, and every line end is read as a line
    feed; a text is written as its UTF-8 encoding, line feeds as they
    are. *)

(** [bs.decode('utf-8')]: the code points of a well-formed sequence,
    nothing for an ill-formed one. *)
Fixpoint decode_strict (bs : list Z) : option str :=
  match bs with
  | [] => Some []
  | b :: t1 =>
      if b <? 0x80 then cons b <$> decode_strict t1
      else if (b <? 0xC2) || (0xF4 <? b) then None
      else if b <? 0xE0 then
        match t1 with
        | [] => None
        | b1 :: t2 =>
            if is_continuation b1
            then cons (Z.lor (Z.shiftl (Z.land b 0x1F) 6) (Z.land b1 0x3F))
                   <$> decode_strict t2
            else None
        end
      else if b <? 0xF0 then
        match t1 with
        | [] => None
        | b1 :: t2 =>
            if ((if b =? 0xE0 then 0xA0 else 0x80) <=? b1)
               && (b1 <=? (if b =? 0xED then 0x9F else 0xBF))
            then
              match t2 with
              | [] => None
              | b2 :: t3 =>
                  if is_continuation b2
                  then cons (Z.lor (Z.shiftl (Z.land b 0x0F) 12)
                               (Z.lor (Z.shiftl (Z.land b1 0x3F) 6) (Z.land b2 0x3F)))
                         <$> decode_strict t3
                  else None
              end
            else None
        end
      else
        match t1 with
        | [] => None
        | b1 :: t2 =>
            if ((if b =? 0xF0 then 0x90 else 0x80) <=? b1)
               && (b1 <=? (if b =? 0xF4 then 0x8F else 0xBF))
            then
              match t2 with
              | [] => None
              | b2 :: t3 =>
                  if is_continuation b2 then
                    match t3 with
                    | [] => None
                    | b3 :: t4 =>
                        if is_continuation b3
                        then cons (Z.lor (Z.shiftl (Z.land b 0x07) 18)
                                     (Z.lor (Z.shiftl (Z.land b1 0x3F) 12)
                                        (Z.lor (Z.shiftl (Z.land b2 0x3F) 6)
                                           (Z.land b3 0x3F))))
                               <$> decode_strict t4
                        else None
                    end
                  else None
              end
            else None
        end
  end.

(** Reading with [newline=None]: a carriage return followed by a line
    feed, and a carriage return alone, are read as one line feed. *)
Fixpoint universal_newlines (s : str) : str :=
  match s with
  | [] => []
  | c :: s' =>
      if c =? 13 then
        10 :: match s' with
              | c' :: s'' => if c' =? 10 then universal_newlines s'' else universal_newlines s'
              | [] => []
              end
      else c :: universal_newlines s'
  end.

(** The calls on a text file that can fail on their own. *)
Inductive text_step :=
| TsOpenRead (path : str) | TsRead (path : str) | TsCloseRead (path : str)
| TsOpenWrite (path : str) | TsWrite (path : str) | TsCloseWrite (path : str).

Definition text_env := text_step → option exn.

Definition text_may_fail (T : text_env) (s : text_step) : M unit := fun w =>
  match T s with
  | Some e => (Raise e, w)
  | None => (Ok tt, w)
  end.

(** [with open(path, 'r', encoding='utf-8') as f: text = f.read()] *)
Definition read_text (T : text_env) (path : str) : M str :=
  _ ← text_may_fail T (TsOpenRead path);
  fs ← get_files;
  match fs !! path with
  | None => raise (FileNotFoundError path)
  | Some bs =>
      closing (text_may_fail T (TsCloseRead path))
        (_ ← text_may_fail T (TsRead path);
         match decode_strict bs with
         | Some s => mret (universal_newlines s)
         | None => raise (EnvironmentFailure "UnicodeDecodeError")
         end)
  end.

(** [with open(path, 'w', encoding='utf-8') as f: f.write(text)]: the
    file is created or emptied when it is opened; the text is encoded
    when it is written. *)
Definition write_text (T : text_env) (path : str) (text : str) : M unit :=
  _ ← record (EvOpen path);
  _ ← text_may_fail T (TsOpenWrite path);
  fs ← get_files;
  _ ← put_files (<[path := []]> fs);
  closing (text_may_fail T (TsCloseWrite path))
    (data ← lift (encode text);
     _ ← record (EvWrite path data);
     _ ← text_may_fail T (TsWrite path);
     fs ← get_files;
     put_files (<[path := data]> fs)).

(** [extract_image_urls(md_file)], from the file. *)
Definition extract_image_urls_of_file (T : text_env) (md_file : str) : M (list str) :=
  text ← read_text T md_file;
  mret (extract_image_urls text).

(** ** os.path.splitext *)

(** [s.rfind(c)]: the index of the last [c], or -1. *)
Fixpoint rfind_from (c : Z) (s : str) (i found : Z) : Z :=
  match s with
  | [] => found
  | x :: s' => rfind_from c s' (i + 1) (if x =? c then i else found)
  end.

Definition rfind (c : Z) (s : str) : Z := rfind_from c s 0 (-1).

(** [p[i:j]] for indices that are not negative *)
Definition slice (i j : Z) (p : str) : str :=
  take (Z.to_nat j - Z.to_nat i) (drop (Z.to_nat i) p).

(** [os.path.splitext(p)]: the extension starts at the last dot, when
    that dot comes after the last slash and after a character of the
    last segment that is no dot. *)
Definition splitext (p : str) : str * str :=
  let sepIndex := rfind 47 p in
  let dotIndex := rfind 46 p in
  if (sepIndex <? dotIndex)
     && existsb (fun c => negb (c =? 46)) (slice (sepIndex + 1) dotIndex p)
  then (take (Z.to_nat dotIndex) p, drop (Z.to_nat dotIndex) p)
  else (p, []).

(** [s.endswith(p)] *)
Definition ends_with (p s : str) : bool :=
  (length p <=? length s)%nat && bool_decide (drop (length s - length p) s = p).

(** ** The program

    The program talks to a console besides the files and the network:
    what it reads, what it prints and what the fetches and the file
    operations do are kept in one log, in order. *)

Inductive prompt :=
| PromptFilename       (* 请输入文件名（不含扩展名，支持通配符，如 notes）： *)
| PromptServerPath.    (* 请输入服务器路径（OSS or WebServer，示例 ... ）： *)

(** The lines printed by [main] and [new_md]. *)
Inductive line :=
| LineNoFilename                  (* 未输入文件名，退出。 *)
| LineNoFile                      (* 未找到匹配的 md 文件。 *)
| LineProcessing (md_file : str)  (* 处理文件: {md_file} *)
| LineNoImages                    (* 未发现图片链接，跳过下载。 *)
| LineFound (n : nat)             (* 发现 {len(imgs)} 个图片链接，开始下载... *)
| LineWritten (new_file : str)    (* new markdown written: {new_file} *)
| LineDone.                       (* 全部完成。 *)

Inductive action :=
| Asked (p : prompt)        (* input(prompt) *)
| Globbed (pattern : str)   (* glob.glob(pattern) *)
| Printed (l : line)
| Did (ev : event).         (* an event of a fetch or of a file operation *)

Record process := {
  p_files : gmap str (list Z);
  p_log : list action
}.

(** What the outside answers to the program. *)
Record main_env := {
  typed : nat → option str;        (* the line read by the n-th input(), if any *)
  glob_result : str → list str;    (* glob.glob(pattern) *)
  text_faults : text_env;
  makedirs_env : env;              (* ensure_dir(IMAGES_DIR) in main *)
  fetch_envs : nat → nat → env     (* the fetch number j for the file number i *)
}.

Definition Prog (A : Type) : Type := process → result A * process.

Global Instance Prog_ret : MRet Prog := fun A a p => (Ok a, p).
Global Instance Prog_bind : MBind Prog := fun A B f m p =>
  match m p with
  | (Ok a, p') => f a p'
  | (Raise e, p') => (Raise e, p')
  end.

(** A computation on the files and the network, run by the program:
    its events go to the log. *)
Definition run {A} (m : M A) : Prog A := fun p =>
  let '(r, w) := m {| files := p_files p; trace := [] |} in
  (r, {| p_files := files w; p_log := p_log p ++ map Did (trace w) |}).

Definition log (a : action) : Prog unit := fun p =>
  (Ok tt, {| p_files := p_files p; p_log := p_log p ++ [a] |}).

(** [print(...)] *)
Definition print (l : line) : Prog unit := log (Printed l).

(** The [n]-th call of [input]: it shows the prompt and returns the
    line typed, or raises [EOFError] at the end of the input. *)
Definition input (X : main_env) (n : nat) (p : prompt) : Prog str := fun s =>
  let s' := {| p_files := p_files s; p_log := p_log s ++ [Asked p] |} in
  match typed X n with
  | Some answer => (Ok answer, s')
  | None => (Raise (EnvironmentFailure "EOFError"), s')
  end.

(** [glob.glob(pattern)] *)
Definition glob (X : main_env) (pattern : str) : Prog (list str) :=
  _ ← log (Globbed pattern); mret (glob_result X pattern).

(** [new_md(md_file, new_file, server_path)], with its files. *)
Definition new_md_file (T : text_env) (md_file new_file server_path : str) : Prog unit :=
  text ← run (read_text T md_file);
  new_text ← run (lift (new_md text server_path));
  _ ← run (write_text T new_file new_text);
  print (LineWritten new_file).

(** The name of the rewritten file:
    [os.path.splitext(md_file)[0] + "_new.md"] *)
Definition new_file_name (md_file : str) : str := (splitext md_file).1 ++ lit "_new.md".

(** The body of the loop of [main] over the files, for the file number
    [i]. *)
Definition process_file (X : main_env) (i : nat) (md_file server_path : str) : Prog unit :=
  _ ← print (LineProcessing md_file);
  imgs ← run (extract_image_urls_of_file (text_faults X) md_file);
  _ ← (if bool_decide (imgs = []) then print LineNoImages
       else
         _ ← print (LineFound (length imgs));
         _ ← run (img_download_batch (fetch_envs X i) imgs IMAGES_DIR);
         mret tt : Prog unit);
  new_md_file (text_faults X) md_file (new_file_name md_file) server_path.

Fixpoint process_files (X : main_env) (i : nat) (mdfile_list : list str)
    (server_path : str) : Prog unit :=
  match mdfile_list with
  | [] => mret tt
  | md_file :: rest =>
      _ ← process_file X i md_file server_path;
      process_files X (S i) rest server_path
  end.

Definition main (X : main_env) : Prog unit :=
  filename ← input X 0 PromptFilename;
  let filename := strip filename in
  if bool_decide (filename = []) then print LineNoFilename
  else
    let pattern :=
      if ends_with (lit ".md") filename then filename else filename ++ lit ".md" in
    mdfile_list ← glob X pattern;
    if bool_decide (mdfile_list = []) then print LineNoFile
    else
      server_path ← input X 1 PromptServerPath;
      let server_path := normalize_server_path (strip server_path) in
      _ ← run (ensure_dir (makedirs_env X) IMAGES_DIR);
      _ ← process_files X 0 mdfile_list server_path;
      print LineDone.

(** ** Notions used in the statements about the program *)

(** The program [m] changes files at paths that satisfy [Q] only. *)
Definition changes_only {A} (Q : str → Prop) (m : Prog A) : Prop :=
  ∀ p r p', m p = (r, p') → ∀ q, p_files p' !! q ≠ p_files p !! q → Q q.

(** No call on a text file fails on its own. *)
Definition no_text_fault : text_env := fun _ => None.

(** An entry of the directory of the images: a name that
    [safe_basename_from_url] can return, or such a name followed by
    [.part]. *)
Definition image_path (p : str) : Prop :=
  ∃ name, name ≠ [] ∧ Forall filename_char name
          ∧ (p = path_join IMAGES_DIR name ∨ p = path_join IMAGES_DIR name ++ lit ".part").

(** The pattern that [main] gives to [glob.glob] for the line typed at
    the first prompt; none when the line is blank. *)
Definition glob_pattern (answer : str) : option str :=
  let filename := strip answer in
  if bool_decide (filename = []) then None
  else Some (if ends_with (lit ".md") filename then filename else filename ++ lit ".md").

(** The documents of a run: what [glob.glob] returns for the pattern
    made from the line typed at the first prompt. *)
Definition documents (X : main_env) : list str :=
  match typed X 0 with
  | Some answer =>
      match glob_pattern answer with
      | Some pattern => glob_result X pattern
      | None => []
      end
  | None => []
  end.

(** Sample files: a document without link, stored with line feeds. *)
Definition plain_bytes : list Z := lit "# Notes [a](b.md) ![c](images/c.png)" ++ [10].

Definition disk_with_notes : process :=
  {| p_files := {[ lit "notes.md" := plain_bytes ]}; p_log := [] |}.

(** What the outside answers in a run on the file [notes.md]: the name
    typed is [notes], the pattern matches that file, the server path
    typed is the one of the examples, nothing fails. *)
Definition notes_env : main_env :=
  {| typed := fun n => match n with
                       | O => Some (lit " notes ")
                       | _ => Some (lit "https://cdn.x.com/d")
                       end;
     glob_result := fun pattern =>
       if bool_decide (pattern = lit "notes.md") then [lit "notes.md"] else [];
     text_faults := no_text_fault;
     makedirs_env := sample_env None no_fault;
     fetch_envs := fun _ _ => sample_env (Some "5"%string) no_fault |}.

(** A document with the link whose URL [urlsplit] refuses, after a
    link to an image that can be fetched. *)
Definition bad_bytes : list Z := lit "![a](http://a/b.png) ![x](http://[x.png)".

Definition disk_with_bad : process :=
  {| p_files := {[ lit "notes.md" := bad_bytes ]}; p_log := [] |}.

(** A document with one link, whose URL has a fragment. *)
Definition doc_sample : str := lit "![b](http://a/b#c.png)".

(** A file that is not UTF-8: the byte 0xFF. *)
Definition disk_with_latin1 : process :=
  {| p_files := {[ lit "notes.md" := lit "caf" ++ [0xFF] ]}; p_log := [] |}.

(** * Properties *)

(** ** Deduplication in [extract_image_urls] *)

Section Dedup.
Implicit Types (l before urls : list str) (seen : gset str).

Lemma first_occurrences_elem before l x :
  x ∈ first_occurrences before l ↔ x ∈ l ∧ x ∉ before.
Proof.
  revert before. induction l as [|a l IH]; intros before; simpl.
  - split; [intros H; inversion H | intros [H _]; inversion H].
  - rewrite elem_of_app, IH, elem_of_cons, elem_of_app, list_elem_of_singleton.
    destruct (decide (a ∈ before)) as [Ha|Ha].
    + split.
      * intros [H|[H1 H2]]; [inversion H|]. split; [by right|]. tauto.
      * intros [[->|H] Hn]; [done|]. right. split; [done|].
        intros [?| ->]; done.
    + rewrite list_elem_of_singleton. split.
      * intros [->|[H1 H2]]; [split; [by left|done]|]. split; [by right|tauto].
      * intros [[->|H] Hn]; [by left|].
        destruct (decide (x = a)) as [->|Hne]; [by left|].
        right. split; [done|]. intros [?|?]; done.
Qed.

Lemma first_occurrences_NoDup before l : NoDup (first_occurrences before l).
Proof.
  revert before. induction l as [|a l IH]; intros before; simpl.
  - constructor.
  - destruct (decide (a ∈ before)); simpl; [apply IH|].
    constructor; [|apply IH].
    rewrite first_occurrences_elem. intros [_ H]. apply H.
    apply elem_of_app. right. by apply list_elem_of_singleton.
Qed.

(** Of two kept URLs, the one listed first is the one met first. *)
Lemma first_occurrences_order before l i j x y :
  (i < j)%nat →
  first_occurrences before l !! i = Some x →
  first_occurrences before l !! j = Some y →
  ∃ i', l !! i' = Some x ∧ ∀ j', l !! j' = Some y → (i' < j')%nat.
Proof.
  revert before i j. induction l as [|a l IH]; intros before i j Hij Hi Hj; simpl in *.
  - by rewrite lookup_nil in Hi.
  - assert (Hshift : ∀ i0 j0, (i0 < j0)%nat →
              first_occurrences (before ++ [a]) l !! i0 = Some x →
              first_occurrences (before ++ [a]) l !! j0 = Some y →
              ∃ i', (a :: l) !! i' = Some x ∧
                    ∀ j', (a :: l) !! j' = Some y → (i' < j')%nat).
    { intros i0 j0 Hlt H1 H2.
      destruct (IH _ _ _ Hlt H1 H2) as (i' & Hx & Hall).
      exists (S i'). split; [done|]. intros [|j'] Hy.
      - simpl in Hy. injection Hy as ->.
        apply list_elem_of_lookup_2, first_occurrences_elem in H2 as [_ Hn].
        exfalso. apply Hn, elem_of_app. right. by apply list_elem_of_singleton.
      - simpl in Hy. specialize (Hall _ Hy). lia. }
    destruct (decide (a ∈ before)); simpl in *; [by eapply Hshift|].
    destruct i as [|i]; destruct j as [|j]; try lia; simpl in *.
    + injection Hi as ->. exists 0%nat. split; [done|].
      intros [|j'] Hy; [|lia]. simpl in Hy. injection Hy as ->.
      apply list_elem_of_lookup_2, first_occurrences_elem in Hj as [_ Hn].
      exfalso. apply Hn, elem_of_app. right. by apply list_elem_of_singleton.
    + eapply Hshift; [|done..]. lia.
Qed.

Lemma first_occurrences_ext before before' l :
  (∀ x, x ∈ before ↔ x ∈ before') →
  first_occurrences before l = first_occurrences before' l.
Proof.
  revert before before'. induction l as [|a l IH]; intros b b' Hb; simpl; [done|].
  rewrite (IH (b ++ [a]) (b' ++ [a])).
  - destruct (decide (a ∈ b)) as [H|H]; destruct (decide (a ∈ b')) as [H'|H'];
      try done; exfalso; apply Hb in H || apply Hb in H'; done.
  - intros x. rewrite !elem_of_app, Hb. tauto.
Qed.

(** The loop of the source computes the rule. *)
Lemma extract_loop_first_occurrences ms urls seen :
  (∀ x, x ∈ seen ↔ x ∈ urls) →
  (fold_left extract_step ms (urls, seen)).1
  = urls ++ first_occurrences urls (map group1 ms).
Proof.
  revert urls seen. induction ms as [|m ms IH]; intros urls seen Hseen; simpl.
  - by rewrite app_nil_r.
  - unfold extract_step at 2. simpl.
    destruct (decide (group1 m ∈ seen)) as [Hin|Hin];
      destruct (decide (group1 m ∈ urls)) as [Hin'|Hin'];
      try (exfalso; apply Hseen in Hin; done);
      try (exfalso; apply Hseen in Hin'; done).
    + rewrite (IH _ _ Hseen). simpl. f_equal.
      apply first_occurrences_ext. intros x.
      rewrite elem_of_app, list_elem_of_singleton. split; [tauto|].
      intros [?| ->]; done.
    + rewrite IH.
      * simpl. by rewrite <- app_assoc.
      * intros x. rewrite elem_of_union, elem_of_singleton, elem_of_app,
          list_elem_of_singleton, Hseen. tauto.
Qed.

Lemma extract_image_urls_first_occurrences text :
  extract_image_urls text = first_occurrences [] (captures text).
Proof.
  unfold extract_image_urls, captures.
  rewrite extract_loop_first_occurrences; [done|].
  intros x. split; intros H; [by apply not_elem_of_empty in H | inversion H].
Qed.
End Dedup.

(** C4. For every document text, the list returned by
    [extract_image_urls] has no duplicate URL, contains exactly the
    captured URLs, lists them in the order of their first occurrence in
    the text, and is empty when the pattern has no match; the function
    is total, it has no error result. *)
Theorem extract_image_urls_dedup_first_seen (text : str) :
  NoDup (extract_image_urls text)
  ∧ (∀ u, u ∈ extract_image_urls text ↔ u ∈ captures text)
  ∧ (∀ i j x y, (i < j)%nat →
       extract_image_urls text !! i = Some x →
       extract_image_urls text !! j = Some y →
       ∃ i', captures text !! i' = Some x
             ∧ ∀ j', captures text !! j' = Some y → (i' < j')%nat)
  ∧ (finditer true link_pattern text = [] → extract_image_urls text = []).
Proof.
  rewrite extract_image_urls_first_occurrences. repeat split.
  - apply first_occurrences_NoDup.
  - intros H. by apply first_occurrences_elem in H as [H _].
  - intros H. apply first_occurrences_elem. split; [done|]. intros H'; inversion H'.
  - intros i j x y. apply first_occurrences_order.
  - unfold captures. by intros ->.
Qed.

(** ** Soundness of the matcher *)

Section MatcherSound.
Variable ic : bool.
Context {X : Type}.
Implicit Types (r : re) (s w rest : str) (g : option str)
  (k : str → option str → option X).

Lemma rmatch_sound r : ∀ s g k x,
  rmatch ic r s g k = Some x →
  ∃ w rest g', s = w ++ rest ∧ matches ic r w rest g g' ∧ k rest g' = Some x.
Proof.
  induction r as [|p|negate items|r1 IH1 r2 IH2|r1 IH1 r2 IH2|greedy r1 IH1|r1 IH1|];
    intros s g k x H; simpl in H.
  - exists [], s, g. repeat split; [constructor|done].
  - destruct s as [|c s]; [done|]. destruct (lit_matches ic p c) eqn:E; [|done].
    exists [c], s, g. repeat split; [by constructor|done].
  - destruct s as [|c s]; [done|]. destruct (class_has negate items c) eqn:E; [|done].
    exists [c], s, g. repeat split; [by constructor|done].
  - apply IH1 in H as (w1 & rest1 & g1 & -> & M1 & H).
    apply IH2 in H as (w2 & rest & g2 & -> & M2 & H).
    exists (w1 ++ w2), rest, g2. rewrite <- app_assoc.
    repeat split; [by econstructor|done].
  - destruct (rmatch ic r1 s g k) as [x'|] eqn:E.
    + injection H as ->. apply IH1 in E as (w & rest & g' & -> & M & H).
      exists w, rest, g'. repeat split; [by apply M_AltL|done].
    + apply IH2 in H as (w & rest & g' & -> & M & H).
      exists w, rest, g'. repeat split; [by apply M_AltR|done].
  - destruct greedy.
    + revert H. generalize (length s) at 1. intros n. revert s g.
      induction n as [|n IHn]; intros s g H.
      * exists [], s, g. repeat split; [constructor|done].
      * destruct (rmatch ic r1 s g _) as [x'|] eqn:E.
        -- injection H as ->.
           apply IH1 in E as (w1 & rest1 & g1 & -> & M1 & H).
           destruct (length rest1 <? length (w1 ++ rest1))%nat eqn:Hlt; [|done].
           apply IHn in H as (w2 & rest & g2 & -> & M2 & H).
           exists (w1 ++ w2), rest, g2. rewrite <- app_assoc.
           repeat split; [|done].
           eapply M_StarCons; [|done..].
           intros ->. apply Nat.ltb_lt in Hlt. simpl in Hlt. lia.
        -- exists [], s, g. repeat split; [constructor|done].
    + revert H. generalize (length s) at 1. intros n. revert s g.
      induction n as [|n IHn]; intros s g H.
      * destruct (k s g) eqn:E; [|done]. injection H as ->.
        exists [], s, g. repeat split; [constructor|done].
      * destruct (k s g) eqn:E.
        -- injection H as ->. exists [], s, g. repeat split; [constructor|done].
        -- apply IH1 in H as (w1 & rest1 & g1 & -> & M1 & H).
           destruct (length rest1 <? length (w1 ++ rest1))%nat eqn:Hlt; [|done].
           apply IHn in H as (w2 & rest & g2 & -> & M2 & H).
           exists (w1 ++ w2), rest, g2. rewrite <- app_assoc.
           repeat split; [|done].
           eapply M_StarCons; [|done..].
           intros ->. apply Nat.ltb_lt in Hlt. simpl in Hlt. lia.
  - apply IH1 in H as (w & rest & g' & -> & M & H).
    exists w, rest, (Some w). repeat split; [by econstructor|].
    rewrite length_app, Nat.add_sub, take_app_length in H. done.
  - destruct (at_end s) eqn:E; [|done].
    exists [], s, g. repeat split; [by constructor|done].
Qed.
End MatcherSound.

Lemma match_here_sound ic r s m :
  match_here ic r s = Some m →
  s = m_whole m ++ m_rest m ∧ matches ic r (m_whole m) (m_rest m) None (m_group1 m).
Proof.
  unfold match_here. intros H.
  apply rmatch_sound in H as (w & rest & g' & -> & M & H).
  injection H as <-. simpl.
  rewrite length_app, Nat.add_sub, take_app_length. done.
Qed.

(** Every match reported by the scan is a match of the pattern at some
    position of the text. *)
Lemma scan_sound ic r : ∀ s skip gap gm,
  gm ∈ (scan ic r s skip gap).1 →
  ∃ before, s = before ++ m_whole gm.2 ++ m_rest gm.2
            ∧ match_here ic r (m_whole gm.2 ++ m_rest gm.2) = Some gm.2.
Proof.
  induction s as [|c s IH]; intros skip gap gm H.
  - destruct skip as [|k]; simpl in H; [|by apply elem_of_nil in H].
    destruct (match_here ic r []) as [m|] eqn:E; simpl in H; [|by apply elem_of_nil in H].
    apply list_elem_of_singleton in H as ->. simpl.
    destruct (match_here_sound _ _ _ _ E) as [Hs _].
    exists []. rewrite <- Hs. done.
  - destruct skip as [|k]; simpl in H.
    + destruct (match_here ic r (c :: s)) as [m|] eqn:E.
      * destruct (scan ic r s _ _) as [ms tl] eqn:Es. simpl in H.
        apply elem_of_cons in H as [->|H].
        -- simpl. destruct (match_here_sound _ _ _ _ E) as [Hs _].
           exists []. rewrite <- Hs. done.
        -- assert (H' : gm ∈ (scan ic r s (length (m_whole m) - 1)
                     (if (length (m_whole m) =? 0)%nat then [c] else [])).1)
             by (rewrite Es; done).
           apply IH in H' as (before & -> & Hm).
           exists (c :: before). done.
      * apply IH in H as (before & -> & Hm). exists (c :: before). done.
    + apply IH in H as (before & -> & Hm). exists (c :: before). done.
Qed.

(** ** Inversion of the declarative reading *)

Section Inversion.
Variable ic : bool.
Implicit Types (r : re) (w rest : str) (g : option str).

Lemma matches_Cat_inv r1 r2 w rest g g2 :
  matches ic (Cat r1 r2) w rest g g2 →
  ∃ w1 w2 g1, w = w1 ++ w2 ∧ matches ic r1 w1 (w2 ++ rest) g g1
              ∧ matches ic r2 w2 rest g1 g2.
Proof. inversion 1; subst. eauto 10. Qed.

Lemma matches_Lit_inv p w rest g g' :
  matches ic (Lit p) w rest g g' →
  ∃ c, w = [c] ∧ g' = g ∧ lit_matches ic p c = true.
Proof. inversion 1; subst. eauto. Qed.

Lemma matches_Group_inv r w rest g g' :
  matches ic (Group r) w rest g g' →
  g' = Some w ∧ ∃ g1, matches ic r w rest g g1.
Proof. inversion 1; subst. eauto. Qed.

Lemma matches_Alt_inv r1 r2 w rest g g' :
  matches ic (Alt r1 r2) w rest g g' →
  matches ic r1 w rest g g' ∨ matches ic r2 w rest g g'.
Proof. inversion 1; subst; auto. Qed.

Lemma matches_Eps_inv w rest g g' :
  matches ic Eps w rest g g' → w = [] ∧ g' = g.
Proof. inversion 1; subst; auto. Qed.

Lemma matches_AtEnd_inv w rest g g' :
  matches ic AtEnd w rest g g' → w = [] ∧ g' = g ∧ at_end rest = true.
Proof. inversion 1; subst; auto. Qed.

Lemma matches_Word_inv p : ∀ w rest g g',
  matches ic (Word p) w rest g g' →
  g' = g ∧ Forall2 (fun a c => lit_matches ic a c = true) p w.
Proof.
  induction p as [|a p IH]; intros w rest g g' H; simpl in H.
  - apply matches_Eps_inv in H as [-> ->]. split; [done|constructor].
  - apply matches_Cat_inv in H as (w1 & w2 & g1 & -> & H1 & H2).
    apply matches_Lit_inv in H1 as (c & -> & -> & Hc).
    apply IH in H2 as [-> H2]. split; [done|]. simpl. by constructor.
Qed.

Lemma matches_Opt_Lit_inv p w rest g g' :
  matches ic (Opt (Lit p)) w rest g g' →
  g' = g ∧ (w = [] ∨ ∃ c, w = [c] ∧ lit_matches ic p c = true).
Proof.
  intros H. apply matches_Alt_inv in H as [H|H].
  - apply matches_Lit_inv in H as (c & -> & -> & Hc). eauto.
  - apply matches_Eps_inv in H as [-> ->]. eauto.
Qed.

Lemma matches_Star_In_inv greedy negate items w rest g g' :
  matches ic (Star greedy (In negate items)) w rest g g' →
  g' = g ∧ Forall (fun c => class_has negate items c = true) w.
Proof.
  remember (Star greedy (In negate items)) as r eqn:Hr.
  induction 1; try discriminate.
  - split; [done|constructor].
  - injection Hr as -> ->. destruct (IHmatches2 eq_refl) as [-> Hall].
    inversion H0; subst. split; [done|]. simpl. by constructor.
Qed.

Lemma matches_Plus_In_inv greedy negate items w rest g g' :
  matches ic (Plus greedy (In negate items)) w rest g g' →
  g' = g ∧ w ≠ [] ∧ Forall (fun c => class_has negate items c = true) w.
Proof.
  intros H. apply matches_Cat_inv in H as (w1 & w2 & g1 & -> & H1 & H2).
  inversion H1; subst.
  apply matches_Star_In_inv in H2 as [-> Hall].
  split; [done|]. split; [done|]. simpl. by constructor.
Qed.
End Inversion.

Lemma ci_eq_app p1 p2 s1 s2 : ci_eq p1 s1 → ci_eq p2 s2 → ci_eq (p1 ++ p2) (s1 ++ s2).
Proof. apply Forall2_app. Qed.

(** A literal that is not a letter matches only itself. *)
Lemma lit_matches_exact ic p c :
  is_ascii_alpha p = false → lit_matches ic p c = true → c = p.
Proof.
  unfold lit_matches, ignorecase_variants. intros ->. destruct ic; simpl; lia.
Qed.

Lemma image_exts_inv w rest g g' :
  matches true image_exts w rest g g' →
  g' = g ∧ (ci_eq (lit "png") w ∨ ci_eq (lit "jpg") w
            ∨ ci_eq (lit "jpeg") w ∨ ci_eq (lit "gif") w).
Proof.
  unfold image_exts. intros H.
  apply matches_Alt_inv in H as [H|H]; [|apply matches_Alt_inv in H as [H|H]].
  - apply matches_Word_inv in H as [-> H]. auto.
  - apply matches_Cat_inv in H as (w1 & w2 & g1 & -> & H1 & H2).
    apply matches_Word_inv in H1 as [-> H1].
    apply matches_Cat_inv in H2 as (w3 & w4 & g2 & -> & H3 & H4).
    apply matches_Opt_Lit_inv in H3 as [-> H3].
    apply matches_Lit_inv in H4 as (c & -> & -> & Hc).
    split; [done|]. right.
    destruct H3 as [->|(e & -> & He)].
    + left. change (lit "jpg") with (lit "jp" ++ [ch "g"]).
      apply ci_eq_app; [done|]. by constructor.
    + right; left. change (lit "jpeg") with (lit "jp" ++ [ch "e"; ch "g"]).
      apply ci_eq_app; [done|]. constructor; [done|]. by constructor.
  - apply matches_Word_inv in H as [-> H]. auto.
Qed.

(** What a match of the link pattern looks like: the two opening
    characters, blanks, the captured URL, a tail without closing
    parenthesis, and the closing parenthesis. *)
Lemma link_pattern_inv w rest g g' :
  matches true link_pattern w rest g g' →
  ∃ ws url tail,
    w = lit "](" ++ ws ++ url ++ tail ++ lit ")"
    ∧ g' = Some url
    ∧ Forall (fun c => is_space c = true) ws
    ∧ image_url_shape url
    ∧ Forall (fun c => c ≠ ch ")") tail.
Proof.
  unfold link_pattern. intros H.
  apply matches_Cat_inv in H as (w1 & ? & g1 & -> & H1 & H).
  apply matches_Lit_inv in H1 as (c1 & -> & -> & Hc1).
  apply lit_matches_exact in Hc1 as ->; [|done].
  apply matches_Cat_inv in H as (w2 & ? & g2 & -> & H2 & H).
  apply matches_Lit_inv in H2 as (c2 & -> & -> & Hc2).
  apply lit_matches_exact in Hc2 as ->; [|done].
  apply matches_Cat_inv in H as (ws & ? & g3 & -> & Hws & H).
  apply matches_Star_In_inv in Hws as [-> Hws].
  apply matches_Cat_inv in H as (url & ? & g4 & -> & Hurl & H).
  apply matches_Group_inv in Hurl as [-> [g5 Hurl]].
  apply matches_Cat_inv in H as (tail & ? & g6 & -> & Htail & H).
  apply matches_Star_In_inv in Htail as [-> Htail].
  apply matches_Lit_inv in H as (c3 & -> & -> & Hc3).
  apply lit_matches_exact in Hc3 as ->; [|done].
  exists ws, url, tail. split; [done|]. split; [done|]. split.
  { eapply Forall_impl; [exact Hws|]. intros c Hc. simpl in Hc.
    unfold class_has in Hc. simpl in Hc. by rewrite orb_false_r in Hc. }
  split.
  2:{ eapply Forall_impl; [exact Htail|]. intros c Hc. unfold class_has in Hc.
      simpl in Hc. rewrite orb_false_r in Hc. intros ->. done. }
  clear Hws Htail.
  apply matches_Cat_inv in Hurl as (http & ? & g7 & -> & Hhttp & H).
  apply matches_Word_inv in Hhttp as [-> Hhttp].
  apply matches_Cat_inv in H as (s & ? & g8 & -> & Hs & H).
  apply matches_Opt_Lit_inv in Hs as [-> Hs].
  apply matches_Cat_inv in H as (sep & ? & g9 & -> & Hsep & H).
  apply matches_Word_inv in Hsep as [-> Hsep].
  apply matches_Cat_inv in H as (body & ? & g10 & -> & Hbody & H).
  apply matches_Plus_In_inv in Hbody as (-> & Hne & Hbody).
  apply matches_Cat_inv in H as (dot & ext & g11 & -> & Hdot & Hext).
  apply matches_Lit_inv in Hdot as (c4 & -> & -> & Hc4).
  apply lit_matches_exact in Hc4 as ->; [|done].
  apply image_exts_inv in Hext as [-> Hext].
  assert (sep = lit "://") as ->.
  { inversion Hsep as [|? c5 ? ? Hc5 Hsep']; subst.
    inversion Hsep' as [|? c6 ? ? Hc6 Hsep'']; subst.
    inversion Hsep'' as [|? c7 ? ? Hc7 Hnil]; subst. inversion Hnil; subst.
    apply lit_matches_exact in Hc5 as ->; [|done].
    apply lit_matches_exact in Hc6 as ->; [|done].
    apply lit_matches_exact in Hc7 as ->; done. }
  exists (http ++ s), body, ext. split; [by rewrite <- !app_assoc|].
  split.
  { destruct Hs as [->|(c & -> & Hc)].
    - left. by rewrite app_nil_r.
    - right. change (lit "https") with (lit "http" ++ [ch "s"]).
      apply ci_eq_app; [done|]. by constructor. }
  split; [done|]. split; [|done].
  eapply Forall_impl; [exact Hbody|]. intros c Hc. unfold class_has in Hc. simpl in Hc.
  rewrite orb_false_r in Hc. apply negb_true_iff, orb_false_iff in Hc as [Hsp Hp].
  split; [done|]. intros ->. done.
Qed.

(** ** Substitution of a one-character class *)

Lemma match_here_class ic negate items s :
  match_here ic (In negate items) s =
  match s with
  | c :: s' =>
      if class_has negate items c
      then Some {| m_whole := [c]; m_group1 := None; m_rest := s' |} else None
  | [] => None
  end.
Proof.
  unfold match_here. simpl. destruct s as [|c s']; [done|].
  destruct (class_has negate items c); [|done].
  do 2 f_equal. replace (length (c :: s') - length s')%nat with 1%nat by (simpl; lia).
  done.
Qed.

Lemma scan_nil ic r gap :
  scan ic r [] 0 gap
  = match match_here ic r [] with Some m => ([(gap, m)], []) | None => ([], gap) end.
Proof. done. Qed.

Lemma scan_cons ic r c s gap :
  scan ic r (c :: s) 0 gap
  = match match_here ic r (c :: s) with
    | Some m =>
        let n := length (m_whole m) in
        let '(ms, tl) := scan ic r s (n - 1) (if (n =? 0)%nat then [c] else []) in
        ((gap, m) :: ms, tl)
    | None => scan ic r s 0 (gap ++ [c])
    end.
Proof. done. Qed.

Lemma scan_class ic negate items repl : ∀ s gap ms tl,
  scan ic (In negate items) s 0 gap = (ms, tl) →
  concat (map (fun gm => gm.1 ++ repl) ms) ++ tl
  = gap ++ flat_map (fun c => if class_has negate items c then repl else [c]) s.
Proof.
  induction s as [|c s IH]; intros gap ms tl H.
  - rewrite scan_nil, match_here_class in H. injection H as <- <-. simpl.
    by rewrite app_nil_r.
  - rewrite scan_cons, match_here_class in H.
    destruct (class_has negate items c) eqn:Hc.
    + simpl in H. destruct (scan ic (In negate items) s 0 []) as [ms' tl'] eqn:Hs.
      injection H as <- <-. simpl. rewrite Hc.
      rewrite <- !app_assoc. f_equal. f_equal. by rewrite (IH [] ms' tl' Hs).
    + apply IH in H. rewrite H. simpl. rewrite Hc. by rewrite <- app_assoc.
Qed.

Lemma sanitize_is_map name :
  re_sub_str false unsafe_name_chars (lit "_") name = map sanitize_char name.
Proof.
  unfold re_sub_str, re_sub, unsafe_name_chars.
  destruct (scan false _ name 0 []) as [ms tl] eqn:H.
  rewrite (scan_class false _ _ (lit "_") name [] ms tl H). clear H.
  rewrite app_nil_l.
  induction name as [|c name IH]; [done|]. cbn [flat_map map]. rewrite IH.
  unfold sanitize_char at 2. by destruct (class_has _ _ c).
Qed.

(** ** The last path segment *)

Lemma split_on_nonempty sep s : split_on sep s ≠ [].
Proof.
  destruct s as [|c s]; simpl; [done|].
  destruct (c =? sep); [done|]. by destruct (split_on sep s).
Qed.

Lemma after_last_nil sep s :
  after_last sep s = [] → s = [] ∨ List.last s 0 = sep.
Proof.
  unfold after_last. induction s as [|c s IH]; [by left|]. intros H. right.
  simpl in H. destruct (Z.eqb_spec c sep) as [->|Hne].
  - destruct (split_on sep s) as [|p ps] eqn:E; [by apply split_on_nonempty in E|].
    destruct (IH H) as [->|Hl]; [done|].
    destruct s; [done|]. exact Hl.
  - destruct (split_on sep s) as [|p ps] eqn:E; [by apply split_on_nonempty in E|].
    destruct ps as [|q ps]; [done|].
    destruct (IH H) as [->|Hl]; [done|].
    destruct s; [done|]. exact Hl.
Qed.

Lemma split_on_singleton_nil sep s : split_on sep s = [[]] → s = [].
Proof.
  destruct s as [|c s]; [done|]. simpl.
  destruct (c =? sep).
  - intros [= H]. by apply split_on_nonempty in H.
  - destruct (split_on sep s); done.
Qed.

Lemma decode_replace_nil bs : decode_replace bs = [] → bs = [].
Proof.
  destruct bs as [|b t1]; [done|]. simpl.
  repeat match goal with
         | |- context [if ?c then _ else _] => destruct c
         | |- context [match ?t with [] => _ | _ :: _ => _ end] => destruct t
         end; done.
Qed.

Lemma unquote_to_bytes_nil s : unquote_to_bytes s = [] → s = [].
Proof.
  unfold unquote_to_bytes.
  destruct (split_on 37 s) as [|first items] eqn:E; [done|].
  intros H. apply app_eq_nil in H as [-> H].
  destruct items as [|item items].
  - by apply split_on_singleton_nil in E.
  - simpl in H. apply app_eq_nil in H as [H _].
    unfold unquote_item in H.
    destruct item as [|a [|b rest]]; try done.
    by destruct (is_hex_digit a && is_hex_digit b).
Qed.

Lemma unquote_runs_nil s : ∀ run, unquote_runs s run = [] → s = [] ∧ run = [].
Proof.
  induction s as [|c s IH]; intros run H; simpl in H.
  - split; [done|]. by apply unquote_to_bytes_nil, decode_replace_nil.
  - destruct (is_ascii c).
    + apply IH in H as [_ H]. by destruct run.
    + apply app_eq_nil in H as [_ H]. done.
Qed.

Lemma unquote_nil s : unquote s = [] → s = [].
Proof.
  unfold unquote. destruct (negb (contains 37 s)); [done|].
  intros H. by apply unquote_runs_nil in H as [-> _].
Qed.

Lemma image_ext_last ext :
  image_ext ext → ∃ pre c, ext = pre ++ [c] ∧ c ≠ 47 ∧ c ≠ 10.
Proof.
  assert (Hg : ∀ c, lit_matches true 103 c = true → c ≠ 47 ∧ c ≠ 10).
  { intros c H. unfold lit_matches in H.
    match type of H with context [ignorecase_variants ?p] =>
      let v := eval vm_compute in (ignorecase_variants p) in
      change (ignorecase_variants p) with v in H end.
    simpl in H. rewrite orb_false_r, orb_true_iff, !Z.eqb_eq in H. lia. }
  assert (Hf : ∀ c, lit_matches true 102 c = true → c ≠ 47 ∧ c ≠ 10).
  { intros c H. unfold lit_matches in H.
    match type of H with context [ignorecase_variants ?p] =>
      let v := eval vm_compute in (ignorecase_variants p) in
      change (ignorecase_variants p) with v in H end.
    simpl in H. rewrite orb_false_r, orb_true_iff, !Z.eqb_eq in H. lia. }
  unfold image_ext, ci_eq.
  intros [H|[H|[H|H]]];
    repeat match goal with
           | H : Forall2 _ (lit _) _ |- _ => inversion H; clear H; subst
           | H : Forall2 _ (_ :: _) _ |- _ => inversion H; clear H; subst
           | H : Forall2 _ [] _ |- _ => inversion H; clear H; subst
           end.
  - exists [y; y0], y1. split; [done|]. by apply Hg.
  - exists [y; y0], y1. split; [done|]. by apply Hg.
  - exists [y; y0; y1], y2. split; [done|]. by apply Hg.
  - exists [y; y0], y1. split; [done|]. by apply Hf.
Qed.

Lemma ext_pattern_inv w rest g g' :
  matches true ext_pattern w rest g g' →
  ∃ ext, w = lit "." ++ ext ∧ g' = Some ext ∧ image_ext ext ∧ at_end rest = true.
Proof.
  unfold ext_pattern. intros H.
  apply matches_Cat_inv in H as (w1 & ? & g1 & -> & H1 & H).
  apply matches_Lit_inv in H1 as (c & -> & -> & Hc).
  apply lit_matches_exact in Hc as ->; [|done].
  apply matches_Cat_inv in H as (ext & ? & g2 & -> & H2 & H).
  apply matches_Group_inv in H2 as [-> [g3 H2]].
  apply image_exts_inv in H2 as [-> Hext].
  apply matches_AtEnd_inv in H as (-> & -> & Hend).
  exists ext. rewrite app_nil_r in *. done.
Qed.

Lemma re_search_sound ic r text m :
  re_search ic r text = Some m →
  ∃ before, text = before ++ m_whole m ++ m_rest m
            ∧ matches ic r (m_whole m) (m_rest m) None (m_group1 m).
Proof.
  unfold re_search, finditer. intros H.
  destruct (scan ic r text 0 []) as [ms tl] eqn:E. simpl in H.
  destruct ms as [|gm ms]; [done|]. simpl in H. injection H as <-.
  destruct (scan_sound ic r text 0 [] gm) as (before & Ht & Hm).
  { rewrite E. simpl. by left. }
  exists before. split; [done|]. by apply match_here_sound in Hm as [_ Hm].
Qed.

(** A path whose last segment is empty does not end with an extension. *)
Lemma ext_search_fails path :
  path = [] ∨ List.last path 0 = 47 → re_search true ext_pattern path = None.
Proof.
  intros Hpath. destruct (re_search true ext_pattern path) as [m|] eqn:H; [|done].
  exfalso. apply re_search_sound in H as (before & Ht & Hm).
  apply ext_pattern_inv in Hm as (ext & Hw & _ & Hext & Hend).
  apply image_ext_last in Hext as (pre & c & -> & Hc1 & Hc2).
  rewrite Hw in Ht.
  destruct Hpath as [->|Hlast]; [by destruct before|].
  destruct (m_rest m) as [|c' [|? ?]]; [| |done].
  - rewrite app_nil_r in Ht. rewrite Ht in Hlast.
    rewrite !app_assoc in Hlast. rewrite last_last in Hlast. done.
  - simpl in Hend. apply Z.eqb_eq in Hend as ->.
    rewrite Ht in Hlast. rewrite !app_assoc in Hlast. rewrite last_last in Hlast. done.
Qed.

Lemma no_image_ext_suffix path ext :
  path = [] ∨ List.last path 0 = 47 → image_ext ext → ¬ (lit "." ++ ext) `suffix_of` path.
Proof.
  intros Hpath Hext [before Hs].
  apply image_ext_last in Hext as (pre & c & -> & Hc & _).
  destruct Hpath as [->|Hlast]; [by destruct before|].
  rewrite Hs, !app_assoc, last_last in Hlast. done.
Qed.

Lemma hex_digit_safe v : 0 ≤ v < 16 → sanitize_char (hex_digit v) = hex_digit v.
Proof.
  intros H.
  assert (Hc : v = 0 ∨ v = 1 ∨ v = 2 ∨ v = 3 ∨ v = 4 ∨ v = 5 ∨ v = 6 ∨ v = 7 ∨ v = 8
               ∨ v = 9 ∨ v = 10 ∨ v = 11 ∨ v = 12 ∨ v = 13 ∨ v = 14 ∨ v = 15) by lia.
  repeat destruct Hc as [->|Hc]; try reflexivity. subst. reflexivity.
Qed.

Lemma hex_word_safe w : map sanitize_char (hex_word w) = hex_word w.
Proof.
  unfold hex_word. rewrite map_map. apply map_ext. intros i.
  apply hex_digit_safe. change 15 with (Z.ones 4). rewrite Z.land_ones by lia.
  apply Z.mod_pos_bound. lia.
Qed.

Lemma sha1_hexdigest_safe data n :
  map sanitize_char (take n (sha1_hexdigest data)) = take n (sha1_hexdigest data).
Proof.
  unfold sha1_hexdigest.
  destruct (sha1_blocks _ _ _) as [[[[h0 h1] h2] h3] h4].
  rewrite <- firstn_map. f_equal.
  rewrite !map_app, !hex_word_safe. done.
Qed.

(** ** The replacement inside a match *)

Lemma starts_with_app old s : starts_with old (old ++ s) = true.
Proof. induction old as [|a old IH]; simpl; [done|]. by rewrite Z.eqb_refl. Qed.

Lemma replace_scan_skip old new l s :
  replace_scan old new (l ++ s) (length l) = replace_scan old new s 0.
Proof.
  induction l as [|c l IH]; simpl; [|done].
  destruct s; done.
Qed.

(** An occurrence at the start is replaced, and the scan goes on after it. *)
Lemma replace_scan_here old new s :
  old ≠ [] → replace_scan old new (old ++ s) 0 = new ++ replace_scan old new s 0.
Proof.
  intros Hne. destruct old as [|a old]; [done|].
  change ((a :: old) ++ s) with (a :: (old ++ s)).
  cbn [replace_scan]. change (a :: (old ++ s)) with ((a :: old) ++ s).
  rewrite starts_with_app. f_equal.
  replace (length (a :: old) - 1)%nat with (length old) by (simpl; lia).
  apply replace_scan_skip.
Qed.

(** Characters other than the first of [old] are passed unchanged. *)
Lemma replace_scan_pass a old new pre s :
  Forall (fun c => c ≠ a) pre →
  replace_scan (a :: old) new (pre ++ s) 0 = pre ++ replace_scan (a :: old) new s 0.
Proof.
  induction 1 as [|c pre Hc _ IH]; [done|].
  change ((c :: pre) ++ s) with (c :: (pre ++ s)).
  cbn [replace_scan starts_with].
  destruct (Z.eqb_spec a c) as [->|_]; [done|]. simpl. by rewrite IH.
Qed.


Lemma starts_with_true old s : starts_with old s = true → ∃ b, s = old ++ b.
Proof.
  revert s. induction old as [|a old IH]; intros s H; [by exists s|].
  destruct s as [|c s]; [done|]. simpl in H.
  apply andb_true_iff in H as [Hc H]. apply Z.eqb_eq in Hc as ->.
  apply IH in H as [b ->]. by exists b.
Qed.

Lemma replace_scan_absent old new s :
  old ≠ [] → ¬ occurs old s → replace_scan old new s 0 = s.
Proof.
  intros Hne. induction s as [|c s IH]; intros Hocc; [done|].
  cbn [replace_scan].
  destruct (starts_with old (c :: s)) eqn:Hs.
  - exfalso. apply Hocc. apply starts_with_true in Hs as [b ->]. by exists [], b.
  - f_equal. apply IH. intros (a & b & ->). apply Hocc. by exists (c :: a), b.
Qed.

(** What [repl] returns for a match of the link pattern: the opening
    and the blanks, the new URL in place of the captured one, and the
    rest of the match, in which [str.replace] rewrites any further
    occurrence of the captured URL; when there is none, the rest is
    unchanged. *)
Lemma repl_of_match server_path s m n :
  match_here true link_pattern s = Some m →
  safe_basename_from_url (group1 m) = Ok n →
  ∃ ws tail,
    m_whole m = lit "](" ++ ws ++ group1 m ++ tail ++ lit ")"
    ∧ repl server_path m
      = Ok (lit "](" ++ ws ++ (server_path ++ n)
              ++ str_replace (tail ++ lit ")") (group1 m) (server_path ++ n))
    ∧ (¬ occurs (group1 m) (tail ++ lit ")") →
       repl server_path m = Ok (lit "](" ++ ws ++ (server_path ++ n) ++ tail ++ lit ")")).
Proof.
  intros Hm Hn.
  apply match_here_sound in Hm as [_ Hm].
  apply link_pattern_inv in Hm as (ws & url & tail & Hwhole & Hg & Hws & Hshape & _).
  assert (Hu : group1 m = url) by (unfold group1; by rewrite Hg).
  rewrite Hu in *. exists ws, tail. split; [done|].
  destruct Hshape as (scheme & body & ext & Hurl & Hscheme & _).
  assert (Hfirst : ∃ h rest, url = h :: rest ∧ (h = 104 ∨ h = 72)) .
  { assert (∃ h sch, scheme = h :: sch ∧ lit_matches true 104 h = true) as (h & sch & -> & Hh).
    { destruct Hscheme as [H|H]; inversion H; subst; eauto. }
    exists h, (sch ++ lit "://" ++ body ++ lit "." ++ ext). split; [by rewrite Hurl|].
    unfold lit_matches in Hh.
    change (ignorecase_variants 104) with [104; 72] in Hh. simpl in Hh.
    rewrite orb_false_r, orb_true_iff, !Z.eqb_eq in Hh. done. }
  destruct Hfirst as (h & rest & Hhr & Hh).
  assert (Hrepl : ∀ new, str_replace (m_whole m) url new
            = lit "](" ++ ws ++ new ++ str_replace (tail ++ lit ")") url new).
  { intros new. rewrite Hwhole. unfold str_replace. rewrite Hhr.
    rewrite (app_assoc (lit "](") ws).
    rewrite replace_scan_pass.
    - rewrite <- app_assoc. f_equal. f_equal. by rewrite replace_scan_here.
    - apply Forall_app. split.
      + repeat constructor; destruct Hh as [-> | ->]; done.
      + eapply Forall_impl; [exact Hws|]. intros c Hc ->.
        destruct Hh as [-> | ->]; done. }
  unfold repl. rewrite Hu, Hn. simpl. rewrite Hrepl. split; [done|].
  intros Hocc. unfold str_replace. rewrite Hhr in *.
  by rewrite replace_scan_absent.
Qed.

(** ** The request URL and the captured URL *)

Lemma split_on_hd sep s : hd [] (split_on sep s) = (partition_on sep s).1.1.
Proof.
  induction s as [|c s IH]; [done|]. simpl.
  destruct (c =? sep); [done|].
  destruct (split_on sep s) as [|p ps] eqn:E; [by apply split_on_nonempty in E|].
  destruct (partition_on sep s) as [[a f] b]. simpl in *. by rewrite IH.
Qed.

Lemma before_hash_cons c s :
  before_hash (c :: s) = if c =? 35 then [] else c :: before_hash s.
Proof.
  unfold before_hash. simpl. destruct (c =? 35); [done|].
  by destruct (partition_on 35 s) as [[a f] b].
Qed.

Lemma partition_before_hash s : partition_on 35 (before_hash s) = (before_hash s, false, []).
Proof.
  induction s as [|c s IH]; [done|]. rewrite before_hash_cons.
  destruct (c =? 35) eqn:E; [done|]. simpl. by rewrite E, IH.
Qed.

Lemma partition_fst s : (partition_on 35 s).1.1 = before_hash s.
Proof. done. Qed.

Lemma lstrip_before_hash s :
  lstrip c0_control_or_space (before_hash s) = before_hash (lstrip c0_control_or_space s).
Proof.
  induction s as [|c s IH]; [done|]. rewrite before_hash_cons. simpl.
  destruct (Z.eqb_spec c 35) as [->|Hne]; [done|]. simpl.
  destruct (c0_control_or_space c); [done|]. rewrite before_hash_cons.
  by destruct (Z.eqb_spec c 35).
Qed.

Lemma remove_unsafe_before_hash s :
  remove_unsafe (before_hash s) = before_hash (remove_unsafe s).
Proof.
  induction s as [|c s IH]; [done|]. rewrite before_hash_cons. simpl.
  destruct (Z.eqb_spec c 35) as [->|Hne]; [done|]. simpl.
  destruct (unsafe_url_char c); [done|]. rewrite before_hash_cons, IH.
  by destruct (Z.eqb_spec c 35).
Qed.

Lemma partition_colon_before_hash t :
  partition_on 58 (before_hash t)
  = let '(b, f, a) := partition_on 58 t in
    if contains 35 b then (before_hash t, false, []) else (b, f, before_hash a).
Proof.
  induction t as [|c t IH]; [done|]. rewrite before_hash_cons. simpl.
  destruct (Z.eqb_spec c 58) as [->|Hc].
  - simpl. done.
  - destruct (Z.eqb_spec c 35) as [->|Hh].
    + destruct (partition_on 58 t) as [[b f] a]. unfold contains. simpl. done.
    + cbn [partition_on]. destruct (Z.eqb_spec c 58); [lia|]. rewrite IH.
      destruct (partition_on 58 t) as [[b f] a].
      change (contains 35 (c :: b)) with ((35 =? c) || contains 35 b).
      destruct (Z.eqb_spec 35 c); [lia|]. cbn [orb].
      by destruct (contains 35 b).
Qed.

Lemma scheme_char_no_hash b : contains 35 b = true → forallb scheme_char b = false.
Proof.
  induction b as [|c b IH]; [intros H; discriminate H|].
  change (contains 35 (c :: b)) with ((35 =? c) || contains 35 b).
  cbn [forallb]. destruct (Z.eqb_spec 35 c) as [<-|_]; [done|].
  cbn [orb]. intros H. rewrite IH by done. apply andb_false_r.
Qed.

Lemma split_scheme_before_hash t :
  split_scheme (before_hash t)
  = let '(scheme, url) := split_scheme t in (scheme, before_hash url).
Proof.
  unfold split_scheme. rewrite partition_colon_before_hash.
  destruct (partition_on 58 t) as [[b f] a].
  destruct (contains 35 b) eqn:Hb.
  - destruct f; [|done]. destruct b as [|c b]; [done|].
    by rewrite (scheme_char_no_hash _ Hb), andb_false_r.
  - destruct f; [|done]. destruct b as [|c b]; [done|].
    by destruct (is_ascii_alpha c && forallb scheme_char (c :: b)).
Qed.

Lemma span_netloc_before_hash r :
  span_until netloc_delim (before_hash r)
  = let '(n, x) := span_until netloc_delim r in (n, before_hash x).
Proof.
  induction r as [|c r IH]; [done|]. rewrite before_hash_cons. simpl.
  destruct (Z.eqb_spec c 35) as [->|Hh]; [done|]. simpl.
  destruct (netloc_delim c) eqn:Hd.
  - rewrite before_hash_cons. by destruct (Z.eqb_spec c 35).
  - rewrite IH. by destruct (span_until netloc_delim r).
Qed.

Lemma slashes_before_hash t :
  starts_with (lit "//") (before_hash t) = starts_with (lit "//") t
  ∧ (starts_with (lit "//") t = true → drop 2 (before_hash t) = before_hash (drop 2 t)).
Proof.
  destruct t as [|c1 t]; [done|]. rewrite before_hash_cons.
  destruct (Z.eqb_spec c1 35) as [->|H1]; [done|].
  destruct t as [|c2 t]; [done|]. rewrite before_hash_cons.
  destruct (Z.eqb_spec c2 35) as [->|H2].
  - split.
    + change (lit "//") with [47; 47]. cbn [starts_with]. by destruct (47 =? c1).
    + change (lit "//") with [47; 47]. cbn [starts_with].
      destruct (47 =? c1); intros H; discriminate H.
  - done.
Qed.

Lemma split_netloc_before_hash t :
  split_netloc (before_hash t)
  = ('(netloc, url) ← split_netloc t; Ok (netloc, before_hash url)).
Proof.
  unfold split_netloc. destruct (slashes_before_hash t) as [-> Hdrop].
  destruct (starts_with (lit "//") t); [|done].
  rewrite Hdrop by done. rewrite span_netloc_before_hash.
  destruct (span_until netloc_delim (drop 2 t)) as [n x].
  destruct ((contains 91 n && negb (contains 93 n)) || (contains 93 n && negb (contains 91 n)));
    [done|].
  simpl. destruct (contains 91 n && contains 93 n); [|done].
  by destruct (check_bracketed_netloc n).
Qed.

(** The fragment plays no part in the other components. *)
Lemma urlsplit_before_hash s :
  urlsplit (before_hash s)
  = (u ← urlsplit s;
     Ok {| us_scheme := us_scheme u; us_netloc := us_netloc u; us_path := us_path u;
           us_query := us_query u; us_fragment := [] |}).
Proof.
  unfold urlsplit.
  rewrite lstrip_before_hash, remove_unsafe_before_hash, split_scheme_before_hash.
  destruct (split_scheme _) as [scheme url].
  rewrite split_netloc_before_hash.
  destruct (split_netloc url) as [[netloc url']|e]; [|done]. simpl.
  rewrite partition_before_hash.
  destruct (partition_on 35 url') as [[u1 f1] frag] eqn:E.
  assert (before_hash url' = u1) as -> by (unfold before_hash; by rewrite E).
  destruct (partition_on 63 u1) as [[u2 f2] q].
  by destruct (checknetloc netloc).
Qed.
Lemma lstrip_no_space s : Forall (fun c => is_space c = false) s → lstrip is_space s = s.
Proof. destruct 1 as [|c s Hc _]; [done|]. simpl. by rewrite Hc. Qed.

Lemma strip_no_space s : Forall (fun c => is_space c = false) s → strip s = s.
Proof.
  intros H. unfold strip, rstrip. rewrite (lstrip_no_space s H).
  rewrite lstrip_no_space; [apply rev_involutive|]. by apply Forall_rev.
Qed.

Lemma before_hash_Forall (P : Z → Prop) s : Forall P s → Forall P (before_hash s).
Proof.
  induction 1 as [|c s Hc _ IH]; [done|]. rewrite before_hash_cons.
  destruct (c =? 35); [constructor|by constructor].
Qed.

Lemma url_for_req_no_space U :
  Forall (fun c => is_space c = false) U → url_for_req U = before_hash U.
Proof.
  intros H. unfold url_for_req. rewrite split_on_hd.
  apply strip_no_space. by apply before_hash_Forall.
Qed.

(** Apart from the hash of the fallback name, the download pass and the
    rewrite pass derive the same name: for a URL without blanks whose
    last path segment is not empty, the name of the request URL is the
    name of the URL itself. *)
Lemma names_agree_without_fallback U :
  Forall (fun c => is_space c = false) U →
  (∀ u, urlsplit U = Ok u → unquote (basename (us_path u)) ≠ []) →
  safe_basename_from_url (url_for_req U) = safe_basename_from_url U.
Proof.
  intros Hsp Hname. rewrite (url_for_req_no_space U Hsp).
  unfold safe_basename_from_url. rewrite urlsplit_before_hash.
  destruct (urlsplit U) as [u|e]; [|done].
  specialize (Hname u eq_refl). cbn [mbind result_bind us_path us_netloc].
  rewrite bool_decide_false by done. done.
Qed.

(** A letter of a pattern never matches a blank. *)
Ltac ci_letter H :=
  unfold lit_matches in H;
  match type of H with context [ignorecase_variants ?p] =>
    let v := eval vm_compute in (ignorecase_variants p) in
    change (ignorecase_variants p) with v in H
  end;
  cbn [existsb] in H; rewrite ?orb_false_r, ?orb_true_iff, ?Z.eqb_eq in H.

Ltac ci_invert :=
  repeat match goal with
         | H : ci_eq _ _ |- _ => unfold ci_eq in H
         | H : Forall2 _ (lit _) _ |- _ => inversion H; clear H; subst
         | H : Forall2 _ (_ :: _) _ |- _ => inversion H; clear H; subst
         | H : Forall2 _ [] _ |- _ => inversion H; clear H; subst
         end.

Lemma image_url_shape_no_space url :
  image_url_shape url → Forall (fun c => is_space c = false) url.
Proof.
  intros (scheme & body & ext & -> & Hscheme & _ & Hbody & Hext).
  assert (Hletter : ∀ p c, p ∈ lit "htpsngjeif" → lit_matches true p c = true →
                           is_space c = false).
  { intros p c Hp H. vm_compute in Hp.
    repeat (apply elem_of_cons in Hp as [->|Hp]);
      [ci_letter H; repeat destruct H as [H|H]; subst; reflexivity..|].
    by apply elem_of_nil in Hp. }
  assert (Hword : ∀ p s, Forall (fun a => a ∈ lit "htpsngjeif") p → ci_eq p s →
                         Forall (fun c => is_space c = false) s).
  { intros p s Hp Hs. revert Hp. induction Hs as [|a c p s Hac _ IH]; [done|].
    intros Hp. inversion Hp; subst. constructor; [by eapply Hletter|by apply IH]. }
  repeat apply Forall_app_2.
  - destruct Hscheme as [H|H]; (eapply Hword; [|exact H]); vm_compute;
      repeat constructor.
  - by repeat constructor.
  - eapply Forall_impl; [exact Hbody|]. by intros c [H _].
  - by repeat constructor.
  - destruct Hext as [H|[H|[H|H]]]; (eapply Hword; [|exact H]); vm_compute;
      repeat constructor.
Qed.

Lemma capture_has_shape text url : url ∈ captures text → image_url_shape url.
Proof.
  unfold captures, finditer. intros Hin.
  apply list_elem_of_fmap in Hin as (m & -> & Hin).
  apply list_elem_of_fmap in Hin as (gm & -> & Hin).
  apply scan_sound in Hin as (_ & _ & Hm).
  apply match_here_sound in Hm as [_ Hm].
  apply link_pattern_inv in Hm as (_ & url & _ & _ & Hg & _ & Hshape & _).
  unfold group1. by rewrite Hg.
Qed.

(** For the URLs of a document, the two passes agree except in the
    fallback branch. *)
Lemma extracted_names_agree text url :
  url ∈ extract_image_urls text →
  (∀ u, urlsplit url = Ok u → unquote (basename (us_path u)) ≠ []) →
  safe_basename_from_url (url_for_req url) = safe_basename_from_url url.
Proof.
  intros Hin. rewrite extract_image_urls_first_occurrences in Hin.
  apply first_occurrences_elem in Hin as [Hin _].
  apply capture_has_shape, image_url_shape_no_space in Hin.
  by apply names_agree_without_fallback.
Qed.

(** None of the three patterns matches the empty string. *)
Lemma patterns_match_nonempty ic w rest g g' :
  matches true link_pattern w rest g g'
  ∨ matches true ext_pattern w rest g g'
  ∨ matches ic unsafe_name_chars w rest g g' →
  w ≠ [].
Proof.
  intros [H|[H|H]].
  - apply link_pattern_inv in H as (ws & url & tail & -> & _). done.
  - apply ext_pattern_inv in H as (ext & -> & _). done.
  - inversion H; subst. done.
Qed.

(** ** File names and URLs: statements *)

(** C8 (as amended). For every URL that [urlsplit] accepts, whose
    percent-decoded last path segment is empty and which can be encoded
    in UTF-8, [safe_basename_from_url] returns the netloc, with its
    colons and every other character unsafe in a file name replaced by
    an underscore, followed by an underscore, the first twelve
    hexadecimal digits of the SHA-1 of the URL, and the extension; the
    extension is [.img], for the path of such a URL never ends with one
    of the image extensions. *)
Theorem fallback_name_shape (url : str) (u : SplitResult) (data : list Z) :
  urlsplit url = Ok u →
  unquote (basename (us_path u)) = [] →
  encode url = Ok data →
  safe_basename_from_url url
  = Ok (map sanitize_char (replace_char 58 95 (us_netloc u))
          ++ lit "_" ++ take 12 (sha1_hexdigest data) ++ lit ".img")
  ∧ ∀ ext, image_ext ext → ¬ (lit "." ++ ext) `suffix_of` us_path u.
Proof.
  intros Hsplit Hname Hdata.
  assert (Hpath : us_path u = [] ∨ List.last (us_path u) 0 = 47).
  { apply unquote_nil in Hname. by apply after_last_nil in Hname. }
  split; [|intros ext; by apply no_image_ext_suffix].
  unfold safe_basename_from_url. rewrite Hsplit.
  unfold mbind at 1, result_bind at 1. cbv beta iota zeta.
  rewrite Hname, bool_decide_true by done. rewrite Hdata.
  unfold mbind, result_bind. cbv beta iota zeta.
  rewrite (ext_search_fails _ Hpath), sanitize_is_map, !map_app, sha1_hexdigest_safe.
  done.
Qed.

Lemma fallback_name_shape_witness :
  safe_basename_from_url (lit "https://img.example.com/assets/")
  = Ok (lit "img.example.com_db96cfba34a3.img").
Proof.
  destruct (fallback_name_shape (lit "https://img.example.com/assets/")
              {| us_scheme := lit "https"; us_netloc := lit "img.example.com";
                 us_path := lit "/assets/"; us_query := []; us_fragment := [] |}
              (lit "https://img.example.com/assets/")) as [H _];
    [vm_compute; reflexivity..|].
  etrans; [exact H|]. vm_compute. reflexivity.
Defined.

(** C8 (as stated) fails for a netloc with a character that is unsafe in
    a file name: the star of [a*b] is replaced as well. *)
Lemma fallback_name_is_sanitized :
  ∃ u data,
    urlsplit (lit "http://a*b/") = Ok u
    ∧ unquote (basename (us_path u)) = []
    ∧ encode (lit "http://a*b/") = Ok data
    ∧ safe_basename_from_url (lit "http://a*b/") = Ok (lit "a_b_e9c9a6464ef6.img")
    ∧ unsanitized_fallback_name u data (lit ".img") = lit "a*b_e9c9a6464ef6.img"
    ∧ safe_basename_from_url (lit "http://a*b/")
      ≠ Ok (unsanitized_fallback_name u data (lit ".img")).
Proof.
  eexists _, _. split; [vm_compute; reflexivity|].
  split; [vm_compute; reflexivity|]. split; [vm_compute; reflexivity|].
  split; [vm_compute; reflexivity|]. split; [vm_compute; reflexivity|].
  intros H. vm_compute in H. congruence.
Qed.

(** C1: the code at the failing input.  The URL extracted from the
    document has a fragment and an empty last path segment; the
    download pass names the file after the request URL, the rewrite
    pass after the captured URL, and the two names differ. *)
Lemma download_and_rewrite_names_differ :
  extract_image_urls doc_fragment_only = [lit "https://example.com/gallery/#photo.png"]
  ∧ url_for_req (lit "https://example.com/gallery/#photo.png")
    = lit "https://example.com/gallery/"
  ∧ safe_basename_from_url (url_for_req (lit "https://example.com/gallery/#photo.png"))
    = Ok (lit "example.com_cb3c2d5676a1.img")
  ∧ safe_basename_from_url (lit "https://example.com/gallery/#photo.png")
    = Ok (lit "example.com_f009d0fc635c.img")
  ∧ safe_basename_from_url (url_for_req (lit "https://example.com/gallery/#photo.png"))
    ≠ safe_basename_from_url (lit "https://example.com/gallery/#photo.png")
  ∧ new_md doc_fragment_only cdn
    = Ok (lit "![x](https://cdn.x.com/d/example.com_f009d0fc635c.img)")
  ∧ ∃ w',
      img_download_batch (fun _ => sample_env None no_fault)
        (extract_image_urls doc_fragment_only) IMAGES_DIR empty_world
      = (Ok [(lit "https://example.com/gallery/#photo.png", true,
              MsgDownloaded (lit "example.com_cb3c2d5676a1.img"))], w')
      ∧ files w' = {[ lit "images/example.com_cb3c2d5676a1.img" := [1; 2; 3; 4; 5] ]}.
Proof.
  split; [vm_compute; reflexivity|]. split; [vm_compute; reflexivity|].
  split; [vm_compute; reflexivity|]. split; [vm_compute; reflexivity|].
  split; [intros H; vm_compute in H; congruence|].
  split; [vm_compute; reflexivity|].
  exists (img_download_batch (fun _ => sample_env None no_fault)
            (extract_image_urls doc_fragment_only) IMAGES_DIR empty_world).2.
  split; vm_compute; reflexivity.
Qed.

(** C2: the code at the failing input.  The captured URL occurs a
    second time in the query of the link, and [str.replace] rewrites
    that occurrence too. *)
Lemma new_md_rewrites_url_inside_query :
  map (fun m => (m_whole m, group1 m)) (finditer true link_pattern doc_url_in_query)
  = [(lit "](http://a.com/p.png?src=http://a.com/p.png)", lit "http://a.com/p.png")]
  ∧ new_md doc_url_in_query cdn
    = Ok (lit "![x](https://cdn.x.com/d/p.png?src=https://cdn.x.com/d/p.png)")
  ∧ new_md doc_url_in_query cdn
    ≠ Ok (lit "![x](https://cdn.x.com/d/p.png?src=http://a.com/p.png)").
Proof.
  split; [vm_compute; reflexivity|]. split; [vm_compute; reflexivity|].
  intros H. vm_compute in H. congruence.
Qed.

(** The example of the specification. *)
Example new_md_spec_example :
  extract_image_urls doc_spec_example = [lit "https://a.com/img/pic.png"]
  ∧ safe_basename_from_url (lit "https://a.com/img/pic.png") = Ok (lit "pic.png")
  ∧ new_md doc_spec_example cdn = Ok (lit "![x](https://cdn.x.com/d/pic.png?v=2)").
Proof. repeat split; vm_compute; reflexivity. Qed.

(** C3 (as stated) fails: the extension that ends the captured URL may
    lie in the query, the path being [/x]. *)
Lemma extracted_url_path_without_extension :
  ∃ url u,
    url ∈ extract_image_urls doc_ext_in_query
    ∧ url = lit "http://a.com/x?y=b.png"
    ∧ urlsplit url = Ok u ∧ us_path u = lit "/x"
    ∧ url_path_has_image_ext url = false.
Proof.
  exists (lit "http://a.com/x?y=b.png"). eexists.
  split; [|split; [done|split; [vm_compute; reflexivity|split; vm_compute; reflexivity]]].
  replace (extract_image_urls doc_ext_in_query) with [lit "http://a.com/x?y=b.png"]
    by (vm_compute; reflexivity).
  by apply list_elem_of_singleton.
Qed.

(** C3 (as amended). Every URL returned by [extract_image_urls] is
    [http] or [https], [://], a non-empty run without blank or closing
    parenthesis, a dot and one of the extensions [png], [jpg], [jpeg],
    [gif], letters being compared as [re.IGNORECASE] compares them; it
    stands in the text after [](] and blanks, and the characters after
    the extension up to the closing parenthesis belong to the match but
    not to the captured URL. *)
Theorem extracted_url_shape (text url : str) :
  url ∈ extract_image_urls text →
  image_url_shape url
  ∧ ∃ before ws tail after,
      text = before ++ lit "](" ++ ws ++ url ++ tail ++ lit ")" ++ after
      ∧ Forall (fun c => is_space c = true) ws
      ∧ Forall (fun c => c ≠ ch ")") tail
      ∧ match_here true link_pattern (lit "](" ++ ws ++ url ++ tail ++ lit ")" ++ after)
        = Some {| m_whole := lit "](" ++ ws ++ url ++ tail ++ lit ")";
                  m_group1 := Some url; m_rest := after |}.
Proof.
  intros Hin.
  rewrite extract_image_urls_first_occurrences in Hin.
  apply first_occurrences_elem in Hin as [Hin _].
  unfold captures, finditer in Hin.
  apply list_elem_of_fmap in Hin as (m & -> & Hin).
  apply list_elem_of_fmap in Hin as (gm & -> & Hin).
  apply scan_sound in Hin as (before & Htext & Hm).
  pose proof (match_here_sound _ _ _ _ Hm) as [_ Hmatch].
  apply link_pattern_inv in Hmatch as (ws & url & tail & Hwhole & Hg & Hws & Hshape & Htail).
  assert (Hu : group1 gm.2 = url) by (unfold group1; by rewrite Hg).
  rewrite Hu. split; [done|].
  exists before, ws, tail, (m_rest gm.2).
  rewrite Hwhole in Htext, Hm. rewrite <- !app_assoc in Htext, Hm.
  split; [done|]. split; [done|]. split; [done|].
  rewrite Hm. f_equal. destruct gm as [gap [whole g rest]]. simpl in *. by subst.
Qed.

Lemma extracted_url_shape_witness :
  image_url_shape (lit "http://a.com/x?y=b.png").
Proof.
  apply (extracted_url_shape doc_ext_in_query (lit "http://a.com/x?y=b.png")).
  replace (extract_image_urls doc_ext_in_query) with [lit "http://a.com/x?y=b.png"]
    by (vm_compute; reflexivity).
  by apply list_elem_of_singleton.
Defined.

(** ** The fetch: the state monad and the trace *)

Section MonadLemmas.
Context {A B : Type}.

Lemma extends_ret (a : A) : extends (mret a : M A).
Proof. intros w r w' [= <- <-]. exists []. by rewrite app_nil_r. Qed.

Lemma extends_lift (r : result A) : extends (lift r).
Proof. intros w r' w' [= <- <-]. exists []. by rewrite app_nil_r. Qed.

Lemma extends_raise (e : exn) : extends (raise e : M A).
Proof. intros w r' w' [= <- <-]. exists []. by rewrite app_nil_r. Qed.

Lemma extends_bind (m : M A) (f : A → M B) :
  extends m → (∀ a, extends (f a)) → extends (m ≫= f).
Proof.
  intros Hm Hf w r w' H. unfold mbind, M_bind in H.
  destruct (m w) as [[a|e] w1] eqn:E; apply Hm in E as [l1 E].
  - apply Hf in H as [l2 H]. exists (l1 ++ l2). by rewrite H, E, app_assoc.
  - injection H as <- <-. eauto.
Qed.

Lemma extends_try (m : M A) (h : exn → M A) :
  extends m → (∀ e, extends (h e)) → extends (try_except m h).
Proof.
  intros Hm Hh w r w' H. unfold try_except in H.
  destruct (m w) as [[a|e] w1] eqn:E; apply Hm in E as [l1 E].
  - injection H as <- <-. eauto.
  - apply Hh in H as [l2 H]. exists (l1 ++ l2). by rewrite H, E, app_assoc.
Qed.

Lemma extends_closing (close : M unit) (m : M A) :
  extends close → extends m → extends (closing close m).
Proof.
  intros Hc Hm w r w' H. unfold closing in H.
  destruct (m w) as [r1 w1] eqn:E. apply Hm in E as [l1 E].
  destruct (close w1) as [[[]|e] w2] eqn:E2; apply Hc in E2 as [l2 E2];
    injection H as <- <-; exists (l1 ++ l2); by rewrite E2, E, app_assoc.
Qed.
End MonadLemmas.

Lemma extends_record ev : extends (record ev).
Proof. intros w r w' [= <- <-]. by exists [ev]. Qed.

Lemma extends_may_fail E s : extends (may_fail E s).
Proof.
  intros w r w'. unfold may_fail. destruct (fault E s); intros [= <- <-];
    exists []; by rewrite app_nil_r.
Qed.

Lemma extends_get_files : extends get_files.
Proof. intros w r w' [= <- <-]. exists []. by rewrite app_nil_r. Qed.

Lemma extends_put_files f : extends (put_files f).
Proof. intros w r w' [= <- <-]. exists []. simpl. by rewrite app_nil_r. Qed.

Create HintDb extends_db.
#[local] Hint Resolve extends_ret extends_lift extends_raise extends_record
  extends_may_fail extends_get_files extends_put_files : extends_db.

(** Programs built from the primitives with bind, try and with. *)
Ltac solve_extends :=
  repeat first
    [ progress intros
    | apply extends_bind | apply extends_try | apply extends_closing
    | solve [auto with extends_db]
    | match goal with |- extends (match ?x with _ => _ end) => destruct x end
    | match goal with |- extends (if ?x then _ else _) => destruct x end ].

Lemma extends_write_chunks E temp chunks : ∀ i total,
  extends (write_chunks E temp chunks i total).
Proof.
  induction chunks as [|c chunks IH]; intros i total; simpl.
  - solve_extends.
  - apply extends_bind; [apply extends_may_fail|]. intros _.
    apply extends_bind; [|intros; apply IH].
    unfold file_write. solve_extends.
Qed.

#[local] Hint Resolve extends_write_chunks : extends_db.


(** ** The paths of download_with_resume *)

Lemma probe_content_length_eq E url w :
  probe_content_length E url w = (Ok (probed_size E), emit (EvHead url) w).
Proof.
  unfold probe_content_length, probed_size, try_except, session_head, mbind, M_bind,
    record, may_fail, lift, mret, M_ret.
  destruct (fault E StHead); [done|].
  destruct (status_code (head_response E) =? 200); [|done].
  destruct (read_content_length _) as [n|e]; done.
Qed.

Lemma skip_path E url dest_dir w safe_name data expected :
  safe_basename_from_url url = Ok safe_name →
  files w !! path_join dest_dir safe_name = Some data →
  probed_size E = Some expected →
  fault E StGetsize = None →
  Z.of_nat (length data) = expected →
  download_with_resume E url dest_dir w
  = (Ok (true, MsgSkip safe_name), emit (EvHead url) w).
Proof.
  intros Hname Hfile Hprobe Hfault Hsize.
  unfold download_with_resume, try_except. unfold mbind at 1, M_bind at 1.
  unfold lift at 1. rewrite Hname. unfold mbind at 1, M_bind at 1.
  rewrite probe_content_length_eq, Hprobe.
  unfold os_path_exists, os_path_getsize, get_files, may_fail, mbind, M_bind, mret, M_ret.
  simpl. rewrite Hfile, Hfault. simpl. rewrite Hfile. simpl. rewrite Hsize, Z.eqb_refl. done.
Qed.



Lemma download_no_skip E url dest_dir w safe_name :
  safe_basename_from_url url = Ok safe_name →
  size_matches E w (path_join dest_dir safe_name) = false →
  (probed_size E ≠ None → fault E StGetsize = None) →
  download_with_resume E url dest_dir w
  = try_except (streamed_download E url dest_dir safe_name (probed_size E))
      (fun e => mret (false, MsgException e url)) (emit (EvHead url) w).
Proof.
  intros Hname Hsize Hg. unfold size_matches in Hsize.
  unfold download_with_resume, try_except. unfold mbind at 1, M_bind at 1.
  unfold lift at 1. rewrite Hname. unfold mbind at 1, M_bind at 1.
  rewrite probe_content_length_eq.
  unfold os_path_exists, os_path_getsize, get_files, may_fail, mbind, M_bind, mret, M_ret.
  simpl.
  destruct (probed_size E) as [n|]; [|done]. rewrite Hg by done.
  destruct (files w !! path_join dest_dir safe_name) as [data|] eqn:Hf; simpl; [|done].
  rewrite Hf. simpl. rewrite Hsize. done.
Qed.

Lemma write_chunks_ok E temp chunks : ∀ i total w old,
  (∀ j, fault E (StIterContent j) = None) →
  (∀ j, fault E (StWrite j) = None) →
  files w !! temp = Some old →
  ∃ w', write_chunks E temp chunks i total w
        = (Ok (total + Z.of_nat (length (concat chunks))), w')
        ∧ files w' = <[temp := old ++ concat chunks]> (files w)
        ∧ trace w' = trace w ++ chunk_writes temp chunks.
Proof.
  intros i total w old Hi Hw. revert i total w old.
  induction chunks as [|c chunks IH]; intros i total w old Hold; simpl.
  - unfold mbind, M_bind, may_fail, mret, M_ret. rewrite Hi.
    eexists. split; [by rewrite Z.add_0_r|]. rewrite !app_nil_r. by rewrite insert_id.
  - unfold mbind at 1, M_bind at 1. unfold may_fail at 1. rewrite Hi.
    unfold mbind at 1, M_bind at 1. unfold chunk_writes. rewrite filter_cons.
    destruct (bool_decide (c = [])) eqn:Hc.
    + apply bool_decide_eq_true in Hc as ->. unfold mret at 1, M_ret at 1.
      destruct (IH (S i) total w old Hold) as (w' & -> & Hf & Ht).
      rewrite decide_False by (intros H; by apply H). eauto.
    + apply bool_decide_eq_false in Hc. rewrite decide_True by done.
      unfold file_write, record, may_fail, get_files, put_files, mbind, M_bind, mret, M_ret.
      rewrite Hw. simpl. rewrite Hold. simpl.
      edestruct (IH (S i) (total + Z.of_nat (length c))) as (w' & -> & Hf & Ht).
      { simpl. apply lookup_insert_eq. }
      eexists. split; [|split].
      * f_equal. f_equal. rewrite length_app. lia.
      * rewrite Hf. simpl. rewrite insert_insert_eq. by rewrite app_assoc.
      * rewrite Ht. simpl. by rewrite <- app_assoc.
Qed.

Lemma temp_path_fresh (dest_path : str) : dest_path ≠ dest_path ++ lit ".part".
Proof.
  intros H. apply (f_equal length) in H. rewrite length_app in H. simpl in H. lia.
Qed.

(** The streamed download when every call it makes, but for the removal,
    succeeds. *)
Lemma streamed_download_run E url dest_dir safe_name w cl :
  (∀ s, s ≠ StHead → s ≠ StGetsize → s ≠ StRemove → fault E s = None) →
  status_code (get_response E) = 200 →
  expected_size E = Ok cl →
  let dest_path := path_join dest_dir safe_name in
  let temp_path := dest_path ++ lit ".part" in
  let data := concat (body (get_response E)) in
  let total := Z.of_nat (length data) in
  ∃ w', streamed_download E url dest_dir safe_name (probed_size E) w
        = (Ok (match cl with
               | Some expected =>
                   if total =? expected then (true, MsgDownloaded safe_name)
                   else (false, MsgIncomplete total expected safe_name)
               | None => (true, MsgDownloaded safe_name)
               end), w')
     ∧ files w' =
         match cl with
         | Some expected =>
             if total =? expected then <[dest_path := data]> (delete temp_path (files w))
             else match fault E StRemove with
                  | None => delete temp_path (files w)
                  | Some _ => <[temp_path := data]> (files w)
                  end
         | None => <[dest_path := data]> (delete temp_path (files w))
         end
     ∧ trace w' =
         trace w ++ [EvGet url; EvMakedirs dest_dir; EvOpen temp_path]
           ++ chunk_writes temp_path (body (get_response E))
           ++ [match cl with
               | Some expected =>
                   if total =? expected then EvReplace temp_path dest_path
                   else EvRemove temp_path
               | None => EvReplace temp_path dest_path
               end].
Proof.
  intros Hfault Hstatus Hexp dest_path temp_path data total.
  unfold streamed_download, session_get.
  unfold mbind at 1, M_bind at 1. unfold mbind at 1, M_bind at 1.
  unfold record at 1. unfold mbind at 1, M_bind at 1. unfold may_fail at 1.
  rewrite Hfault by done. unfold mret at 1, M_ret at 1.
  rewrite Hstatus. simpl negb. cbv iota.
  unfold closing at 1.
  assert (Hcl : (match probed_size E with
                 | Some n => mret (Some n)
                 | None => lift (read_content_length (content_length_header (get_response E)))
                 end : M (option Z)) = lift (Ok cl)).
  { unfold expected_size in Hexp. destruct (probed_size E); [by injection Hexp as <-|].
    by rewrite Hexp. }
  rewrite Hcl. clear Hcl.
  unfold mbind at 1, M_bind at 1. unfold lift at 1.
  unfold ensure_dir, open_wb.
  unfold mbind at 1, M_bind at 1. unfold mbind at 1, M_bind at 1. unfold record at 1.
  unfold may_fail at 1. rewrite Hfault by done.
  unfold mbind at 1, M_bind at 1.
  unfold mbind at 1, M_bind at 1. unfold mbind at 1, M_bind at 1. unfold record at 1.
  unfold mbind at 1, M_bind at 1. unfold may_fail at 1. rewrite Hfault by done.
  unfold mbind at 1, M_bind at 1. unfold get_files at 1. unfold put_files at 1.
  unfold mbind at 1, M_bind at 1. unfold closing at 1.
  unfold mbind at 1, M_bind at 1.
  match goal with |- context [write_chunks E ?t ?c 0 0 ?w0] =>
    destruct (write_chunks_ok E t c 0%nat 0 w0 [])
      as (w4 & Hrun & Hfiles & Htrace); [by intros; apply Hfault..| |]
  end.
  { simpl. apply lookup_insert_eq. }
  rewrite Hrun. simpl in Hfiles. rewrite insert_insert_eq in Hfiles.
  simpl in Htrace. rewrite <- !app_assoc in Htrace. simpl in Htrace.
  unfold may_fail at 1. rewrite Hfault by done. unfold mret at 1, M_ret at 1.
  unfold may_fail at 1. rewrite Hfault by done.
  rewrite Z.add_0_l. fold data. fold total. fold dest_path. fold temp_path.
  fold temp_path in Hfiles. fold data in Hfiles.
  assert (Hend : ∀ (r : bool * message) (w5 : world),
             (let (r0, w2) := may_fail E StCloseResponse w5 in
              match r0 with Ok _ => (Ok r, w2) | Raise e => (Raise e, w2) end)
             = (Ok r, w5)).
  { intros r w5. unfold may_fail. by rewrite Hfault. }
  assert (Hreplace : ∃ w', (os_replace E temp_path dest_path
                             ≫= λ _ : (), mret (true, MsgDownloaded safe_name)) w4
                           = (Ok (true, MsgDownloaded safe_name), w')
                           ∧ files w' = <[dest_path := data]> (delete temp_path (files w))
                           ∧ trace w' = trace w4 ++ [EvReplace temp_path dest_path]).
  { unfold os_replace, record, may_fail, get_files, put_files, mbind, M_bind, mret, M_ret.
    rewrite Hfault by done. simpl. rewrite Hfiles, lookup_insert_eq.
    eexists. split; [done|]. simpl. by rewrite delete_insert_eq. }
  assert (Hfin : ∀ ev, trace w4 ++ [ev]
            = trace w ++ [EvGet url; EvMakedirs dest_dir; EvOpen temp_path]
                ++ chunk_writes temp_path (body (get_response E)) ++ [ev]).
  { intros ev. rewrite Htrace. rewrite <- !app_assoc. done. }
  destruct cl as [expected|].
  - destruct (total =? expected) eqn:Heq; cbn [negb].
    + destruct Hreplace as (w' & -> & Hf' & Ht'). rewrite Hend.
      exists w'. rewrite Ht', Hfin. done.
    + unfold try_except, os_remove, record, may_fail, get_files, put_files,
        mbind, M_bind, mret, M_ret. simpl.
      destruct (fault E StRemove) as [e|] eqn:Hrm.
      * rewrite Hfault by done. eexists. split; [done|]. simpl.
        rewrite Hfin. done.
      * simpl. rewrite Hfiles, lookup_insert_eq. simpl.
        rewrite Hfault by done. eexists. split; [done|]. simpl.
        rewrite delete_insert_eq, Hfin. done.
  - destruct Hreplace as (w' & -> & Hf' & Ht'). rewrite Hend.
    exists w'. rewrite Ht', Hfin. done.
Qed.

Section Returns.
Context {A B : Type}.

Lemma returns_ret (a : A) (P : A → Prop) : P a → returns (mret a : M A) P.
Proof. intros H w a' w' [= <- <-]. done. Qed.

Lemma returns_bind (m : M A) (f : A → M B) (P : B → Prop) :
  (∀ a, returns (f a) P) → returns (m ≫= f) P.
Proof.
  intros Hf w b w' H. unfold mbind, M_bind in H.
  destruct (m w) as [[a|e] w1]; [by eapply Hf|done].
Qed.

Lemma returns_bind_lift (r : result A) (f : A → M B) (P : B → Prop) :
  (∀ a, r = Ok a → returns (f a) P) → returns (lift r ≫= f) P.
Proof.
  intros Hf w b w' H. unfold mbind, M_bind, lift in H.
  destruct r as [a|e]; [by eapply Hf|done].
Qed.

Lemma returns_try (m : M A) (h : exn → M A) (P : A → Prop) :
  returns m P → (∀ e, returns (h e) P) → returns (try_except m h) P.
Proof.
  intros Hm Hh w a w' H. unfold try_except in H.
  destruct (m w) as [[a'|e] w1] eqn:E.
  - injection H as <- <-. by eapply Hm.
  - by eapply Hh.
Qed.

Lemma returns_closing (close : M unit) (m : M A) (P : A → Prop) :
  returns m P → returns (closing close m) P.
Proof.
  intros Hm w a w' H. unfold closing in H.
  destruct (m w) as [r w1] eqn:E. destruct (close w1) as [[[]|e] w2]; [|done].
  injection H as -> <-. by eapply Hm.
Qed.
End Returns.

Lemma streamed_download_result E url dest_dir safe_name cl :
  safe_basename_from_url url = Ok safe_name →
  returns (streamed_download E url dest_dir safe_name cl) (result_for url).
Proof.
  intros Hname. unfold streamed_download.
  apply returns_bind. intros r. apply returns_closing.
  destruct (negb (status_code r =? 200)); [by apply returns_ret|].
  apply returns_bind. intros cl'. apply returns_bind. intros _.
  apply returns_bind. intros _. apply returns_bind. intros total.
  destruct (match cl' with Some expected => negb (total =? expected) | None => false end).
  - apply returns_bind. intros _. by apply returns_ret.
  - apply returns_bind. intros _. by apply returns_ret.
Qed.

Lemma download_with_resume_result E url dest_dir :
  returns (download_with_resume E url dest_dir) (result_for url).
Proof.
  unfold download_with_resume. apply returns_try; [|intros e; by apply returns_ret].
  apply returns_bind_lift. intros safe_name Hname.
  apply returns_bind. intros cl. apply returns_bind. intros ex.
  apply returns_bind. intros [|].
  - by apply returns_ret.
  - by apply streamed_download_result.
Qed.

Lemma download_with_resume_total E url dest_dir w :
  ∃ success msg w', download_with_resume E url dest_dir w = (Ok (success, msg), w').
Proof.
  unfold download_with_resume, try_except.
  match goal with |- context [match ?b w with _ => _ end] => destruct (b w) as [[[s m]|e] w'] end.
  - eauto.
  - unfold mret, M_ret. eauto.
Qed.

Lemma batch_loop_total envs images_dir img_list : ∀ i results w,
  ∃ more w', batch_loop envs i img_list images_dir results w = (Ok (results ++ more), w')
             ∧ map (fun r => r.1.1) more = img_list
             ∧ Forall (fun r => result_for (url_for_req r.1.1) (r.1.2, r.2)) more.
Proof.
  induction img_list as [|url rest IH]; intros i results w; simpl.
  - exists [], w. rewrite app_nil_r. done.
  - unfold mbind at 1, M_bind at 1.
    destruct (download_with_resume_total (envs i) (url_for_req url) images_dir w)
      as (success & msg & w1 & Hrun).
    pose proof (download_with_resume_result _ _ _ _ _ _ Hrun) as Hres.
    rewrite Hrun. unfold mbind at 1, M_bind at 1. unfold record at 1.
    destruct (IH (S i) (results ++ [(url, success, msg)]) (emit (EvPrint success msg) w1))
      as (more & w' & -> & Hmap & Hall).
    exists ((url, success, msg) :: more), w'. rewrite <- app_assoc. simpl.
    split; [done|]. split; [by rewrite Hmap|]. by constructor.
Qed.

Lemma streamed_download_starts_with_get E url dest_dir safe_name cl w :
  ∃ r w' later,
    streamed_download E url dest_dir safe_name cl w = (r, w')
    ∧ trace w' = trace w ++ [EvGet url] ++ later.
Proof.
  destruct (streamed_download E url dest_dir safe_name cl w) as [r w'] eqn:H.
  exists r, w'. revert H. unfold streamed_download, session_get.
  unfold mbind at 1, M_bind at 1. unfold mbind at 1, M_bind at 1.
  unfold record at 1. unfold mbind at 1, M_bind at 1. unfold may_fail at 1.
  destruct (fault E StGet) as [e|].
  - intros [= <- <-]. exists []. split; [done|]. simpl. done.
  - unfold mret at 1, M_ret at 1.
    match goal with |- ?m (emit _ w) = _ → _ => assert (Hext : extends m) end.
    { unfold ensure_dir, open_wb, os_remove, os_replace. solve_extends. }
    intros H. apply Hext in H as [later H]. exists later. split; [done|].
    rewrite H. simpl. by rewrite <- app_assoc.
Qed.

(** ** The fetch: statements *)

(** C10. When neither the HEAD probe nor the GET answer gives a
    Content-Length made of digits, and the body is streamed without
    failure, no length is checked: whatever the number of bytes
    written, the temporary file is renamed onto the destination, which
    then holds the body, and success is reported. *)
Theorem no_content_length_no_check
    (E : env) (url dest_dir : str) (w : world) (safe_name : str) :
  safe_basename_from_url url = Ok safe_name →
  (∀ s, s ≠ StHead → s ≠ StGetsize → s ≠ StRemove → fault E s = None) →
  probed_size E = None →
  status_code (get_response E) = 200 →
  cl_is_digits (content_length_header (get_response E)) = false →
  let dest_path := path_join dest_dir safe_name in
  let temp_path := dest_path ++ lit ".part" in
  let data := concat (body (get_response E)) in
  ∃ w',
    download_with_resume E url dest_dir w = (Ok (true, MsgDownloaded safe_name), w')
    ∧ files w' = <[dest_path := data]> (delete temp_path (files w))
    ∧ trace w' = trace w ++ [EvHead url; EvGet url; EvMakedirs dest_dir; EvOpen temp_path]
                   ++ chunk_writes temp_path (body (get_response E))
                   ++ [EvReplace temp_path dest_path].
Proof.
  intros Hname Hfault Hprobe Hstatus Hcl dest_path temp_path data.
  rewrite (download_no_skip E url dest_dir w safe_name Hname).
  2:{ unfold size_matches. by rewrite Hprobe. }
  2:{ by rewrite Hprobe. }
  destruct (streamed_download_run E url dest_dir safe_name (emit (EvHead url) w) None)
    as (w' & Hrun & Hfiles & Htrace).
  { done. }
  { done. }
  { unfold expected_size. rewrite Hprobe. unfold read_content_length.
    destruct (content_length_header (get_response E)); [|done]. by rewrite Hcl. }
  unfold try_except. rewrite Hrun. exists w'. split; [done|]. split; [done|].
  rewrite Htrace. simpl. by rewrite <- app_assoc.
Qed.

Lemma sample_url_name : safe_basename_from_url sample_url = Ok (lit "b.png").
Proof. vm_compute. reflexivity. Qed.

Lemma no_content_length_no_check_witness :
  ∃ w',
    download_with_resume (sample_env None no_fault) sample_url IMAGES_DIR empty_world
    = (Ok (true, MsgDownloaded (lit "b.png")), w')
    ∧ files w' = {[ lit "images/b.png" := [1; 2; 3; 4; 5] ]}.
Proof.
  destruct (no_content_length_no_check (sample_env None no_fault) sample_url IMAGES_DIR
              empty_world (lit "b.png") sample_url_name)
    as (w' & Hrun & Hfiles & _); try (vm_compute; reflexivity).
  exists w'. split; [exact Hrun|]. rewrite Hfiles. vm_compute. reflexivity.
Defined.

(** * Further properties of the code *)

(** ** normalize_server_path *)

Lemma last_app_singleton (s : str) c d : List.last (s ++ [c]) d = c.
Proof. by rewrite last_last. Qed.

(** X1. [normalize_server_path] maps the empty path to the empty path
    and any other path to a path that ends with a slash, adding one
    slash at most; a normalised path is left as it is, so that the
    second normalisation ([main] normalises, then [new_md] again)
    changes nothing. *)
Theorem normalize_server_path_idempotent (server_path : str) :
  let n := normalize_server_path server_path in
  (server_path = [] ↔ n = [])
  ∧ (server_path ≠ [] → List.last n 0 = 47)
  ∧ (n = server_path ∨ n = server_path ++ lit "/")
  ∧ normalize_server_path n = n.
Proof.
  unfold normalize_server_path. destruct server_path as [|c s].
  { split; [done|]. split; [done|]. split; [by left|done]. }
  destruct (bool_decide (List.last (c :: s) 0 = 47)) eqn:H.
  - apply bool_decide_eq_true in H. rewrite H. rewrite bool_decide_true by done.
    split; [done|]. auto.
  - split; [split; [done|]; intros E; by destruct s|].
    split; [intros _; apply (last_app_singleton (c :: s))|].
    split; [by right|].
    change ((c :: s) ++ [47]) with (c :: (s ++ [47])).
    cbv iota. change (c :: (s ++ [47])) with ((c :: s) ++ [47]).
    by rewrite last_app_singleton, bool_decide_true.
Qed.

(** ** safe_basename_from_url *)

Lemma sanitize_char_ok c : filename_char (sanitize_char c).
Proof.
  unfold sanitize_char, class_has, filename_char. cbn [existsb citem_has xorb].
  destruct (_ || _) eqn:H.
  - split; [lia|]. rewrite !elem_of_cons, elem_of_nil. lia.
  - rewrite !orb_false_iff in H. destruct H as (?&?&?&?&?&?&?&?&?&?&_).
    split; [lia|]. rewrite !elem_of_cons, elem_of_nil. lia.
Qed.

Lemma split_on_app_sep sep a b :
  split_on sep (a ++ sep :: b) = split_on sep a ++ split_on sep b.
Proof.
  induction a as [|c a IH]; simpl.
  - by rewrite Z.eqb_refl.
  - destruct (c =? sep); [by rewrite IH|]. rewrite IH.
    pose proof (split_on_nonempty sep a). by destruct (split_on sep a).
Qed.

Lemma split_on_absent sep b : Forall (fun c => c ≠ sep) b → split_on sep b = [b].
Proof.
  induction 1 as [|c b Hc _ IH]; [done|]. simpl.
  destruct (Z.eqb_spec c sep); [done|]. by rewrite IH.
Qed.

Lemma after_last_app_sep sep a b :
  Forall (fun c => c ≠ sep) b → after_last sep (a ++ sep :: b) = b.
Proof.
  intros Hb. unfold after_last. rewrite split_on_app_sep, (split_on_absent sep b Hb).
  by rewrite last_last.
Qed.

Lemma after_last_absent sep b : Forall (fun c => c ≠ sep) b → after_last sep b = b.
Proof. intros Hb. unfold after_last. by rewrite (split_on_absent sep b Hb). Qed.

(** [os.path.join] with a second part that is not absolute. *)
Lemma path_join_relative d b :
  hd 0 b ≠ 47 →
  path_join d b
  = if bool_decide (d = []) || bool_decide (List.last d 0 = 47) then d ++ b
    else d ++ [47] ++ b.
Proof.
  unfold path_join. destruct b as [|c b]; [done|]. simpl hd. intros H.
  destruct c as [|p|p]; try done. do 6 (destruct p as [p|p|]; try done).
Qed.

(** A name without slash is its own last segment below any directory. *)
Lemma basename_path_join d name :
  Forall (fun c => c ≠ 47) name → basename (path_join d name) = name.
Proof.
  intros Hn. unfold basename. rewrite path_join_relative.
  2: { destruct Hn; simpl; [done|]. done. }
  destruct (bool_decide (d = [])) eqn:Hd; simpl.
  { apply bool_decide_eq_true in Hd as ->. by rewrite after_last_absent. }
  destruct (bool_decide (List.last d 0 = 47)) eqn:Hl; simpl.
  - apply bool_decide_eq_true in Hl.
    destruct (exists_last (l := d)) as (d' & x & ->).
    { intros ->. done. }
    rewrite last_last in Hl. subst x. rewrite <- app_assoc. by apply after_last_app_sep.
  - by apply after_last_app_sep.
Qed.

Lemma filename_char_no_slash name :
  Forall filename_char name → Forall (fun c => c ≠ 47) name.
Proof.
  intros H. eapply Forall_impl; [exact H|]. intros c [_ Hc] ->. apply Hc. set_solver.
Qed.

(** The characters of a name. *)
Lemma safe_basename_chars url name :
  safe_basename_from_url url = Ok name → name ≠ [] ∧ Forall filename_char name.
Proof.
  intros H. unfold safe_basename_from_url in H.
  destruct (urlsplit url) as [u|e]; [|done].
  unfold mbind, result_bind in H. cbv beta iota zeta in H.
  destruct (bool_decide (unquote (basename (us_path u)) = [])) eqn:Hempty.
  - destruct (encode url) as [data|e]; [|done].
    injection H as <-. rewrite sanitize_is_map. split.
    + intros E. apply (f_equal length) in E.
      rewrite length_map, !length_app in E. simpl in E. lia.
    + apply Forall_map, Forall_forall. intros c _. apply sanitize_char_ok.
  - apply bool_decide_eq_false in Hempty. injection H as <-.
    rewrite sanitize_is_map. split.
    + intros E. apply map_eq_nil in E. done.
    + apply Forall_map, Forall_forall. intros c _. apply sanitize_char_ok.
Qed.

(** X2. A name returned by [safe_basename_from_url] is not empty and
    holds no control character and none of the characters the last
    substitution replaces; having no slash, it names an entry of the
    directory it is joined to. *)
Theorem safe_basename_from_url_charset (url name : str) :
  safe_basename_from_url url = Ok name →
  name ≠ []
  ∧ Forall filename_char name
  ∧ ∀ dest_dir, basename (path_join dest_dir name) = name.
Proof.
  intros H. destruct (safe_basename_chars url name H) as [Hne Hchars].
  split; [done|]. split; [done|].
  intros d. by apply basename_path_join, filename_char_no_slash.
Qed.

Lemma safe_basename_from_url_charset_witness :
  safe_basename_from_url sample_url = Ok (lit "b.png")
  ∧ lit "b.png" ≠ []
  ∧ Forall filename_char (lit "b.png")
  ∧ ∀ dest_dir, basename (path_join dest_dir (lit "b.png")) = lit "b.png".
Proof.
  split; [vm_compute; reflexivity|].
  apply (safe_basename_from_url_charset sample_url). vm_compute. reflexivity.
Defined.

(** ** The query and the fragment of a URL

    The lemmas on the fragment, for either of the two separators that
    end the path. *)
Section CutUrl.
Variable sep : Z.
Hypothesis Hsep : sep = 35 ∨ sep = 63.

Lemma before_cons c s :
  before sep (c :: s) = if c =? sep then [] else c :: before sep s.
Proof.
  unfold before. simpl. destruct (c =? sep); [done|].
  by destruct (partition_on sep s) as [[a f] b].
Qed.

Lemma partition_before s : partition_on sep (before sep s) = (before sep s, false, []).
Proof.
  induction s as [|c s IH]; [done|]. rewrite before_cons.
  destruct (c =? sep) eqn:E; [done|]. simpl. by rewrite E, IH.
Qed.

Lemma lstrip_before s :
  lstrip c0_control_or_space (before sep s) = before sep (lstrip c0_control_or_space s).
Proof.
  induction s as [|c s IH]; [done|]. rewrite before_cons. simpl.
  destruct (Z.eqb_spec c sep) as [->|Hne]; [by destruct Hsep as [-> | ->]|]. simpl.
  destruct (c0_control_or_space c); [done|]. rewrite before_cons.
  by destruct (Z.eqb_spec c sep).
Qed.

Lemma remove_unsafe_before s :
  remove_unsafe (before sep s) = before sep (remove_unsafe s).
Proof.
  induction s as [|c s IH]; [done|]. rewrite before_cons. simpl.
  destruct (Z.eqb_spec c sep) as [->|Hne]; [by destruct Hsep as [-> | ->]|]. simpl.
  destruct (unsafe_url_char c); [done|]. rewrite before_cons, IH.
  by destruct (Z.eqb_spec c sep).
Qed.

Lemma partition_colon_before t :
  partition_on 58 (before sep t)
  = let '(b, f, a) := partition_on 58 t in
    if contains sep b then (before sep t, false, []) else (b, f, before sep a).
Proof.
  assert (Hs : sep ≠ 58) by (destruct Hsep as [-> | ->]; done).
  induction t as [|c t IH]; [done|]. rewrite before_cons. simpl.
  destruct (Z.eqb_spec c 58) as [->|Hc].
  - destruct (Z.eqb_spec 58 sep); [lia|]. simpl. done.
  - destruct (Z.eqb_spec c sep) as [->|Hh].
    + destruct (partition_on 58 t) as [[b f] a]. unfold contains. simpl.
      by rewrite Z.eqb_refl.
    + cbn [partition_on]. destruct (Z.eqb_spec c 58); [lia|]. rewrite IH.
      destruct (partition_on 58 t) as [[b f] a].
      change (contains sep (c :: b)) with ((sep =? c) || contains sep b).
      destruct (Z.eqb_spec sep c); [lia|]. cbn [orb].
      by destruct (contains sep b).
Qed.

Lemma scheme_char_no_sep b : contains sep b = true → forallb scheme_char b = false.
Proof.
  induction b as [|c b IH]; [intros H; discriminate H|].
  change (contains sep (c :: b)) with ((sep =? c) || contains sep b).
  cbn [forallb]. destruct (Z.eqb_spec sep c) as [<-|_].
  { by destruct Hsep as [-> | ->]. }
  cbn [orb]. intros H. rewrite IH by done. apply andb_false_r.
Qed.

Lemma split_scheme_before t :
  split_scheme (before sep t)
  = let '(scheme, url) := split_scheme t in (scheme, before sep url).
Proof.
  unfold split_scheme. rewrite partition_colon_before.
  destruct (partition_on 58 t) as [[b f] a].
  destruct (contains sep b) eqn:Hb.
  - destruct f; [|done]. destruct b as [|c b]; [done|].
    by rewrite (scheme_char_no_sep _ Hb), andb_false_r.
  - destruct f; [|done]. destruct b as [|c b]; [done|].
    by destruct (is_ascii_alpha c && forallb scheme_char (c :: b)).
Qed.

Lemma span_netloc_before r :
  span_until netloc_delim (before sep r)
  = let '(n, x) := span_until netloc_delim r in (n, before sep x).
Proof.
  induction r as [|c r IH]; [done|]. rewrite before_cons. simpl.
  destruct (Z.eqb_spec c sep) as [->|Hh]; [by destruct Hsep as [-> | ->]|]. simpl.
  destruct (netloc_delim c) eqn:Hd.
  - rewrite before_cons. by destruct (Z.eqb_spec c sep).
  - rewrite IH. by destruct (span_until netloc_delim r).
Qed.

Lemma slashes_before t :
  starts_with (lit "//") (before sep t) = starts_with (lit "//") t
  ∧ (starts_with (lit "//") t = true → drop 2 (before sep t) = before sep (drop 2 t)).
Proof.
  destruct t as [|c1 t]; [done|]. rewrite before_cons.
  destruct (Z.eqb_spec c1 sep) as [->|H1]; [by destruct Hsep as [-> | ->]|].
  destruct t as [|c2 t]; [done|]. rewrite before_cons.
  destruct (Z.eqb_spec c2 sep) as [->|H2].
  - split.
    + change (lit "//") with [47; 47]. cbn [starts_with].
      destruct (47 =? c1); [|done]. by destruct Hsep as [-> | ->].
    + change (lit "//") with [47; 47]. cbn [starts_with].
      destruct (47 =? c1); [|intros H; discriminate H].
      destruct Hsep as [-> | ->]; intros H; discriminate H.
  - done.
Qed.

Lemma split_netloc_before t :
  split_netloc (before sep t)
  = ('(netloc, url) ← split_netloc t; Ok (netloc, before sep url)).
Proof.
  unfold split_netloc. destruct (slashes_before t) as [-> Hdrop].
  destruct (starts_with (lit "//") t); [|done].
  rewrite Hdrop by done. rewrite span_netloc_before.
  destruct (span_until netloc_delim (drop 2 t)) as [n x].
  destruct ((contains 91 n && negb (contains 93 n)) || (contains 93 n && negb (contains 91 n)));
    [done|].
  simpl. destruct (contains 91 n && contains 93 n); [|done].
  by destruct (check_bracketed_netloc n).
Qed.

(** The path is what precedes the first [#] and the first [?]. *)
Lemma path_before r : before 63 (before 35 (before sep r)) = before 63 (before 35 r).
Proof.
  induction r as [|c r IH]; [done|].
  rewrite (before_cons c r).
  destruct (Z.eqb_spec c sep) as [->|Hc].
  - destruct Hsep as [-> | ->]; unfold before; simpl; [done|].
    by destruct (partition_on 35 r) as [[a f] b].
  - unfold before in *. cbn [partition_on].
    destruct (Z.eqb_spec c 35) as [->|H35]; [done|].
    destruct (partition_on 35 (partition_on sep r).1.1) as [[a1 f1] b1].
    destruct (partition_on 35 r) as [[a2 f2] b2]. cbn [fst] in *.
    cbn [partition_on]. destruct (Z.eqb_spec c 63) as [->|H63]; [done|].
    destruct (partition_on 63 a1) as [[a3 f3] b3].
    destruct (partition_on 63 a2) as [[a4 f4] b4]. cbn [fst] in *. by rewrite IH.
Qed.

(** Cutting a URL at its first [sep] changes neither its scheme, nor
    its netloc, nor its path, nor whether [urlsplit] accepts it. *)
Lemma urlsplit_before s :
  match urlsplit (before sep s), urlsplit s with
  | Ok u', Ok u =>
      us_scheme u' = us_scheme u ∧ us_netloc u' = us_netloc u ∧ us_path u' = us_path u
  | Raise e', Raise e => e' = e
  | _, _ => False
  end.
Proof.
  unfold urlsplit.
  rewrite lstrip_before, remove_unsafe_before, split_scheme_before.
  destruct (split_scheme _) as [scheme url].
  rewrite split_netloc_before.
  destruct (split_netloc url) as [[netloc url']|e]; [|done]. simpl.
  pose proof (path_before url') as Hpath. unfold before in Hpath |- *.
  destruct (partition_on 35 (partition_on sep url').1.1) as [[u1 f1] frag1].
  destruct (partition_on 35 url') as [[u2 f2] frag2]. cbn [fst] in Hpath.
  destruct (partition_on 63 u1) as [[p1 g1] q1].
  destruct (partition_on 63 u2) as [[p2 g2] q2]. cbn [fst] in Hpath.
  by destruct (checknetloc netloc).
Qed.

Lemma name_before s :
  (∀ u, urlsplit s = Ok u → unquote (basename (us_path u)) ≠ []) →
  safe_basename_from_url (before sep s) = safe_basename_from_url s.
Proof.
  intros Hname. unfold safe_basename_from_url.
  pose proof (urlsplit_before s) as H.
  destruct (urlsplit (before sep s)) as [u'|e'], (urlsplit s) as [u|e]; try done.
  - destruct H as (_ & _ & Hp). specialize (Hname u eq_refl).
    cbn [mbind result_bind]. rewrite Hp. rewrite bool_decide_false by done. done.
  - by subst.
Qed.
End CutUrl.

(** X3. The query and the fragment play no part in the name of a URL
    that has a file name: when the last segment of the path, decoded, is
    not empty, [safe_basename_from_url] gives for the URL what it gives
    for the URL cut before its first [?] or [#], the same name or the
    same exception. *)
Theorem name_ignores_query_and_fragment (url : str) :
  (∀ u, urlsplit url = Ok u → unquote (basename (us_path u)) ≠ []) →
  safe_basename_from_url (without_query_and_fragment url) = safe_basename_from_url url.
Proof.
  intros Hname. unfold without_query_and_fragment.
  rewrite <- (name_before 35 (or_introl eq_refl) url Hname).
  apply (name_before 63 (or_intror eq_refl)).
  intros u' Hu'. pose proof (urlsplit_before 35 (or_introl eq_refl) url) as H.
  rewrite Hu' in H. destruct (urlsplit url) as [u|e]; [|done].
  destruct H as (_ & _ & ->). by apply Hname.
Qed.

Lemma name_ignores_query_and_fragment_witness :
  without_query_and_fragment (lit "https://a.com/img/pic.png?v=2#top")
    = lit "https://a.com/img/pic.png"
  ∧ safe_basename_from_url (lit "https://a.com/img/pic.png")
    = safe_basename_from_url (lit "https://a.com/img/pic.png?v=2#top").
Proof.
  split; [vm_compute; reflexivity|].
  change (lit "https://a.com/img/pic.png")
    with (without_query_and_fragment (lit "https://a.com/img/pic.png?v=2#top")).
  apply name_ignores_query_and_fragment.
  intros u Hu. vm_compute in Hu. injection Hu as <-. vm_compute. discriminate.
Defined.

(** ** The name of a URL that has a file name *)

Lemma sanitize_char_id c : filename_char c → sanitize_char c = c.
Proof.
  intros [Hctl Hc]. unfold sanitize_char, class_has. cbn [existsb citem_has xorb].
  rewrite !elem_of_cons, elem_of_nil in Hc.
  destruct (_ || _) eqn:H; [|done].
  rewrite !orb_true_iff, andb_true_iff, !Z.eqb_eq, !Z.leb_le in H.
  exfalso. intuition (try lia; try discriminate).
Qed.

(** X4. The name of a URL that has a file name is the last segment of
    its path, percent-decoded, with every character unsafe in a file
    name replaced by an underscore, one for one: the name has the
    length of the decoded segment, and a segment without unsafe
    character is the name itself. *)
Theorem name_is_sanitized_last_segment (url : str) (u : SplitResult) :
  urlsplit url = Ok u →
  let segment := unquote (basename (us_path u)) in
  segment ≠ [] →
  safe_basename_from_url url = Ok (map sanitize_char segment)
  ∧ (Forall filename_char segment → safe_basename_from_url url = Ok segment).
Proof.
  intros Hu segment Hne.
  assert (H : safe_basename_from_url url = Ok (map sanitize_char segment)).
  { unfold safe_basename_from_url. rewrite Hu.
    unfold mbind, result_bind. cbv beta iota zeta. fold segment.
    rewrite bool_decide_false by done. by rewrite sanitize_is_map. }
  split; [done|]. intros Hclean. rewrite H. f_equal.
  clear -Hclean. induction Hclean as [|c s Hc _ IH]; [done|]. cbn [map].
  by rewrite sanitize_char_id, IH.
Qed.

Lemma name_is_sanitized_last_segment_witness :
  safe_basename_from_url (lit "https://a.com/img/my%20pic%3F.png?v=2")
  = Ok (lit "my pic_.png").
Proof.
  destruct (name_is_sanitized_last_segment (lit "https://a.com/img/my%20pic%3F.png?v=2")
              {| us_scheme := lit "https"; us_netloc := lit "a.com";
                 us_path := lit "/img/my%20pic%3F.png"; us_query := lit "v=2";
                 us_fragment := [] |}) as [H _].
  - vm_compute. reflexivity.
  - vm_compute. discriminate.
  - etrans; [exact H|]. vm_compute. reflexivity.
Defined.

(** ** The scan of a document *)

(** The matches of a scan and the text between them make up the text. *)
Lemma scan_text ic r : ∀ s skip gap ms tl,
  scan ic r s skip gap = (ms, tl) →
  concat (map (fun gm => gm.1 ++ m_whole gm.2) ms) ++ tl = gap ++ drop skip s.
Proof.
  induction s as [|c s IH]; intros skip gap ms tl H.
  - destruct skip as [|k]; simpl in H.
    + destruct (match_here ic r []) as [m|] eqn:E.
      * injection H as <- <-. apply match_here_sound in E as [E _].
        symmetry in E. apply app_eq_nil in E as [E _]. simpl. by rewrite E, !app_nil_r.
      * injection H as <- <-. simpl. by rewrite app_nil_r.
    + injection H as <- <-. simpl. by rewrite app_nil_r.
  - destruct skip as [|k].
    + rewrite scan_cons in H.
      destruct (match_here ic r (c :: s)) as [m|] eqn:E.
      * cbv zeta in H.
        destruct (scan ic r s _ _) as [ms' tl'] eqn:Es. injection H as <- <-.
        apply IH in Es. apply match_here_sound in E as [E _].
        cbn [map concat fst snd drop]. rewrite <- !app_assoc, Es. f_equal.
        destruct (m_whole m) as [|c' w] eqn:Hw.
        -- done.
        -- simpl in E. injection E as -> ->. cbn [length Nat.eqb app].
           replace (S (length w) - 1)%nat with (length w) by lia.
           by rewrite drop_app_length.
      * apply IH in H. rewrite H. simpl. by rewrite <- app_assoc.
    + simpl in H. apply IH in H. done.
Qed.

(** The matches of the link pattern in a document, as links. *)
Lemma scan_links text ms tl :
  scan true link_pattern text 0 [] = (ms, tl) →
  ∃ links,
    text = concat (map link_text links) ++ tl
    ∧ map l_url links = map (fun gm => group1 gm.2) ms
    ∧ Forall2 link_of links ms.
Proof.
  intros Hscan.
  assert (Hall : Forall (fun gm => ∃ l, link_of l gm) ms).
  { apply Forall_forall. intros gm Hin.
    destruct (scan_sound true link_pattern text 0 [] gm) as (before & _ & Hm).
    { by rewrite Hscan. }
    apply match_here_sound in Hm as [_ Hm].
    apply link_pattern_inv in Hm as (ws & url & tail & Hw & Hg & Hws & Hshape & Htail).
    exists {| l_gap := gm.1; l_blank := ws; l_url := url; l_tail := tail |}.
    unfold link_of, link_wf. simpl. unfold group1. rewrite Hg. done. }
  apply scan_text in Hscan. change ([] ++ drop 0 text) with text in Hscan.
  subst text.
  induction Hall as [|gm ms (l & Hgap & Hw & Hg & Hwf) _ (links & Htext & Hurls & Hrel)].
  - exists []. done.
  - exists (l :: links). split; [|split].
    + destruct gm as [g m]. cbn [map concat fst snd] in *. unfold link_text at 1.
      rewrite Hgap, Hw.
      apply app_inv_tail in Htext. rewrite Htext. done.
    + cbn [map]. by rewrite Hurls, Hg.
    + by constructor.
Qed.

(** The first character of a captured URL is the letter h. *)
Lemma image_url_shape_first url :
  image_url_shape url → ∃ h rest, url = h :: rest ∧ (h = 104 ∨ h = 72).
Proof.
  intros (scheme & body & ext & Hurl & Hscheme & _).
  assert (∃ h sch, scheme = h :: sch ∧ lit_matches true 104 h = true) as (h & sch & -> & Hh).
  { destruct Hscheme as [H|H]; inversion H; subst; eauto. }
  exists h, (sch ++ lit "://" ++ body ++ lit "." ++ ext). split; [by rewrite Hurl|].
  unfold lit_matches in Hh.
  change (ignorecase_variants 104) with [104; 72] in Hh. simpl in Hh.
  rewrite orb_false_r, orb_true_iff, !Z.eqb_eq in Hh. done.
Qed.

(** [str.replace] on a link: the URL after the opening is replaced,
    and the replacement goes on in what follows. *)
Lemma str_replace_link l new :
  link_wf l →
  str_replace (lit "](" ++ l_blank l ++ l_url l ++ l_tail l ++ lit ")") (l_url l) new
  = lit "](" ++ l_blank l ++ new ++ str_replace (l_tail l ++ lit ")") (l_url l) new.
Proof.
  intros (Hws & Hshape & _).
  apply image_url_shape_first in Hshape as (h & rest & Hhr & Hh).
  unfold str_replace. rewrite Hhr.
  rewrite (app_assoc (lit "](") (l_blank l)).
  rewrite replace_scan_pass.
  - rewrite <- app_assoc. f_equal. f_equal. by rewrite replace_scan_here.
  - apply Forall_app. split.
    + repeat constructor; destruct Hh as [-> | ->]; done.
    + eapply Forall_impl; [exact Hws|]. intros c Hc ->.
      destruct Hh as [-> | ->]; done.
Qed.

Lemma str_replace_absent s old new : old ≠ [] → ¬ occurs old s → str_replace s old new = s.
Proof.
  intros Hne Hocc. unfold str_replace. destruct old as [|a old]; [done|].
  by apply replace_scan_absent.
Qed.

(** What [repl] returns for a link. *)
Lemma repl_of_link server_path l gm :
  link_of l gm →
  repl server_path gm.2
  = (n ← safe_basename_from_url (l_url l);
     Ok (lit "](" ++ l_blank l ++ (server_path ++ n)
           ++ str_replace (l_tail l ++ lit ")") (l_url l) (server_path ++ n))).
Proof.
  intros (_ & Hw & Hg & Hwf). unfold repl. rewrite Hg, Hw.
  destruct (safe_basename_from_url (l_url l)) as [n|e]; [|done].
  cbn [mbind result_bind]. by rewrite str_replace_link.
Qed.

(** The pieces of the substitution, link by link. *)
Lemma sub_pieces_links server_path : ∀ links ms,
  Forall2 link_of links ms →
  match sub_pieces (repl server_path) ms with
  | Ok body =>
      ∃ names,
        Forall2 (fun l n => safe_basename_from_url (l_url l) = Ok n) links names
        ∧ body = concat (zip_with (fun l n => link_rewritten (server_path ++ n) l)
                           links names)
  | Raise e => ∃ l, l ∈ links ∧ safe_basename_from_url (l_url l) = Raise e
  end.
Proof.
  induction 1 as [|l gm links ms Hl _ IH]; [by exists []|].
  destruct gm as [gap m]. cbn [sub_pieces].
  pose proof (repl_of_link server_path l (gap, m) Hl) as Hr. cbn [snd] in Hr. rewrite Hr.
  destruct Hl as (Hgap & _). cbn [fst] in Hgap.
  destruct (safe_basename_from_url (l_url l)) as [n|e] eqn:Hn; cbn [mbind result_bind].
  - destruct (sub_pieces (repl server_path) ms) as [body|e].
    + destruct IH as (names & Hnames & ->). exists (n :: names). split; [by constructor|].
      cbn [zip_with concat]. unfold link_rewritten at 2. rewrite Hgap.
      by rewrite <- !app_assoc.
    + destruct IH as (l' & Hin & He). exists l'. split; [by right|done].
  - exists l. split; [by left|done].
Qed.

(** ** extract_image_urls and new_md on a document *)

Lemma extract_image_urls_elem text url :
  url ∈ extract_image_urls text ↔ url ∈ captures text.
Proof.
  rewrite extract_image_urls_first_occurrences, first_occurrences_elem.
  split; [by intros [H _]|]. intros H. split; [done|]. by intros H'%elem_of_nil.
Qed.

(** X5. Extraction invents nothing: every URL returned by
    [extract_image_urls] stands in the text, after the two characters
    [](] and a run of blanks, and before a closing parenthesis that no
    other closing parenthesis precedes. *)
Theorem extracted_url_occurs (text url : str) :
  url ∈ extract_image_urls text →
  ∃ before ws tail after,
    text = before ++ lit "](" ++ ws ++ url ++ tail ++ lit ")" ++ after
    ∧ Forall (fun c => is_space c = true) ws
    ∧ Forall (fun c => c ≠ ch ")") tail.
Proof.
  rewrite extract_image_urls_elem. unfold captures, finditer. intros Hin.
  apply list_elem_of_fmap in Hin as (m & -> & Hin).
  apply list_elem_of_fmap in Hin as (gm & -> & Hin).
  apply scan_sound in Hin as (before & Htext & Hm).
  apply match_here_sound in Hm as [_ Hm].
  apply link_pattern_inv in Hm as (ws & url & tail & Hw & Hg & Hws & _ & Htail).
  exists before, ws, tail, (m_rest gm.2). unfold group1. rewrite Hg. simpl.
  split; [|done]. rewrite Htext, Hw. by rewrite <- !app_assoc.
Qed.

Lemma extracted_url_occurs_witness :
  lit "http://a.com/p.png" ∈ extract_image_urls doc_url_in_query
  ∧ ∃ before ws tail after,
      doc_url_in_query
      = before ++ lit "](" ++ ws ++ lit "http://a.com/p.png" ++ tail ++ lit ")" ++ after
      ∧ Forall (fun c => is_space c = true) ws
      ∧ Forall (fun c => c ≠ ch ")") tail.
Proof.
  assert (H : lit "http://a.com/p.png" ∈ extract_image_urls doc_url_in_query).
  { vm_compute. left. }
  split; [exact H|]. exact (extracted_url_occurs _ _ H).
Defined.

(** No URL is extracted when nothing matches, and only then. *)
Lemma extract_nil_no_match text :
  extract_image_urls text = [] → finditer true link_pattern text = [].
Proof.
  intros Hnone.
  assert (Hcap : captures text = []).
  { destruct (captures text) as [|url l] eqn:E; [done|].
    assert (url ∈ extract_image_urls text) as Hin
      by (apply extract_image_urls_elem; rewrite E; left).
    rewrite Hnone in Hin. by apply elem_of_nil in Hin. }
  unfold captures in Hcap. by apply fmap_nil_inv in Hcap.
Qed.

(** Without a match the substitution returns the text. *)
Lemma new_md_no_match text server_path :
  finditer true link_pattern text = [] → new_md text server_path = Ok text.
Proof.
  unfold finditer, new_md, re_sub_with. intros Hnone. apply fmap_nil_inv in Hnone.
  destruct (scan true link_pattern text 0 []) as [ms tl] eqn:Hscan.
  simpl in Hnone. subst ms. apply scan_text in Hscan. simpl in Hscan.
  rewrite drop_0 in Hscan. by subst tl.
Qed.

(** X6. A document without image link is rewritten as itself: when
    [extract_image_urls] finds nothing, [new_md] returns the text
    unchanged, whatever the server path. *)
Theorem new_md_without_links (text server_path : str) :
  extract_image_urls text = [] → new_md text server_path = Ok text.
Proof. intros Hnone. by apply new_md_no_match, extract_nil_no_match. Qed.

Lemma new_md_without_links_witness :
  extract_image_urls doc_plain = [] ∧ new_md doc_plain cdn = Ok doc_plain.
Proof.
  assert (H : extract_image_urls doc_plain = []) by (vm_compute; reflexivity).
  split; [exact H|]. exact (new_md_without_links doc_plain cdn H).
Defined.

(** X7. What [new_md] writes: when it returns, the text is a sequence
    of well-formed links, one for each match and in their order, and a
    remainder; every URL has a name, and the output is the same sequence
    with, in each link, the server path and the name in the place of
    the URL and [str.replace] applied to what follows the URL, and the
    same remainder.  When no URL occurs again between itself and the
    closing parenthesis, the output differs from the text in the URLs
    only. *)
Theorem new_md_rewrites_every_link (text server_path out : str) :
  new_md text server_path = Ok out →
  let server_path := normalize_server_path server_path in
  ∃ links names tl,
    text = concat (map link_text links) ++ tl
    ∧ map l_url links = captures text
    ∧ Forall link_wf links
    ∧ Forall2 (fun l n => safe_basename_from_url (l_url l) = Ok n) links names
    ∧ out = concat (zip_with (fun l n => link_rewritten (server_path ++ n) l) links names)
              ++ tl
    ∧ (Forall (fun l => ¬ occurs (l_url l) (l_tail l ++ lit ")")) links →
       out = concat (zip_with (fun l n => link_with_url (server_path ++ n) l) links names)
               ++ tl).
Proof.
  intros H sp. unfold new_md, re_sub_with in H.
  destruct (scan true link_pattern text 0 []) as [ms tl] eqn:Hscan.
  destruct (scan_links text ms tl Hscan) as (links & Htext & Hurls & Hrel).
  pose proof (sub_pieces_links (normalize_server_path server_path) links ms Hrel) as Hsub.
  destruct (sub_pieces _ ms) as [body|e]; [|done].
  cbn [mbind result_bind] in H. injection H as <-.
  destruct Hsub as (names & Hnames & ->).
  exists links, names, tl. fold sp.
  assert (Hwf : Forall link_wf links).
  { clear -Hrel. induction Hrel as [|l gm links ms (_ & _ & _ & Hl) _ IH]; by constructor. }
  split; [done|]. split.
  { rewrite Hurls. unfold captures, finditer. rewrite Hscan. simpl.
    by rewrite <- list_fmap_compose. }
  split; [done|]. split; [done|]. split; [done|].
  intros Hclean. f_equal. f_equal.
  clear -Hnames Hclean Hwf. revert Hclean Hwf.
  induction Hnames as [|l n links names _ _ IH]; [done|].
  intros Hclean Hwf. inversion Hclean; inversion Hwf; subst.
  cbn [zip_with]. rewrite IH by done. f_equal.
  unfold link_rewritten, link_with_url. do 4 f_equal.
  apply str_replace_absent; [|done].
  match goal with H : link_wf l |- _ => destruct H as (_ & Hs & _) end.
  apply image_url_shape_first in Hs as (h & rest & -> & _). done.
Qed.

Lemma new_md_rewrites_every_link_witness :
  new_md doc_spec_example cdn = Ok (lit "![x](https://cdn.x.com/d/pic.png?v=2)")
  ∧ ∃ links names tl,
      doc_spec_example = concat (map link_text links) ++ tl
      ∧ map l_url links = captures doc_spec_example
      ∧ Forall link_wf links
      ∧ Forall2 (fun l n => safe_basename_from_url (l_url l) = Ok n) links names
      ∧ lit "![x](https://cdn.x.com/d/pic.png?v=2)"
        = concat (zip_with (fun l n => link_rewritten (normalize_server_path cdn ++ n) l)
                    links names) ++ tl
      ∧ (Forall (fun l => ¬ occurs (l_url l) (l_tail l ++ lit ")")) links →
         lit "![x](https://cdn.x.com/d/pic.png?v=2)"
         = concat (zip_with (fun l n => link_with_url (normalize_server_path cdn ++ n) l)
                     links names) ++ tl).
Proof.
  assert (H : new_md doc_spec_example cdn = Ok (lit "![x](https://cdn.x.com/d/pic.png?v=2)"))
    by (vm_compute; reflexivity).
  split; [exact H|]. exact (new_md_rewrites_every_link _ _ _ H).
Defined.

(** A URL without name makes [new_md] raise. *)
Lemma new_md_raises text server_path url e :
  url ∈ extract_image_urls text → safe_basename_from_url url = Raise e →
  ∃ e', new_md text server_path = Raise e'.
Proof.
  unfold new_md, re_sub_with. intros Hin He.
  destruct (scan true link_pattern text 0 []) as [ms tl] eqn:Hscan.
  destruct (scan_links text ms tl Hscan) as (links & Htext & Hurls & Hrel).
  pose proof (sub_pieces_links (normalize_server_path server_path) links ms Hrel) as Hsub.
  assert (Hcap : captures text = map l_url links).
  { rewrite Hurls. unfold captures, finditer. rewrite Hscan. simpl.
    by rewrite <- list_fmap_compose. }
  destruct (sub_pieces _ ms) as [body|e']; [|by eexists].
  exfalso. destruct Hsub as (names & Hnames & _).
  apply extract_image_urls_elem in Hin. rewrite Hcap in Hin.
  apply list_elem_of_fmap in Hin as (l & -> & Hin).
  clear -Hnames Hin He. induction Hnames as [|l' n links names Hn _ IH].
  - by apply elem_of_nil in Hin.
  - apply elem_of_cons in Hin as [->|Hin]; [congruence|by apply IH].
Qed.

(** X8. [new_md] raises exactly when [safe_basename_from_url] raises
    for one of the extracted URLs, and with the exception of one of
    them; the rewrite of a document either is complete or yields no
    text at all. *)
Theorem new_md_raises_iff (text server_path : str) :
  (∀ e, new_md text server_path = Raise e →
        ∃ url, url ∈ extract_image_urls text ∧ safe_basename_from_url url = Raise e)
  ∧ (∀ url e, url ∈ extract_image_urls text → safe_basename_from_url url = Raise e →
              ∃ e', new_md text server_path = Raise e').
Proof.
  split; [|apply new_md_raises].
  unfold new_md, re_sub_with.
  destruct (scan true link_pattern text 0 []) as [ms tl] eqn:Hscan.
  destruct (scan_links text ms tl Hscan) as (links & Htext & Hurls & Hrel).
  pose proof (sub_pieces_links (normalize_server_path server_path) links ms Hrel) as Hsub.
  assert (Hcap : captures text = map l_url links).
  { rewrite Hurls. unfold captures, finditer. rewrite Hscan. simpl.
    by rewrite <- list_fmap_compose. }
  intros e H. destruct (sub_pieces _ ms) as [body|e']; [done|].
  cbn [mbind result_bind] in H. injection H as ->.
  destruct Hsub as (l & Hin & He). exists (l_url l). split; [|done].
  apply extract_image_urls_elem. rewrite Hcap. by apply list_elem_of_fmap_2.
Qed.

Lemma new_md_raises_iff_witness :
  lit "http://[x.png" ∈ extract_image_urls doc_bad_bracket
  ∧ safe_basename_from_url (lit "http://[x.png") = Raise (ValueError "Invalid IPv6 URL" [])
  ∧ ∃ e', new_md doc_bad_bracket cdn = Raise e'.
Proof.
  assert (H1 : lit "http://[x.png" ∈ extract_image_urls doc_bad_bracket)
    by (vm_compute; left).
  assert (H2 : safe_basename_from_url (lit "http://[x.png")
               = Raise (ValueError "Invalid IPv6 URL" [])) by (vm_compute; reflexivity).
  split; [exact H1|]. split; [exact H2|].
  exact (proj2 (new_md_raises_iff doc_bad_bracket cdn) _ _ H1 H2).
Defined.

(** ** Completeness of the matcher *)

Section MatcherComplete.
Variable ic : bool.
Context {X : Type}.
Implicit Types (r : re) (s w rest : str) (g : option str)
  (k : str → option str → option X).

(** When a pattern matches a prefix of the text, and the continuation
    accepts what follows whatever was captured, the matcher returns a
    result (the one of this match or of one it tries before). *)
Lemma rmatch_complete r : ∀ w rest g g',
  matches ic r w rest g g' →
  ∀ k g0, (∀ g'', is_Some (k rest g'')) → is_Some (rmatch ic r (w ++ rest) g0 k).
Proof.
  induction r as [|p|negate items|r1 IH1 r2 IH2|r1 IH1 r2 IH2|greedy r1 IH1|r1 IH1|];
    intros w rest g g' Hm k g0 Hk.
  - inversion Hm; subst. simpl. apply Hk.
  - inversion Hm as [|? c ? ? Hc| | | | | | | |]; subst. simpl. rewrite Hc. apply Hk.
  - inversion Hm as [| |? ? c ? ? Hc| | | | | | |]; subst. simpl. rewrite Hc. apply Hk.
  - inversion Hm as [| | |? ? w1 w2 ? ? g1 ? M1 M2| | | | | |]; subst.
    rewrite <- app_assoc. cbn [rmatch]. eapply IH1; [exact M1|].
    intros g''. eapply IH2; [exact M2|done].
  - cbn [rmatch]. inversion Hm as [| | | |? ? ? ? ? ? M1|? ? ? ? ? ? M2| | | |]; subst.
    + destruct (IH1 _ _ _ _ M1 k g0 Hk) as [x Hx]. by rewrite Hx.
    + destruct (rmatch ic r1 (w ++ rest) g0 k); [done|]. by eapply IH2.
  - destruct greedy; cbn [rmatch].
    + match goal with |- is_Some (?loop _ _ _) =>
        enough (Hgen : ∀ n w rest g g' g0,
                  matches ic (Star true r1) w rest g g' →
                  (∀ g'', is_Some (k rest g'')) →
                  (length (w ++ rest) ≤ n)%nat →
                  is_Some (loop n (w ++ rest) g0)) by (eapply Hgen; eauto)
      end.
      clear w rest g g' Hm g0 Hk.
      induction n as [|n IHn]; intros w rest g g' g0 Hm Hk Hlen.
      * destruct w; [|simpl in Hlen; lia]. apply Hk.
      * inversion Hm as [| | | | | |? ? ? ?|? ? w1 w2 ? ? g1 ? Hne M1 M2| |]; subst.
        -- simpl app. destruct (rmatch ic r1 rest g0 _); [done|]. apply Hk.
        -- assert (Hinner : is_Some
                     (rmatch ic r1 (w1 ++ w2 ++ rest) g0
                        (fun s' g' =>
                           if (length s' <? length (w1 ++ w2 ++ rest))%nat
                           then (fix loop (n : nat) (s : str) (g : option str) {struct n}
                                   : option X :=
                                   match n with
                                   | O => k s g
                                   | S n' =>
                                       match rmatch ic r1 s g
                                               (fun s' g' =>
                                                  if (length s' <? length s)%nat
                                                  then loop n' s' g' else None) with
                                       | Some x => Some x
                                       | None => k s g
                                       end
                                   end) n s' g'
                           else None))).
           { eapply IH1; [exact M1|]. intros g''.
             assert (Hlt : (length (w2 ++ rest) <? length (w1 ++ w2 ++ rest))%nat = true).
             { apply Nat.ltb_lt. rewrite (length_app w1). destruct w1; [done|]. simpl. lia. }
             rewrite Hlt. eapply IHn; [exact M2|done|].
             rewrite <- app_assoc, (length_app w1) in Hlen.
             destruct w1; [done|]. simpl in Hlen. lia. }
           rewrite <- app_assoc. destruct Hinner as [x Hx]. by rewrite Hx.
    + match goal with |- is_Some (?loop _ _ _) =>
        enough (Hgen : ∀ n w rest g g' g0,
                  matches ic (Star false r1) w rest g g' →
                  (∀ g'', is_Some (k rest g'')) →
                  (length (w ++ rest) ≤ n)%nat →
                  is_Some (loop n (w ++ rest) g0)) by (eapply Hgen; eauto)
      end.
      clear w rest g g' Hm g0 Hk.
      induction n as [|n IHn]; intros w rest g g' g0 Hm Hk Hlen.
      * destruct w; [|simpl in Hlen; lia]. simpl app.
        destruct (Hk g0) as [x Hx]. by rewrite Hx.
      * inversion Hm as [| | | | | |? ? ? ?|? ? w1 w2 ? ? g1 ? Hne M1 M2| |]; subst.
        -- simpl app. destruct (Hk g0) as [x Hx]. by rewrite Hx.
        -- destruct (k ((w1 ++ w2) ++ rest) g0); [done|].
           rewrite <- app_assoc. eapply IH1; [exact M1|]. intros g''.
           assert (Hlt : (length (w2 ++ rest) <? length (w1 ++ w2 ++ rest))%nat = true).
           { apply Nat.ltb_lt. rewrite (length_app w1). destruct w1; [done|]. simpl. lia. }
           rewrite Hlt. eapply IHn; [exact M2|done|].
           rewrite <- app_assoc, (length_app w1) in Hlen.
           destruct w1; [done|]. simpl in Hlen. lia.
  - inversion Hm as [| | | | | | | |? ? ? ? g1 M1|]; subst. cbn [rmatch].
    eapply IH1; [exact M1|]. intros g''. apply Hk.
  - inversion Hm as [| | | | | | | | |? ? Hend]; subst. simpl. rewrite Hend. apply Hk.
Qed.
End MatcherComplete.

Lemma match_here_complete ic r w rest g' :
  matches ic r w rest None g' → is_Some (match_here ic r (w ++ rest)).
Proof. intros Hm. unfold match_here. eapply rmatch_complete; [exact Hm|]. by eexists. Qed.

(** A position at which the pattern matches makes the scan find a
    match, there or before. *)
Lemma scan_finds ic r s2 : ∀ a gap,
  is_Some (match_here ic r s2) → (scan ic r (a ++ s2) 0 gap).1 ≠ [].
Proof.
  induction a as [|c a IH]; intros gap [m Hm].
  - simpl app. destruct s2 as [|c s2].
    + rewrite scan_nil, Hm. done.
    + rewrite scan_cons, Hm. cbv zeta. by destruct (scan ic r s2 _ _).
  - change ((c :: a) ++ s2) with (c :: (a ++ s2)). rewrite scan_cons.
    destruct (match_here ic r (c :: a ++ s2)) as [m'|].
    + cbv zeta. by destruct (scan ic r (a ++ s2) _ _).
    + apply IH. by exists m.
Qed.

(** ** Every link is seen by the pattern *)

Lemma matches_Word ic p s rest g :
  Forall2 (fun a c => lit_matches ic a c = true) p s → matches ic (Word p) s rest g g.
Proof.
  induction 1 as [|a c p s Hac _ IH]; [constructor|].
  cbn [Word]. change (c :: s) with ([c] ++ s). econstructor; [by constructor|done].
Qed.

Lemma matches_Star_class ic greedy negate items w rest g :
  Forall (fun c => class_has negate items c = true) w →
  matches ic (Star greedy (In negate items)) w rest g g.
Proof.
  induction 1 as [|c w Hc _ IH]; [constructor|].
  change (c :: w) with ([c] ++ w). econstructor; [done|by constructor|done].
Qed.

Lemma matches_image_exts ext rest g :
  image_ext ext → matches true image_exts ext rest g g.
Proof.
  unfold image_exts, Opt.
  intros [H|[H|[H|H]]].
  - apply M_AltL. by apply matches_Word.
  - apply M_AltR, M_AltL. unfold ci_eq in H.
    inversion H as [|? cj ? ? Hj H1]; subst. inversion H1 as [|? cp ? ? Hp H2]; subst.
    inversion H2 as [|? cg ? ? Hg H3]; subst. inversion H3; subst.
    change [cj; cp; cg] with ([cj; cp] ++ [] ++ [cg]).
    econstructor; [apply matches_Word; by repeat constructor|].
    econstructor; [apply M_AltR; constructor|by constructor].
  - apply M_AltR, M_AltL. unfold ci_eq in H.
    inversion H as [|? cj ? ? Hj H1]; subst. inversion H1 as [|? cp ? ? Hp H2]; subst.
    inversion H2 as [|? ce ? ? He H3]; subst. inversion H3 as [|? cg ? ? Hg H4]; subst.
    inversion H4; subst.
    change [cj; cp; ce; cg] with ([cj; cp] ++ [ce] ++ [cg]).
    econstructor; [apply matches_Word; by repeat constructor|].
    econstructor; [apply M_AltL; by constructor|by constructor].
  - apply M_AltR, M_AltR. by apply matches_Word.
Qed.

(** A well-formed link is a match of the link pattern. *)
Lemma link_matches l rest :
  link_wf l →
  matches true link_pattern (lit "](" ++ l_blank l ++ l_url l ++ l_tail l ++ lit ")") rest
    None (Some (l_url l)).
Proof.
  intros (Hws & (scheme & body & ext & Hurl & Hscheme & Hbody & Hchars & Hext) & Htail).
  unfold link_pattern.
  change (lit "](") with ([93] ++ [40]). rewrite <- app_assoc.
  econstructor; [by constructor|]. econstructor; [by constructor|].
  econstructor.
  { apply matches_Star_class. eapply Forall_impl; [exact Hws|].
    intros c Hc. unfold class_has. simpl. by rewrite Hc. }
  econstructor.
  { apply M_Group with (g1 := None). rewrite Hurl.
    assert (Hsch : ∃ s4 opt, scheme = s4 ++ opt
                             ∧ Forall2 (fun a c => lit_matches true a c = true) (lit "http") s4
                             ∧ ∀ rest' g, matches true (Opt (Lit (ch "s"))) opt rest' g g).
    { destruct Hscheme as [H|H].
      - exists scheme, []. rewrite app_nil_r. split; [done|]. split; [done|].
        intros rest' g. apply M_AltR. constructor.
      - unfold ci_eq in H.
        inversion H as [|? c1 ? ? E1 H1]; subst. inversion H1 as [|? c2 ? ? E2 H2]; subst.
        inversion H2 as [|? c3 ? ? E3 H3]; subst. inversion H3 as [|? c4 ? ? E4 H4]; subst.
        inversion H4 as [|? c5 ? ? E5 H5]; subst. inversion H5; subst.
        exists [c1; c2; c3; c4], [c5]. split; [done|]. split; [by repeat constructor|].
        intros rest' g. apply M_AltL. by constructor. }
    destruct Hsch as (s4 & opt & -> & Hs4 & Hopt).
    rewrite <- app_assoc.
    econstructor; [by apply matches_Word|].
    econstructor; [apply Hopt|].
    econstructor; [apply matches_Word; by repeat constructor|].
    destruct body as [|b0 body]; [done|]. inversion Hchars as [|? ? [Hb1 Hb2] Hrest]; subst.
    assert (Hclass : ∀ c, is_space c = false ∧ c ≠ ch ")" →
                          class_has true [CSpace; CChar (ch ")")] c = true).
    { intros c [Hc1 Hc2]. unfold class_has. simpl. rewrite Hc1. simpl.
      destruct (Z.eqb_spec c (ch ")")); done. }
    change ((b0 :: body) ++ lit "." ++ ext) with (([b0] ++ body) ++ [46] ++ ext).
    econstructor.
    { unfold Plus. econstructor; [constructor; by apply Hclass|].
      apply matches_Star_class. eapply Forall_impl; [exact Hrest|]. apply Hclass. }
    econstructor; [by constructor|]. by apply matches_image_exts. }
  econstructor.
  { apply matches_Star_class. eapply Forall_impl; [exact Htail|].
    intros c Hc. unfold class_has. simpl. destruct (Z.eqb_spec c (ch ")")); done. }
  by constructor.
Qed.

(** X9. Extraction finds something exactly when the text holds a
    link: [extract_image_urls] returns a URL if and only if somewhere
    in the text stand the two characters [](], blanks, a URL of the
    shape of an image URL, other characters than the closing
    parenthesis, and a closing parenthesis. *)
Theorem extraction_finds_links (text : str) :
  extract_image_urls text ≠ []
  ↔ ∃ before l after,
      text = before ++ (lit "](" ++ l_blank l ++ l_url l ++ l_tail l ++ lit ")") ++ after
      ∧ link_wf l.
Proof.
  split.
  - intros Hne. destruct (extract_image_urls text) as [|url urls] eqn:E; [done|].
    assert (Hin : url ∈ captures text).
    { apply extract_image_urls_elem. rewrite E. by left. }
    unfold captures, finditer in Hin.
    apply list_elem_of_fmap in Hin as (m & _ & Hin).
    apply list_elem_of_fmap in Hin as (gm & -> & Hin).
    apply scan_sound in Hin as (before & Htext & Hm).
    apply match_here_sound in Hm as [_ Hm].
    apply link_pattern_inv in Hm as (ws & u & tail & Hw & _ & Hws & Hshape & Htail).
    exists before, {| l_gap := []; l_blank := ws; l_url := u; l_tail := tail |}, (m_rest gm.2).
    split; [by rewrite Htext, Hw|done].
  - intros (before & l & after & -> & Hwf) Hnil.
    apply extract_nil_no_match in Hnil. unfold finditer in Hnil.
    apply fmap_nil_inv in Hnil. revert Hnil. apply scan_finds.
    by eapply match_here_complete, link_matches.
Qed.

(** ** The effects of a fetch *)

Section Keeps.
Context {A B : Type}.
Variable R : world → world → Prop.
Hypothesis R_refl : ∀ w, R w w.
Hypothesis R_trans : ∀ w1 w2 w3, R w1 w2 → R w2 w3 → R w1 w3.

Lemma keeps_ret (a : A) : keeps R (mret a : M A).
Proof. intros w r w' [= <- <-]. apply R_refl. Qed.

Lemma keeps_lift (r : result A) : keeps R (lift r).
Proof. intros w r' w' [= <- <-]. apply R_refl. Qed.

Lemma keeps_raise (e : exn) : keeps R (raise e : M A).
Proof. intros w r' w' [= <- <-]. apply R_refl. Qed.

Lemma keeps_bind (m : M A) (f : A → M B) :
  keeps R m → (∀ a, keeps R (f a)) → keeps R (m ≫= f).
Proof.
  intros Hm Hf w r w' H. unfold mbind, M_bind in H.
  destruct (m w) as [[a|e] w1] eqn:E; apply Hm in E.
  - apply Hf in H. by eapply R_trans.
  - by injection H as <- <-.
Qed.

Lemma keeps_try (m : M A) (h : exn → M A) :
  keeps R m → (∀ e, keeps R (h e)) → keeps R (try_except m h).
Proof.
  intros Hm Hh w r w' H. unfold try_except in H.
  destruct (m w) as [[a|e] w1] eqn:E; apply Hm in E.
  - by injection H as <- <-.
  - apply Hh in H. by eapply R_trans.
Qed.

Lemma keeps_closing (close : M unit) (m : M A) :
  keeps R close → keeps R m → keeps R (closing close m).
Proof.
  intros Hc Hm w r w' H. unfold closing in H.
  destruct (m w) as [r1 w1] eqn:E. apply Hm in E.
  destruct (close w1) as [[[]|e] w2] eqn:E2; apply Hc in E2;
    injection H as <- <-; by eapply R_trans.
Qed.

Lemma keeps_may_fail E s : keeps R (may_fail E s).
Proof.
  intros w r w'. unfold may_fail. destruct (fault E s); intros [= <- <-]; apply R_refl.
Qed.

Lemma keeps_get_files : keeps R get_files.
Proof. intros w r w' [= <- <-]. apply R_refl. Qed.
End Keeps.

Lemma adds_only_refl P w : adds_only P w w.
Proof. exists []. by rewrite app_nil_r. Qed.

Lemma adds_only_trans P w1 w2 w3 :
  adds_only P w1 w2 → adds_only P w2 w3 → adds_only P w1 w3.
Proof.
  intros (l1 & H1 & F1) (l2 & H2 & F2). exists (l1 ++ l2).
  split; [by rewrite H2, H1, app_assoc|by apply Forall_app].
Qed.

Lemma same_files_except_refl paths w : same_files_except paths w w.
Proof. by intros p _. Qed.

Lemma same_files_except_trans paths w1 w2 w3 :
  same_files_except paths w1 w2 → same_files_except paths w2 w3 →
  same_files_except paths w1 w3.
Proof. intros H1 H2 p Hp. by rewrite H2, H1. Qed.

Section Effects.
Variable P : event → Prop.
Variable paths : list str.

Lemma effect_refl w : effect_within P paths w w.
Proof. split; [apply adds_only_refl|apply same_files_except_refl]. Qed.

Lemma effect_trans w1 w2 w3 :
  effect_within P paths w1 w2 → effect_within P paths w2 w3 → effect_within P paths w1 w3.
Proof.
  intros [H1 F1] [H2 F2].
  split; [by eapply adds_only_trans|by eapply same_files_except_trans].
Qed.

Lemma effect_emit ev w : P ev → effect_within P paths w (emit ev w).
Proof. intros H. split; [exists [ev]; by repeat constructor|by intros p _]. Qed.

Lemma effect_set_files f w :
  (∀ p, p ∉ paths → f !! p = files w !! p) → effect_within P paths w (set_files f w).
Proof. intros H. split; [exists []; by rewrite app_nil_r|done]. Qed.

Lemma keeps_record ev : P ev → keeps (effect_within P paths) (record ev).
Proof. intros H w r w' [= <- <-]. by apply effect_emit. Qed.

Lemma keeps_ensure_dir E d : P (EvMakedirs d) → keeps (effect_within P paths) (ensure_dir E d).
Proof.
  intros H. unfold ensure_dir.
  apply keeps_bind; [apply effect_trans|by apply keeps_record|].
  intros _. apply keeps_may_fail, effect_refl.
Qed.

(** A primitive that records [ev], may fail, and then changes the
    files at paths of [paths], or raises. *)
Lemma keeps_file_primitive (E : env) (ev : event) (s : step)
    (change : gmap str (list Z) → result (gmap str (list Z))) :
  P ev →
  (∀ fs fs' p, change fs = Ok fs' → p ∉ paths → fs' !! p = fs !! p) →
  keeps (effect_within P paths)
    (_ ← record ev; _ ← may_fail E s; fs ← get_files;
     match change fs with
     | Ok fs' => put_files fs'
     | Raise e => raise e
     end : M unit).
Proof.
  intros Hev Hch w r w'.
  unfold record, may_fail, get_files, put_files, raise, mbind, M_bind.
  destruct (fault E s) as [e|].
  { intros [= <- <-]. by apply effect_emit. }
  simpl. destruct (change (files w)) as [fs'|e] eqn:Hc.
  - intros [= <- <-]. eapply effect_trans; [by apply effect_emit|].
    apply effect_set_files. intros p Hp. simpl. by eapply Hch.
  - intros [= <- <-]. by apply effect_emit.
Qed.

Lemma keeps_open_wb E p :
  P (EvOpen p) → p ∈ paths → keeps (effect_within P paths) (open_wb E p).
Proof.
  intros Hev Hp.
  apply (keeps_file_primitive E (EvOpen p) StOpen (fun fs => Ok (<[p := []]> fs)) Hev).
  intros fs fs' q [= <-] Hq. apply lookup_insert_ne. by intros ->.
Qed.

Lemma keeps_file_write E p i chunk :
  P (EvWrite p chunk) → p ∈ paths → keeps (effect_within P paths) (file_write E p i chunk).
Proof.
  intros Hev Hp.
  apply (keeps_file_primitive E (EvWrite p chunk) (StWrite i)
           (fun fs => Ok (<[p := default [] (fs !! p) ++ chunk]> fs)) Hev).
  intros fs fs' q [= <-] Hq. apply lookup_insert_ne. by intros ->.
Qed.

Lemma keeps_os_remove E p :
  P (EvRemove p) → p ∈ paths → keeps (effect_within P paths) (os_remove E p).
Proof.
  intros Hev Hp w r w' H.
  apply (keeps_file_primitive E (EvRemove p) StRemove
           (fun fs => match fs !! p with
                      | Some _ => Ok (delete p fs)
                      | None => Raise (FileNotFoundError p)
                      end) Hev) with (r := r).
  - intros fs fs' q Hc Hq. destruct (fs !! p); [|done]. injection Hc as <-.
    apply lookup_delete_ne. by intros ->.
  - rewrite <- H. unfold os_remove, record, may_fail, get_files, put_files, raise,
      mbind, M_bind.
    destruct (fault E StRemove); [done|]. simpl. by destruct (files w !! p).
Qed.

Lemma keeps_os_replace E src dst :
  P (EvReplace src dst) → src ∈ paths → dst ∈ paths →
  keeps (effect_within P paths) (os_replace E src dst).
Proof.
  intros Hev Hs Hd w r w' H.
  apply (keeps_file_primitive E (EvReplace src dst) StReplace
           (fun fs => match fs !! src with
                      | Some data => Ok (<[dst := data]> (delete src fs))
                      | None => Raise (FileNotFoundError src)
                      end) Hev) with (r := r).
  - intros fs fs' q Hc Hq. destruct (fs !! src); [|done]. injection Hc as <-.
    rewrite lookup_insert_ne by (by intros ->).
    apply lookup_delete_ne. by intros ->.
  - rewrite <- H. unfold os_replace, record, may_fail, get_files, put_files, raise,
      mbind, M_bind.
    destruct (fault E StReplace); [done|]. simpl. by destruct (files w !! src).
Qed.

Lemma keeps_write_chunks E p chunks :
  (∀ chunk, P (EvWrite p chunk)) → p ∈ paths →
  ∀ i total, keeps (effect_within P paths) (write_chunks E p chunks i total).
Proof.
  intros Hev Hp. induction chunks as [|c chunks IH]; intros i total; simpl.
  - apply keeps_bind; [apply effect_trans|apply keeps_may_fail, effect_refl|].
    intros _. apply keeps_ret, effect_refl.
  - apply keeps_bind; [apply effect_trans|apply keeps_may_fail, effect_refl|]. intros _.
    apply keeps_bind; [apply effect_trans| |intros; apply IH].
    destruct (bool_decide (c = [])); [apply keeps_ret, effect_refl|].
    apply keeps_bind; [apply effect_trans|by apply keeps_file_write|].
    intros _. apply keeps_ret, effect_refl.
Qed.
End Effects.

(** Programs built from the primitives with bind, try and with. *)
Ltac solve_file_op := intros; try unfold file_op; cbv beta iota zeta; done.

Ltac solve_keeps :=
  repeat first
    [ progress intros
    | apply keeps_record; solve_file_op
    | apply keeps_ensure_dir; solve_file_op
    | apply keeps_open_wb; [solve_file_op|set_solver]
    | apply keeps_os_remove; [solve_file_op|set_solver]
    | apply keeps_os_replace; [solve_file_op|set_solver|set_solver]
    | apply keeps_write_chunks; [solve_file_op|set_solver]
    | apply keeps_ret, effect_refl
    | apply keeps_lift, effect_refl
    | apply keeps_raise, effect_refl
    | apply keeps_may_fail, effect_refl
    | apply keeps_get_files, effect_refl
    | apply keeps_bind; [apply effect_trans| |]
    | apply keeps_try; [apply effect_trans| |]
    | apply keeps_closing; [apply effect_trans| |]
    | match goal with |- keeps _ (match ?x with _ => _ end) => destruct x end
    | match goal with |- keeps _ (if ?x then _ else _) => destruct x end ].

Lemma bind_inv {A B} (m : M A) (f : A → M B) w r w' :
  (m ≫= f) w = (r, w') →
  (∃ a w1, m w = (Ok a, w1) ∧ f a w1 = (r, w'))
  ∨ (∃ e, m w = (Raise e, w') ∧ r = Raise e).
Proof.
  unfold mbind, M_bind. destruct (m w) as [[a|e] w1].
  - intros H. left. eauto.
  - intros [= <- <-]. right. eauto.
Qed.

(** After the request, the streamed download asks for operations on
    its two files only, and changes no other file. *)
Lemma streamed_download_effect E url dest_dir safe_name cl w r w' :
  streamed_download E url dest_dir safe_name cl w = (r, w') →
  ∃ ops,
    trace w' = trace w ++ EvGet url :: ops
    ∧ Forall (file_op dest_dir safe_name) ops
    ∧ same_files_except
        [path_join dest_dir safe_name; path_join dest_dir safe_name ++ lit ".part"] w w'.
Proof.
  set (paths := [path_join dest_dir safe_name; path_join dest_dir safe_name ++ lit ".part"]).
  unfold streamed_download, session_get. intros H.
  apply bind_inv in H as [(resp & w1 & Hget & H)|(e & Hget & ->)].
  - apply bind_inv in Hget as [([] & w0 & Hrec & Hget)|(e & Hrec & _)];
      [|by unfold record in Hrec].
    unfold record in Hrec. injection Hrec as <-.
    apply bind_inv in Hget as [([] & w2 & Hf & Hget)|(e & Hf & ?)]; [|done].
    injection Hget as <- <-.
    unfold may_fail in Hf. destruct (fault E StGet); [done|]. injection Hf as <-.
    match type of H with ?m _ = _ =>
      assert (Hk : keeps (effect_within (file_op dest_dir safe_name) paths) m)
        by (unfold paths; solve_keeps)
    end.
    apply Hk in H.
    destruct H as [(ops & Ht & Hops) Hfiles]. exists ops.
    split; [|done]. rewrite Ht. simpl. by rewrite <- app_assoc.
  - apply bind_inv in Hget as [([] & w0 & Hrec & Hget)|(e' & Hrec & _)];
      [|by unfold record in Hrec].
    unfold record in Hrec. injection Hrec as <-.
    apply bind_inv in Hget as [([] & w2 & Hf & Hget)|(e' & Hf & _)]; [done|].
    unfold may_fail in Hf. destruct (fault E StGet); [|done]. injection Hf as <- <-.
    exists []. split; [done|]. split; [done|]. by intros p _.
Qed.

(** The ways of [download_with_resume] once the name is known: it ends
    after the probe, with a skip or an exception of the test of the
    size; or it goes on to the streamed download. *)
Lemma download_with_resume_cases E url dest_dir safe_name w r w' :
  safe_basename_from_url url = Ok safe_name →
  download_with_resume E url dest_dir w = (r, w') →
  (w' = emit (EvHead url) w
   ∧ (r = Ok (true, MsgSkip safe_name) ∨ ∃ e, r = Ok (false, MsgException e url)))
  ∨ (∃ r1,
       streamed_download E url dest_dir safe_name (probed_size E) (emit (EvHead url) w)
       = (r1, w')
       ∧ r = match r1 with Ok a => Ok a | Raise e => Ok (false, MsgException e url) end).
Proof.
  intros Hname. unfold download_with_resume, try_except.
  unfold mbind at 1, M_bind at 1. unfold lift at 1. rewrite Hname.
  unfold mbind at 1, M_bind at 1. rewrite probe_content_length_eq.
  unfold mbind at 1, M_bind at 1. unfold os_path_exists at 1.
  unfold mbind at 1, M_bind at 1. unfold get_files at 1. unfold mret at 1, M_ret at 1.
  unfold mbind at 1, M_bind at 1.
  assert (Hskip : ∃ s : result bool,
            (match probed_size E with
             | Some expected =>
                 if bool_decide (is_Some (files (emit (EvHead url) w)
                                            !! path_join dest_dir safe_name))
                 then local_size ← os_path_getsize E (path_join dest_dir safe_name);
                      mret (local_size =? expected)
                 else mret false
             | None => mret false
             end : M bool) (emit (EvHead url) w) = (s, emit (EvHead url) w)).
  { destruct (probed_size E) as [n|]; [|by eexists].
    destruct (bool_decide _); [|by eexists].
    unfold os_path_getsize, may_fail, get_files, raise, mbind, M_bind, mret, M_ret.
    destruct (fault E StGetsize); [by eexists|].
    destruct (files (emit (EvHead url) w) !! path_join dest_dir safe_name); by eexists. }
  destruct Hskip as [s ->]. destruct s as [[|]|e].
  - intros [= <- <-]. left. auto.
  - intros H. right.
    destruct (streamed_download _ _ _ _ _ _) as [[a|e] w1] eqn:Hs.
    + injection H as <- <-. by exists (Ok a).
    + injection H as <- <-. by exists (Raise e).
  - intros [= <- <-]. left. eauto.
Qed.

(** X10. What a fetch asks of the outside: nothing at all when the URL
    has no name; otherwise one HEAD request and at most one GET request
    after it, both for the URL it was given, and then only operations
    on its own two files, the temporary file being the only one opened,
    written or removed, and the destination changing by the renaming of
    the temporary file only.  No file at another path is changed. *)
Theorem download_with_resume_effects
    (E : env) (url dest_dir : str) (w : world) (r : result (bool * message)) (w' : world) :
  download_with_resume E url dest_dir w = (r, w') →
  match safe_basename_from_url url with
  | Raise e => r = Ok (false, MsgException e url) ∧ w' = w
  | Ok safe_name =>
      (trace w' = trace w ++ [EvHead url]
       ∨ ∃ ops, trace w' = trace w ++ EvHead url :: EvGet url :: ops
                ∧ Forall (file_op dest_dir safe_name) ops)
      ∧ same_files_except
          [path_join dest_dir safe_name; path_join dest_dir safe_name ++ lit ".part"] w w'
  end.
Proof.
  destruct (safe_basename_from_url url) as [safe_name|e] eqn:Hname; intros H.
  - apply (download_with_resume_cases E url dest_dir safe_name w r w' Hname) in H
      as [[-> _]|(r1 & Hs & _)].
    + split; [by left|]. by intros p _.
    + apply streamed_download_effect in Hs as (ops & Ht & Hops & Hfiles).
      split; [|done]. right. exists ops. split; [|done].
      rewrite Ht. simpl. by rewrite <- app_assoc.
  - unfold download_with_resume, try_except in H.
    unfold mbind at 1, M_bind at 1 in H. unfold lift at 1 in H. rewrite Hname in H.
    by injection H as <- <-.
Qed.

Lemma download_with_resume_effects_witness :
  ∃ r w',
    download_with_resume (sample_env (Some "6"%string) remove_fails) sample_url IMAGES_DIR
      world_with_file = (r, w')
    ∧ (trace w' = trace world_with_file ++ [EvHead sample_url]
       ∨ ∃ ops, trace w' = trace world_with_file ++ EvHead sample_url :: EvGet sample_url :: ops
                ∧ Forall (file_op IMAGES_DIR (lit "b.png")) ops)
    ∧ same_files_except
        [path_join IMAGES_DIR (lit "b.png"); path_join IMAGES_DIR (lit "b.png") ++ lit ".part"]
        world_with_file w'.
Proof.
  eexists _, _. split; [vm_compute; reflexivity|].
  match goal with |- context [same_files_except _ _ ?w'] =>
    pose proof (download_with_resume_effects (sample_env (Some "6"%string) remove_fails)
                  sample_url IMAGES_DIR world_with_file
                  (Ok (false, MsgIncomplete 5 6 (lit "b.png"))) w') as H
  end.
  rewrite sample_url_name in H. apply H. vm_compute. reflexivity.
Defined.

(** A step that leaves the destination alone, followed by steps that
    change it only when they end with [good]. *)
Lemma dest_kept_bind {A B} (m : M A) (f : A → M B) (dest temp : str) (good : B) :
  dest ≠ temp →
  keeps (effect_within (fun _ => True) [temp]) m →
  (∀ a w r w', f a w = (r, w') → files w' !! dest = files w !! dest ∨ r = Ok good) →
  ∀ w r w', (m ≫= f) w = (r, w') → files w' !! dest = files w !! dest ∨ r = Ok good.
Proof.
  intros Hne Hm Hf w r w' H.
  apply bind_inv in H as [(a & w1 & Hk & H)|(e & Hk & ->)].
  - apply Hm in Hk as [_ Hk]. apply Hf in H as [H|H]; [|by right].
    left. rewrite H. apply Hk. by intros ?%list_elem_of_singleton.
  - apply Hm in Hk as [_ Hk]. left. apply Hk. by intros ?%list_elem_of_singleton.
Qed.

Lemma dest_kept {A} (m : M A) (dest temp : str) :
  dest ≠ temp →
  keeps (effect_within (fun _ => True) [temp]) m →
  ∀ w r w', m w = (r, w') → files w' !! dest = files w !! dest.
Proof.
  intros Hne Hm w r w' H. apply Hm in H as [_ H]. apply H.
  by intros ?%list_elem_of_singleton.
Qed.

Lemma os_replace_raises E src dst w e w' :
  os_replace E src dst w = (Raise e, w') → files w' = files w.
Proof.
  unfold os_replace, record, may_fail, get_files, put_files, raise, mbind, M_bind.
  destruct (fault E StReplace); [by intros [= _ <-]|]. simpl.
  destruct (files w !! src); [done|]. by intros [= _ <-].
Qed.

(** The streamed download changes the destination only when it ends
    with the message of a completed download, provided that closing the
    answer does not raise. *)
Lemma streamed_download_dest E url dest_dir safe_name cl w r w' :
  fault E StCloseResponse = None →
  streamed_download E url dest_dir safe_name cl w = (r, w') →
  files w' !! path_join dest_dir safe_name = files w !! path_join dest_dir safe_name
  ∨ r = Ok (true, MsgDownloaded safe_name).
Proof.
  intros Hclose. revert w r w'. unfold streamed_download.
  set (dest := path_join dest_dir safe_name). set (temp := dest ++ lit ".part").
  pose proof (temp_path_fresh dest) as Hne. fold temp in Hne.
  apply dest_kept_bind with (temp := temp); [done|unfold session_get; solve_keeps|].
  intros resp w r w' H. unfold closing in H.
  match type of H with (let '(_, _) := ?m _ in _) = _ =>
    destruct (m w) as [r1 w1] eqn:Hbody
  end.
  unfold may_fail in H. rewrite Hclose in H. injection H as <- <-.
  revert w r1 w1 Hbody.
  destruct (negb (status_code resp =? 200)).
  { intros w r1 w1 [= <- <-]. by left. }
  apply dest_kept_bind with (temp := temp); [done|solve_keeps|]. intros cl'.
  apply dest_kept_bind with (temp := temp); [done|solve_keeps|]. intros _.
  apply dest_kept_bind with (temp := temp); [done|solve_keeps|]. intros _.
  apply dest_kept_bind with (temp := temp); [done|solve_keeps|]. intros total.
  cbv zeta. destruct (match cl' with Some expected => negb (total =? expected) | None => false end).
  - intros w r1 w1 H. left. revert H. apply dest_kept with (temp := temp); [done|].
    solve_keeps.
  - intros w r1 w1 H.
    apply bind_inv in H as [([] & w2 & Hk & H)|(e & Hk & ->)].
    + injection H as <- <-. by right.
    + left. apply os_replace_raises in Hk. by rewrite Hk.
Qed.

(** X11. A fetch that does not report a completed download leaves the
    destination file as it was, whether it skipped, met an HTTP error,
    an incomplete body or an exception at any call; this holds when
    closing the answer of the server does not itself raise. *)
Theorem destination_changes_only_when_downloaded
    (E : env) (url dest_dir safe_name : str) (w : world)
    (r : result (bool * message)) (w' : world) :
  fault E StCloseResponse = None →
  safe_basename_from_url url = Ok safe_name →
  download_with_resume E url dest_dir w = (r, w') →
  files w' !! path_join dest_dir safe_name = files w !! path_join dest_dir safe_name
  ∨ r = Ok (true, MsgDownloaded safe_name).
Proof.
  intros Hclose Hname H.
  apply (download_with_resume_cases E url dest_dir safe_name w r w' Hname) in H
    as [[-> _]|(r1 & Hs & ->)]; [by left|].
  apply (streamed_download_dest _ _ _ _ _ _ _ _ Hclose) in Hs as [Hs| ->]; [|by right].
  by left.
Qed.

Lemma destination_changes_only_when_downloaded_witness :
  ∃ r w',
    download_with_resume (sample_env (Some "6"%string) no_fault) sample_url IMAGES_DIR
      world_with_file = (r, w')
    ∧ (files w' !! path_join IMAGES_DIR (lit "b.png")
       = files world_with_file !! path_join IMAGES_DIR (lit "b.png")
       ∨ r = Ok (true, MsgDownloaded (lit "b.png"))).
Proof.
  eexists _, _. split; [vm_compute; reflexivity|].
  apply (destination_changes_only_when_downloaded (sample_env (Some "6"%string) no_fault)
           sample_url IMAGES_DIR (lit "b.png") world_with_file);
    vm_compute; reflexivity.
Defined.

(** ** The outcomes of a fetch *)

(** The answer to the GET request has another status than 200. *)
Lemma http_error_path E url dest_dir safe_name cl w :
  fault E StGet = None →
  fault E StCloseResponse = None →
  status_code (get_response E) ≠ 200 →
  streamed_download E url dest_dir safe_name cl w
  = (Ok (false, MsgHTTP (status_code (get_response E)) url), emit (EvGet url) w).
Proof.
  intros Hget Hclose Hstatus.
  unfold streamed_download, session_get.
  unfold mbind at 1, M_bind at 1. unfold mbind at 1, M_bind at 1.
  unfold record at 1. unfold mbind at 1, M_bind at 1. unfold may_fail at 1.
  rewrite Hget. unfold mret at 1, M_ret at 1.
  apply Z.eqb_neq in Hstatus. rewrite Hstatus. simpl negb. cbv iota.
  unfold closing, may_fail, mret, M_ret. by rewrite Hclose.
Qed.

(** X12. A GET answer with another status than 200 is reported as a
    failure with that status and the URL; nothing is written and the
    destination directory is not even created: the fetch consists of
    the HEAD request and the GET request. *)
Theorem http_error_is_reported
    (E : env) (url dest_dir : str) (w : world) (safe_name : str) :
  safe_basename_from_url url = Ok safe_name →
  fault E StGet = None →
  fault E StCloseResponse = None →
  (probed_size E ≠ None → fault E StGetsize = None) →
  size_matches E w (path_join dest_dir safe_name) = false →
  status_code (get_response E) ≠ 200 →
  ∃ w',
    download_with_resume E url dest_dir w
    = (Ok (false, MsgHTTP (status_code (get_response E)) url), w')
    ∧ files w' = files w
    ∧ trace w' = trace w ++ [EvHead url; EvGet url].
Proof.
  intros Hname Hget Hclose Hsize Hskip Hstatus.
  rewrite (download_no_skip E url dest_dir w safe_name Hname Hskip Hsize).
  unfold try_except. rewrite http_error_path by done.
  eexists. split; [done|]. split; [done|]. simpl. by rewrite <- app_assoc.
Qed.

Lemma http_error_is_reported_witness :
  ∃ w',
    download_with_resume not_found_env sample_url IMAGES_DIR world_with_file
    = (Ok (false, MsgHTTP 404 sample_url), w')
    ∧ files w' = files world_with_file
    ∧ trace w' = [EvHead sample_url; EvGet sample_url].
Proof.
  destruct (http_error_is_reported not_found_env sample_url IMAGES_DIR world_with_file
              (lit "b.png") sample_url_name)
    as (w' & Hrun & Hfiles & Htrace);
    try (vm_compute; reflexivity); try (vm_compute; discriminate).
  exists w'. split; [exact Hrun|]. split; [exact Hfiles|exact Htrace].
Defined.

(** X13. The download that is verified: when an expected size is known,
    from the HEAD probe or from the GET answer, and the number of bytes
    streamed is that size, the temporary file is renamed onto the
    destination, which then holds the bytes received, in the order
    received; no temporary file remains and success is reported. *)
Theorem verified_download_is_installed
    (E : env) (url dest_dir : str) (w : world) (safe_name : str) (expected : Z) :
  safe_basename_from_url url = Ok safe_name →
  (∀ s, s ≠ StHead → s ≠ StRemove → fault E s = None) →
  status_code (get_response E) = 200 →
  expected_size E = Ok (Some expected) →
  let dest_path := path_join dest_dir safe_name in
  let temp_path := dest_path ++ lit ".part" in
  let data := concat (body (get_response E)) in
  size_matches E w dest_path = false →
  Z.of_nat (length data) = expected →
  ∃ w',
    download_with_resume E url dest_dir w = (Ok (true, MsgDownloaded safe_name), w')
    ∧ files w' !! dest_path = Some data
    ∧ files w' !! temp_path = None
    ∧ trace w' = trace w ++ [EvHead url; EvGet url; EvMakedirs dest_dir; EvOpen temp_path]
                   ++ chunk_writes temp_path (body (get_response E))
                   ++ [EvReplace temp_path dest_path].
Proof.
  intros Hname Hfault Hstatus Hexp dest_path temp_path data Hskip Hlen.
  rewrite (download_no_skip E url dest_dir w safe_name Hname Hskip).
  2:{ intros _. by apply Hfault. }
  destruct (streamed_download_run E url dest_dir safe_name (emit (EvHead url) w)
              (Some expected)) as (w' & Hrun & Hfiles & Htrace); [|done..|].
  { intros s H1 _ H2. by apply Hfault. }
  fold dest_path temp_path data in Hrun, Hfiles, Htrace.
  apply Z.eqb_eq in Hlen. rewrite Hlen in Hrun, Hfiles, Htrace.
  unfold try_except. rewrite Hrun. exists w'. split; [done|].
  pose proof (temp_path_fresh dest_path) as Hfresh. fold temp_path in Hfresh.
  split; [|split].
  - rewrite Hfiles. apply lookup_insert_eq.
  - rewrite Hfiles. rewrite lookup_insert_ne by done. apply lookup_delete_eq.
  - rewrite Htrace. simpl. by rewrite <- app_assoc.
Qed.

Lemma verified_download_is_installed_witness :
  ∃ w',
    download_with_resume (sample_env (Some "5"%string) no_fault) sample_url IMAGES_DIR
      empty_world
    = (Ok (true, MsgDownloaded (lit "b.png")), w')
    ∧ files w' !! lit "images/b.png" = Some [1; 2; 3; 4; 5]
    ∧ files w' !! lit "images/b.png.part" = None.
Proof.
  destruct (verified_download_is_installed (sample_env (Some "5"%string) no_fault)
              sample_url IMAGES_DIR empty_world (lit "b.png") 5 sample_url_name)
    as (w' & Hrun & Hdest & Htemp & _); try (vm_compute; reflexivity).
  exists w'. split; [exact Hrun|]. split; [exact Hdest|exact Htemp].
Defined.

Lemma size_matches_true E w dest :
  size_matches E w dest = true →
  ∃ data expected,
    files w !! dest = Some data ∧ probed_size E = Some expected
    ∧ Z.of_nat (length data) = expected.
Proof.
  unfold size_matches. destruct (probed_size E) as [n|]; [|done].
  destruct (files w !! dest) as [data|]; [|done].
  intros H%Z.eqb_eq. eauto.
Qed.

(** X14. Running a fetch again transfers nothing: when the HEAD probe
    gives a size and no call fails, a fetch that reported success,
    whether it downloaded or already skipped, is followed, for the same
    URL and the same answers of the server, by a fetch that skips after
    its HEAD request. *)
Theorem second_fetch_skips
    (E : env) (url dest_dir : str) (w w1 : world) (msg : message) (expected : Z) :
  (∀ s, fault E s = None) →
  probed_size E = Some expected →
  download_with_resume E url dest_dir w = (Ok (true, msg), w1) →
  ∃ safe_name,
    safe_basename_from_url url = Ok safe_name
    ∧ download_with_resume E url dest_dir w1
      = (Ok (true, MsgSkip safe_name), emit (EvHead url) w1).
Proof.
  intros Hfault Hprobe Hrun.
  destruct (safe_basename_from_url url) as [safe_name|e] eqn:Hname.
  2:{ unfold download_with_resume, try_except in Hrun.
      unfold mbind at 1, M_bind at 1 in Hrun. unfold lift at 1 in Hrun.
      rewrite Hname in Hrun. done. }
  exists safe_name. split; [done|].
  destruct (size_matches E w (path_join dest_dir safe_name)) eqn:Hskip.
  - apply size_matches_true in Hskip as (data & n & Hfile & Hp & Hlen).
    rewrite (skip_path E url dest_dir w safe_name data n) in Hrun by done.
    injection Hrun as <- <-.
    by apply (skip_path E url dest_dir _ safe_name data n).
  - rewrite (download_no_skip E url dest_dir w safe_name Hname Hskip) in Hrun by done.
    unfold try_except in Hrun.
    destruct (Z.eq_dec (status_code (get_response E)) 200) as [Hstatus|Hstatus].
    + destruct (streamed_download_run E url dest_dir safe_name (emit (EvHead url) w)
                  (Some expected)) as (w' & Hs & Hfiles & _); [done..| |].
      { unfold expected_size. by rewrite Hprobe. }
      rewrite Hs in Hrun.
      destruct (Z.eqb_spec (Z.of_nat (length (concat (body (get_response E))))) expected)
        as [Hlen|Hlen]; [|done].
      injection Hrun as <- <-.
      apply (skip_path E url dest_dir _ safe_name (concat (body (get_response E))) expected);
        try done.
      rewrite Hfiles. apply lookup_insert_eq.
    + rewrite http_error_path in Hrun by done. done.
Qed.

Lemma second_fetch_skips_witness :
  ∃ w1,
    download_with_resume (sample_env (Some "5"%string) no_fault) sample_url IMAGES_DIR
      empty_world
    = (Ok (true, MsgDownloaded (lit "b.png")), w1)
    ∧ ∃ safe_name,
        safe_basename_from_url sample_url = Ok safe_name
        ∧ download_with_resume (sample_env (Some "5"%string) no_fault) sample_url IMAGES_DIR w1
          = (Ok (true, MsgSkip safe_name), emit (EvHead sample_url) w1).
Proof.
  eexists. split; [vm_compute; reflexivity|].
  apply (second_fetch_skips (sample_env (Some "5"%string) no_fault) sample_url IMAGES_DIR
           empty_world _ (MsgDownloaded (lit "b.png")) 5);
    [done|vm_compute; reflexivity|vm_compute; reflexivity].
Defined.

(** ** What a fetch depends on *)

Lemma bind_ext {A B} (m m' : M A) (f f' : A → M B) w :
  m w = m' w → (∀ a w1, m w = (Ok a, w1) → f a w1 = f' a w1) →
  (m ≫= f) w = (m' ≫= f') w.
Proof.
  unfold mbind, M_bind. intros <- Hf. destruct (m w) as [[a|e] w1]; [by apply Hf|done].
Qed.

Lemma try_ext {A} (m m' : M A) (h h' : exn → M A) w :
  m w = m' w → (∀ e w1, h e w1 = h' e w1) → try_except m h w = try_except m' h' w.
Proof. unfold try_except. intros <- Hh. destruct (m w) as [[a|e] w1]; [done|apply Hh]. Qed.

Lemma closing_ext {A} (c c' : M unit) (m m' : M A) w :
  (∀ w1, c w1 = c' w1) → m w = m' w → closing c m w = closing c' m' w.
Proof. unfold closing. intros Hc <-. destruct (m w) as [r w1]. by rewrite Hc. Qed.

Lemma session_get_bind {B} E url (k : response → M B) w :
  (session_get E url ≫= k) w
  = match fault E StGet with
    | Some e => (Raise e, emit (EvGet url) w)
    | None => k (get_response E) (emit (EvGet url) w)
    end.
Proof.
  unfold session_get, record, may_fail, mbind, M_bind, mret, M_ret.
  by destruct (fault E StGet).
Qed.

Section SameFetch.
Variables E E' : env.
Hypothesis Hfault : ∀ s, s ≠ StHead → fault E s = fault E' s.

Lemma may_fail_ext s w : s ≠ StHead → may_fail E s w = may_fail E' s w.
Proof. intros Hs. unfold may_fail. by rewrite Hfault. Qed.

Ltac ext_primitive :=
  repeat first [ apply bind_ext; [|intros] | apply may_fail_ext; done | done ].

Lemma ensure_dir_ext d w : ensure_dir E d w = ensure_dir E' d w.
Proof. unfold ensure_dir. ext_primitive. Qed.

Lemma open_wb_ext p w : open_wb E p w = open_wb E' p w.
Proof. unfold open_wb. ext_primitive. Qed.

Lemma file_write_ext p i chunk w : file_write E p i chunk w = file_write E' p i chunk w.
Proof. unfold file_write. ext_primitive. Qed.

Lemma os_remove_ext p w : os_remove E p w = os_remove E' p w.
Proof. unfold os_remove. ext_primitive. Qed.

Lemma os_replace_ext src dst w : os_replace E src dst w = os_replace E' src dst w.
Proof. unfold os_replace. ext_primitive. Qed.

Lemma os_path_getsize_ext p w : os_path_getsize E p w = os_path_getsize E' p w.
Proof. unfold os_path_getsize. ext_primitive. Qed.

Lemma write_chunks_ext p chunks : ∀ i total w,
  write_chunks E p chunks i total w = write_chunks E' p chunks i total w.
Proof.
  induction chunks as [|c chunks IH]; intros i total w; simpl.
  - ext_primitive.
  - apply bind_ext; [by apply may_fail_ext|]. intros _ w1 _.
    apply bind_ext; [|intros; apply IH].
    destruct (bool_decide (c = [])); [done|].
    apply bind_ext; [apply file_write_ext|done].
Qed.

Lemma streamed_download_ext url dest_dir safe_name cl w :
  status_code (get_response E) = status_code (get_response E') →
  body (get_response E) = body (get_response E') →
  (cl = None →
   content_length_header (get_response E) = content_length_header (get_response E')) →
  streamed_download E url dest_dir safe_name cl w
  = streamed_download E' url dest_dir safe_name cl w.
Proof.
  intros Hstatus Hbody Hheader. unfold streamed_download.
  rewrite !session_get_bind. rewrite <- (Hfault StGet) by done.
  destruct (fault E StGet); [done|].
  apply closing_ext; [intros; by apply may_fail_ext|].
  rewrite <- Hstatus, <- Hbody.
  destruct (negb (status_code (get_response E) =? 200)); [done|].
  apply bind_ext.
  { destruct cl; [done|]. by rewrite Hheader. }
  intros cl' w1 _.
  apply bind_ext; [apply ensure_dir_ext|]. intros _ w2 _.
  apply bind_ext; [apply open_wb_ext|]. intros _ w3 _.
  apply bind_ext.
  { apply closing_ext; [intros; by apply may_fail_ext|].
    apply bind_ext; [apply write_chunks_ext|]. intros total w4 _.
    apply bind_ext; [by apply may_fail_ext|done]. }
  intros total w4 _. cbv zeta.
  destruct (match cl' with Some expected => negb (total =? expected) | None => false end).
  - apply bind_ext; [|done]. apply try_ext; [apply os_remove_ext|done].
  - apply bind_ext; [apply os_replace_ext|done].
Qed.
End SameFetch.

(** X15. A fetch depends on the answer to the HEAD request only
    through the size the probe yields, and on the Content-Length of the
    GET answer only when the probe yields none: two environments that
    agree on that size, on the status and the body of the GET answer,
    on its Content-Length when the probe gives no size, and on the
    failures of the other calls, give the same result and the same
    world.  So a HEAD request that raises, one answered by another
    status than 200, and one answered without a usable Content-Length
    lead to the same fetch; and once HEAD announced a size, the length
    announced with the body is not read. *)
Theorem fetch_depends_on_probed_size (E E' : env) (url dest_dir : str) (w : world) :
  same_fetch E E' →
  download_with_resume E url dest_dir w = download_with_resume E' url dest_dir w.
Proof.
  intros (Hprobe & Hstatus & Hbody & Hheader & Hfault).
  unfold download_with_resume.
  apply try_ext; [|done].
  apply bind_ext; [done|]. intros safe_name w1 _.
  apply bind_ext.
  { rewrite !probe_content_length_eq. by rewrite Hprobe. }
  intros cl w2 Hcl. rewrite probe_content_length_eq in Hcl. injection Hcl as <- <-.
  apply bind_ext; [done|]. intros dest_exists w3 _.
  apply bind_ext.
  { destruct (probed_size E); [|done]. destruct dest_exists; [|done].
    apply bind_ext; [by apply os_path_getsize_ext|done]. }
  intros skip w4 _. destruct skip; [done|].
  by apply streamed_download_ext.
Qed.

Lemma fetch_depends_on_probed_size_witness :
  same_fetch (sample_env None head_raises) head_500_env
  ∧ download_with_resume (sample_env None head_raises) sample_url IMAGES_DIR empty_world
    = download_with_resume head_500_env sample_url IMAGES_DIR empty_world.
Proof.
  assert (H : same_fetch (sample_env None head_raises) head_500_env).
  { split; [reflexivity|]. split; [reflexivity|]. split; [reflexivity|].
    split; [intros _; reflexivity|]. intros s Hs. by destruct s. }
  split; [exact H|]. exact (fetch_depends_on_probed_size _ _ _ _ _ H).
Defined.

(** ** A Content-Length that is no number *)

Lemma py_int_refuses cl :
  forallb is_ascii_digit cl = false ∨ (4300 < length cl)%nat →
  ∃ template, py_int cl = Raise (ValueError template cl).
Proof.
  unfold py_int. intros [H|H].
  - rewrite H. by eexists.
  - destruct (forallb is_ascii_digit cl); simpl; [|by eexists].
    apply Nat.ltb_lt in H. rewrite H. by eexists.
Qed.

(** X16. A Content-Length that [str.isdigit] accepts and [int] refuses
    (a superscript digit, or more than 4300 digits): with the answer to
    HEAD it is ignored, the probe yields no size; with the answer to
    GET, when the probe gave none, the [ValueError] of [int] ends the
    fetch, which reports the exception after its two requests, without
    creating the directory or any file. *)
Theorem content_length_refused_by_int
    (E : env) (url dest_dir : str) (w : world) (safe_name : str) (cl : string) :
  safe_basename_from_url url = Ok safe_name →
  cl_is_digits (Some cl) = true →
  forallb is_ascii_digit (lit cl) = false ∨ (4300 < length (lit cl))%nat →
  (status_code (head_response E) = 200 →
   content_length_header (head_response E) = Some cl →
   probed_size E = None)
  ∧ (probed_size E = None →
     fault E StGet = None →
     fault E StCloseResponse = None →
     status_code (get_response E) = 200 →
     content_length_header (get_response E) = Some cl →
     ∃ template w',
       download_with_resume E url dest_dir w
       = (Ok (false, MsgException (ValueError template (lit cl)) url), w')
       ∧ files w' = files w
       ∧ trace w' = trace w ++ [EvHead url; EvGet url]).
Proof.
  intros Hname Hdigits Hint.
  destruct (py_int_refuses (lit cl) Hint) as [template Hraise].
  assert (Hread : read_content_length (Some cl) = Raise (ValueError template (lit cl))).
  { unfold read_content_length. rewrite Hdigits, Hraise. done. }
  split.
  - intros Hstatus Hheader. unfold probed_size.
    destruct (fault E StHead); [done|]. rewrite Hstatus, Hheader, Hread. done.
  - intros Hprobe Hget Hclose Hstatus Hheader.
    rewrite (download_no_skip E url dest_dir w safe_name Hname).
    2:{ unfold size_matches. by rewrite Hprobe. }
    2:{ by rewrite Hprobe. }
    unfold try_except, streamed_download. rewrite session_get_bind, Hget, Hprobe.
    rewrite Hstatus, Hheader, Hread. simpl negb. cbv iota.
    unfold closing, lift, may_fail, mbind, M_bind, mret, M_ret. rewrite Hclose.
    exists template. eexists. split; [done|]. split; [done|].
    simpl. by rewrite <- app_assoc.
Qed.

Lemma content_length_refused_by_int_witness :
  probed_size superscript_env = None
  ∧ ∃ template w',
      download_with_resume superscript_env sample_url IMAGES_DIR empty_world
      = (Ok (false, MsgException (ValueError template (lit superscript_two)) sample_url), w')
      ∧ files w' = files empty_world
      ∧ trace w' = trace empty_world ++ [EvHead sample_url; EvGet sample_url].
Proof.
  destruct (content_length_refused_by_int superscript_env sample_url IMAGES_DIR empty_world
              (lit "b.png") superscript_two sample_url_name) as [Hhead Hget].
  { vm_compute. reflexivity. }
  { left. vm_compute. reflexivity. }
  split; [apply Hhead; reflexivity|].
  apply Hget; vm_compute; reflexivity.
Defined.

(** ** The batch *)

Lemma before_no_sep sep s : Forall (fun c => c ≠ sep) (before sep s).
Proof.
  induction s as [|c s IH]; [constructor|]. rewrite before_cons.
  destruct (Z.eqb_spec c sep); [constructor|by constructor].
Qed.

Lemma lstrip_Forall (P : Z → Prop) drop s : Forall P s → Forall P (lstrip drop s).
Proof.
  induction 1 as [|c s Hc Hs IH]; [constructor|]. simpl.
  destruct (drop c); [done|by constructor].
Qed.

Lemma strip_Forall (P : Z → Prop) s : Forall P s → Forall P (strip s).
Proof.
  intros H. unfold strip, rstrip. apply Forall_rev, lstrip_Forall, Forall_rev.
  by apply lstrip_Forall.
Qed.

Lemma contains_false c s : Forall (fun x => x ≠ c) s → contains c s = false.
Proof.
  induction 1 as [|x s Hx _ IH]; [done|]. unfold contains in *. simpl.
  rewrite IH. by destruct (Z.eqb_spec c x).
Qed.

(** The request URL holds no [#]. *)
Lemma url_for_req_no_hash url : contains 35 (url_for_req url) = false.
Proof.
  apply contains_false. unfold url_for_req. apply strip_Forall.
  rewrite split_on_hd. apply (before_no_sep 35).
Qed.

Lemma batch_event_mono url img_list images_dir ev :
  batch_event img_list images_dir ev → batch_event (url :: img_list) images_dir ev.
Proof.
  destruct ev; simpl; try done;
    try (intros (u & n & Hin & H); exists u, n; split; [by right|done]);
    intros (Hh & u & Hin & ->); (split; [done|]); exists u; (split; [by right|done]).
Qed.

Lemma batch_path_mono url img_list images_dir p :
  batch_path img_list images_dir p → batch_path (url :: img_list) images_dir p.
Proof. intros (u & n & Hin & H). exists u, n. split; [by right|done]. Qed.

(** One fetch of the batch. *)
Lemma batch_fetch_effects E url img_list images_dir w r w' :
  download_with_resume E (url_for_req url) images_dir w = (r, w') →
  (∃ later, trace w' = trace w ++ later
            ∧ Forall (batch_event (url :: img_list) images_dir) later)
  ∧ ∀ p, files w' !! p ≠ files w !! p → batch_path (url :: img_list) images_dir p.
Proof.
  destruct (safe_basename_from_url (url_for_req url)) as [safe_name|e] eqn:Hname; intros H.
  - assert (Hreq : contains 35 (url_for_req url) = false
                   ∧ ∃ u, u ∈ url :: img_list ∧ url_for_req url = url_for_req u).
    { split; [apply url_for_req_no_hash|]. exists url. split; [by left|done]. }
    apply (download_with_resume_cases E _ images_dir safe_name w r w' Hname) in H
      as [[-> _]|(r1 & Hs & _)].
    + split; [|by intros p Hp]. eexists. split; [done|]. constructor; [exact Hreq|constructor].
    + apply streamed_download_effect in Hs as (ops & Ht & Hops & Hfiles). split.
      * eexists. split; [rewrite Ht; simpl; by rewrite <- app_assoc|].
        constructor; [exact Hreq|]. constructor; [exact Hreq|].
        eapply Forall_impl; [exact Hops|]. intros ev Hev.
        destruct ev; try done; exists url, safe_name; (split; [by left|done]).
      * intros p Hp. exists url, safe_name. split; [by left|]. split; [done|].
        destruct (decide (p = path_join images_dir safe_name)) as [->|H1]; [by left|].
        destruct (decide (p = path_join images_dir safe_name ++ lit ".part")) as [->|H2];
          [by right|].
        exfalso. apply Hp. rewrite Hfiles; [done|].
        rewrite !elem_of_cons, elem_of_nil. tauto.
  - unfold download_with_resume, try_except in H.
    unfold mbind at 1, M_bind at 1 in H. unfold lift at 1 in H. rewrite Hname in H.
    injection H as <- <-. split; [exists []; by rewrite app_nil_r|]. by intros p Hp.
Qed.

Lemma batch_loop_effects envs images_dir img_list : ∀ i results w r w',
  batch_loop envs i img_list images_dir results w = (r, w') →
  (∃ later, trace w' = trace w ++ later ∧ Forall (batch_event img_list images_dir) later)
  ∧ ∀ p, files w' !! p ≠ files w !! p → batch_path img_list images_dir p.
Proof.
  induction img_list as [|url img_list IH]; intros i results w r w' H.
  - injection H as <- <-. split; [exists []; by rewrite app_nil_r|]. by intros p Hp.
  - simpl in H.
    apply bind_inv in H as [([success msg] & w1 & Hfetch & H)|(e & Hfetch & ->)].
    + apply (batch_fetch_effects _ _ img_list) in Hfetch as [(l1 & Ht1 & Hl1) Hf1].
      apply bind_inv in H as [([] & w2 & Hprint & H)|(e & Hprint & ->)];
        [|by unfold record in Hprint].
      unfold record in Hprint. injection Hprint as <-.
      apply IH in H as [(l2 & Ht2 & Hl2) Hf2]. split.
      * exists (l1 ++ [EvPrint success msg] ++ l2). split.
        -- rewrite Ht2. simpl. rewrite Ht1. by rewrite <- !app_assoc.
        -- apply Forall_app. split; [done|]. constructor; [done|].
           eapply Forall_impl; [exact Hl2|]. apply batch_event_mono.
      * intros p Hp.
        destruct (decide (files w1 !! p = files w !! p)) as [Heq|Hne]; [|by apply Hf1].
        apply batch_path_mono, Hf2. simpl. by rewrite Heq.
    + apply (batch_fetch_effects _ _ img_list) in Hfetch as [(l1 & Ht1 & Hl1) Hf1].
      split; [by exists l1|done].
Qed.

(** X17. What a batch asks of the outside: it prints; it sends
    requests for request URLs of its list only, and a request URL holds
    no fragment; it operates on the destination and the temporary file
    of its fetches only, and a file that is not one of these is left as
    it was. *)
Theorem img_download_batch_effects
    (envs : nat → env) (img_list : list str) (images_dir : str) (w : world)
    (r : result (list (str * bool * message))) (w' : world) :
  img_download_batch envs img_list images_dir w = (r, w') →
  (∃ later, trace w' = trace w ++ later ∧ Forall (batch_event img_list images_dir) later)
  ∧ ∀ p, files w' !! p ≠ files w !! p → batch_path img_list images_dir p.
Proof. apply batch_loop_effects. Qed.

Lemma img_download_batch_effects_witness :
  ∃ r w',
    img_download_batch (fun _ => sample_env (Some "5"%string) no_fault) urls_with_fragment
      IMAGES_DIR empty_world = (r, w')
    ∧ (∃ later, trace w' = trace empty_world ++ later
                ∧ Forall (batch_event urls_with_fragment IMAGES_DIR) later)
    ∧ ∀ p, files w' !! p ≠ files empty_world !! p →
           batch_path urls_with_fragment IMAGES_DIR p.
Proof.
  eexists _, _. split; [vm_compute; reflexivity|].
  eapply (img_download_batch_effects (fun _ => sample_env (Some "5"%string) no_fault)
            urls_with_fragment IMAGES_DIR empty_world). vm_compute. reflexivity.
Defined.

(** ** The round trip of a URL that has a file name *)

Lemma success_bind {A} (m : M A) (f : A → M (bool * message)) (dest : str) :
  (∀ a w msg w', f a w = (Ok (true, msg), w') → is_Some (files w' !! dest)) →
  ∀ w msg w', (m ≫= f) w = (Ok (true, msg), w') → is_Some (files w' !! dest).
Proof.
  intros Hf w msg w' H. apply bind_inv in H as [(a & w1 & _ & H)|(e & _ & ?)]; [|done].
  by eapply Hf.
Qed.

Lemma success_closing E s (m : M (bool * message)) (dest : str) :
  (∀ w msg w', m w = (Ok (true, msg), w') → is_Some (files w' !! dest)) →
  ∀ w msg w', closing (may_fail E s) m w = (Ok (true, msg), w') →
              is_Some (files w' !! dest).
Proof.
  intros Hm w msg w'. unfold closing, may_fail. destruct (m w) as [r1 w1] eqn:H.
  destruct (fault E s); [done|]. intros [= -> <-]. by eapply Hm.
Qed.

Lemma os_replace_ok E src dst w w' :
  os_replace E src dst w = (Ok tt, w') → is_Some (files w' !! dst).
Proof.
  unfold os_replace, record, may_fail, get_files, put_files, raise, mbind, M_bind.
  destruct (fault E StReplace); [done|]. simpl.
  destruct (files w !! src); [|done]. intros [= <-]. simpl. by rewrite lookup_insert_eq.
Qed.

(** A streamed download that reports success has renamed the temporary
    file to the destination. *)
Lemma streamed_success_means_file E url dest_dir safe_name cl w msg w' :
  streamed_download E url dest_dir safe_name cl w = (Ok (true, msg), w') →
  is_Some (files w' !! path_join dest_dir safe_name).
Proof.
  revert w msg w'. unfold streamed_download.
  apply success_bind. intros resp. apply success_closing.
  destruct (negb (status_code resp =? 200)); [by intros w msg w' [= ]|].
  do 4 (apply success_bind; intros ?). cbv zeta.
  destruct (match _ with Some expected => _ | None => false end).
  - apply success_bind. by intros _ w msg w' [= ].
  - intros w msg w' H. apply bind_inv in H as [([] & w1 & Hk & H)|(e & _ & ?)]; [|done].
    injection H as _ <-. by eapply os_replace_ok.
Qed.

(** A fetch that reports success leaves a file at the destination. *)
Lemma success_means_file E url dest_dir safe_name w msg w' :
  safe_basename_from_url url = Ok safe_name →
  download_with_resume E url dest_dir w = (Ok (true, msg), w') →
  is_Some (files w' !! path_join dest_dir safe_name).
Proof.
  intros Hname. unfold download_with_resume, try_except.
  unfold mbind at 1, M_bind at 1. unfold lift at 1. rewrite Hname.
  unfold mbind at 1, M_bind at 1. rewrite probe_content_length_eq.
  unfold mbind at 1, M_bind at 1. unfold os_path_exists at 1.
  unfold mbind at 1, M_bind at 1. unfold get_files at 1. unfold mret at 1, M_ret at 1.
  unfold mbind at 1, M_bind at 1.
  set (dest := path_join dest_dir safe_name).
  set (w0 := emit (EvHead url) w).
  assert (Hstream :
            match streamed_download E url dest_dir safe_name (probed_size E) w0 with
            | (Ok a, w2) => (Ok a, w2)
            | (Raise e, w2) => (Ok (false, MsgException e url), w2)
            end = (Ok (true, msg), w') → is_Some (files w' !! dest)).
  { destruct (streamed_download E url dest_dir safe_name (probed_size E) w0)
      as [[a|e] w2] eqn:Hs; [|done].
    intros [= -> <-]. by eapply streamed_success_means_file. }
  assert (Hskip : ∃ s : result bool,
            (match probed_size E with
             | Some expected =>
                 if bool_decide (is_Some (files w0 !! dest))
                 then local_size ← os_path_getsize E dest; mret (local_size =? expected)
                 else mret false
             | None => mret false
             end : M bool) w0 = (s, w0)
            ∧ (s = Ok true → is_Some (files w0 !! dest))).
  { destruct (probed_size E) as [n|]; [|by eexists].
    destruct (bool_decide (is_Some (files w0 !! dest))) eqn:Hex; [|by eexists].
    apply bool_decide_eq_true in Hex.
    unfold os_path_getsize, may_fail, get_files, raise, mbind, M_bind, mret, M_ret.
    destruct (fault E StGetsize); [by eexists|].
    destruct (files w0 !! dest) eqn:Hd; by eexists. }
  destruct Hskip as (s & -> & Hs). destruct s as [[|]|e].
  - intros [= _ <-]. by apply Hs.
  - by apply Hstream.
  - done.
Qed.

(** X18. The round trip of a URL that has a file name: for a URL
    extracted from a document, whose last path segment, decoded, is not
    empty, a fetch of [img_download_batch] that reports success has
    left a file in the directory of the images under the very name that
    [new_md] puts after the server path in the place of that URL. *)
Theorem fetched_file_is_the_one_referenced
    (E : env) (text url : str) (images_dir : str) (w : world) (msg : message) (w' : world) :
  url ∈ extract_image_urls text →
  (∀ u, urlsplit url = Ok u → unquote (basename (us_path u)) ≠ []) →
  download_with_resume E (url_for_req url) images_dir w = (Ok (true, msg), w') →
  ∃ name,
    safe_basename_from_url url = Ok name
    ∧ message_name msg = Some name
    ∧ is_Some (files w' !! path_join images_dir name)
    ∧ ∀ server_path m, group1 m = url →
        repl server_path m
        = Ok (str_replace (m_whole m) url (server_path ++ name)).
Proof.
  intros Hin Hseg Hrun.
  pose proof (extracted_names_agree text url Hin Hseg) as Hagree.
  pose proof (download_with_resume_result _ _ _ _ _ _ Hrun) as Hres.
  unfold result_for in Hres. cbn [fst snd] in Hres.
  assert (Hname : ∃ name, safe_basename_from_url (url_for_req url) = Ok name
                          ∧ message_name msg = Some name).
  { destruct msg; destruct Hres as [? Hres]; try done; eauto. }
  destruct Hname as (name & Hname & Hmsg). exists name.
  split; [by rewrite <- Hagree|]. split; [done|]. split.
  - by eapply success_means_file.
  - intros server_path m Hm. unfold repl. rewrite Hm, <- Hagree, Hname. done.
Qed.

Lemma fetched_file_is_the_one_referenced_witness :
  ∃ msg w' name,
    download_with_resume (sample_env (Some "5"%string) no_fault)
      (url_for_req (lit "http://a/b#c.png")) IMAGES_DIR empty_world = (Ok (true, msg), w')
    ∧ safe_basename_from_url (lit "http://a/b#c.png") = Ok name
    ∧ message_name msg = Some name
    ∧ is_Some (files w' !! path_join IMAGES_DIR name)
    ∧ ∀ server_path m, group1 m = lit "http://a/b#c.png" →
        repl server_path m
        = Ok (str_replace (m_whole m) (lit "http://a/b#c.png") (server_path ++ name)).
Proof.
  assert (Hrun : ∃ msg w',
            download_with_resume (sample_env (Some "5"%string) no_fault)
              (url_for_req (lit "http://a/b#c.png")) IMAGES_DIR empty_world
            = (Ok (true, msg), w')) by (eexists _, _; vm_compute; reflexivity).
  destruct Hrun as (msg & w' & Hrun). exists msg, w'.
  destruct (fetched_file_is_the_one_referenced (sample_env (Some "5"%string) no_fault)
              doc_sample (lit "http://a/b#c.png") IMAGES_DIR empty_world msg w')
    as (name & H); [vm_compute; left| |exact Hrun|].
  - intros u Hu. vm_compute in Hu. injection Hu as <-. vm_compute. discriminate.
  - exists name. split; [exact Hrun|exact H].
Defined.

(** ** UTF-8: what is read can be written back *)

Lemma lor_shiftl hi lo k :
  0 ≤ k → 0 ≤ lo < 2 ^ k → Z.lor (Z.shiftl hi k) lo = hi * 2 ^ k + lo.
Proof.
  intros Hk Hlo.
  assert (Hland : Z.land (Z.shiftl hi k) lo = 0).
  { apply Z.bits_inj'. intros n Hn. rewrite Z.land_spec, Z.bits_0.
    destruct (Z.lt_ge_cases n k).
    - by rewrite Z.shiftl_spec_low.
    - rewrite <- (Z.mod_small lo (2 ^ k)) by done.
      rewrite Z.mod_pow2_bits_high by lia. apply andb_false_r. }
  rewrite <- Z.lxor_lor by done.
  rewrite <- Z.add_nocarry_lxor by done. by rewrite Z.shiftl_mul_pow2.
Qed.

Lemma land_ones_mod c k : 0 ≤ k → Z.land c (2 ^ k - 1) = c mod 2 ^ k.
Proof. intros Hk. rewrite <- Z.land_ones by done. by rewrite Z.ones_equiv, Z.sub_1_r. Qed.

(** The bit operations of the codec on bytes, as arithmetic. *)
Lemma land_3F c : Z.land c 0x3F = c mod 64.
Proof. apply (land_ones_mod c 6). done. Qed.

Lemma land_1F c : Z.land c 0x1F = c mod 32.
Proof. apply (land_ones_mod c 5). done. Qed.

Lemma land_0F c : Z.land c 0x0F = c mod 16.
Proof. apply (land_ones_mod c 4). done. Qed.

Lemma land_07 c : Z.land c 0x07 = c mod 8.
Proof. apply (land_ones_mod c 3). done. Qed.

Lemma lor_shiftl_6 hi lo : 0 ≤ lo < 64 → Z.lor (Z.shiftl hi 6) lo = hi * 64 + lo.
Proof. intros H. by rewrite lor_shiftl. Qed.

Lemma lor_shiftl_12 hi lo : 0 ≤ lo < 4096 → Z.lor (Z.shiftl hi 12) lo = hi * 4096 + lo.
Proof. intros H. by rewrite lor_shiftl. Qed.

Lemma lor_shiftl_18 hi lo : 0 ≤ lo < 262144 → Z.lor (Z.shiftl hi 18) lo = hi * 262144 + lo.
Proof. intros H. by rewrite lor_shiftl. Qed.

Lemma lor_80 lo : 0 ≤ lo < 64 → Z.lor 0x80 lo = 128 + lo.
Proof.
  intros H. change (Z.lor 0x80 lo) with (Z.lor (Z.shiftl 2 6) lo).
  by rewrite lor_shiftl.
Qed.

Lemma lor_C0 lo : 0 ≤ lo < 32 → Z.lor 0xC0 lo = 192 + lo.
Proof.
  intros H. change (Z.lor 0xC0 lo) with (Z.lor (Z.shiftl 6 5) lo).
  by rewrite lor_shiftl.
Qed.

Lemma lor_E0 lo : 0 ≤ lo < 16 → Z.lor 0xE0 lo = 224 + lo.
Proof.
  intros H. change (Z.lor 0xE0 lo) with (Z.lor (Z.shiftl 14 4) lo).
  by rewrite lor_shiftl.
Qed.

Lemma lor_F0 lo : 0 ≤ lo < 8 → Z.lor 0xF0 lo = 240 + lo.
Proof.
  intros H. change (Z.lor 0xF0 lo) with (Z.lor (Z.shiftl 30 3) lo).
  by rewrite lor_shiftl.
Qed.

Lemma shiftr_6 c : Z.shiftr c 6 = c / 64.
Proof. by rewrite Z.shiftr_div_pow2. Qed.

Lemma shiftr_12 c : Z.shiftr c 12 = c / 4096.
Proof. by rewrite Z.shiftr_div_pow2. Qed.

Lemma shiftr_18 c : Z.shiftr c 18 = c / 262144.
Proof. by rewrite Z.shiftr_div_pow2. Qed.

Ltac byte_arith := try done; Z.div_mod_to_equations; lia.

Lemma encode_two b b1 :
  0xC2 ≤ b < 0xE0 → is_continuation b1 = true →
  encode_char (Z.lor (Z.shiftl (Z.land b 0x1F) 6) (Z.land b1 0x3F)) = Some [b; b1].
Proof.
  intros Hb Hb1%andb_true_iff. rewrite land_1F, land_3F, lor_shiftl_6 by byte_arith.
  set (c := b mod 32 * 64 + b1 mod 64).
  assert (Hc : 0x80 ≤ c < 0x800) by (unfold c; byte_arith).
  unfold encode_char.
  destruct (Z.ltb_spec c 0x80); [lia|]. destruct (Z.ltb_spec c 0x800); [|lia].
  rewrite land_3F, shiftr_6, lor_C0, lor_80 by byte_arith.
  do 2 f_equal; [|f_equal]; unfold c; byte_arith.
Qed.

Lemma encode_three b b1 b2 :
  0xE0 ≤ b < 0xF0 →
  ((if b =? 0xE0 then 0xA0 else 0x80) <=? b1) && (b1 <=? (if b =? 0xED then 0x9F else 0xBF))
  = true →
  is_continuation b2 = true →
  encode_char (Z.lor (Z.shiftl (Z.land b 0x0F) 12)
                 (Z.lor (Z.shiftl (Z.land b1 0x3F) 6) (Z.land b2 0x3F)))
  = Some [b; b1; b2].
Proof.
  intros Hb Hb1%andb_true_iff Hb2%andb_true_iff.
  assert (Hr1 : 0x80 ≤ b1 ≤ 0xBF ∧ (b = 0xE0 → 0xA0 ≤ b1) ∧ (b = 0xED → b1 ≤ 0x9F)).
  { destruct (Z.eqb_spec b 0xE0), (Z.eqb_spec b 0xED); lia. }
  clear Hb1.
  rewrite land_0F, !land_3F, lor_shiftl_6, lor_shiftl_12 by byte_arith.
  set (c := b mod 16 * 4096 + (b1 mod 64 * 64 + b2 mod 64)).
  assert (Hc : 0x800 ≤ c < 0x10000 ∧ ¬ (0xD800 ≤ c ≤ 0xDFFF)) by (unfold c; byte_arith).
  unfold encode_char.
  destruct (Z.ltb_spec c 0x80); [lia|]. destruct (Z.ltb_spec c 0x800); [lia|].
  destruct (Z.leb_spec 0xD800 c), (Z.leb_spec c 0xDFFF); cbn [andb]; try lia;
    (destruct (Z.ltb_spec c 0x10000); [|lia]);
    rewrite !land_3F, shiftr_6, shiftr_12, lor_E0, !lor_80 by byte_arith;
    (do 2 f_equal; [|f_equal; [|f_equal]]); unfold c; byte_arith.
Qed.

Lemma encode_four b b1 b2 b3 :
  0xF0 ≤ b ≤ 0xF4 →
  ((if b =? 0xF0 then 0x90 else 0x80) <=? b1) && (b1 <=? (if b =? 0xF4 then 0x8F else 0xBF))
  = true →
  is_continuation b2 = true →
  is_continuation b3 = true →
  encode_char (Z.lor (Z.shiftl (Z.land b 0x07) 18)
                 (Z.lor (Z.shiftl (Z.land b1 0x3F) 12)
                    (Z.lor (Z.shiftl (Z.land b2 0x3F) 6) (Z.land b3 0x3F))))
  = Some [b; b1; b2; b3].
Proof.
  intros Hb Hb1%andb_true_iff Hb2%andb_true_iff Hb3%andb_true_iff.
  assert (Hr1 : 0x80 ≤ b1 ≤ 0xBF ∧ (b = 0xF0 → 0x90 ≤ b1) ∧ (b = 0xF4 → b1 ≤ 0x8F)).
  { destruct (Z.eqb_spec b 0xF0), (Z.eqb_spec b 0xF4); lia. }
  clear Hb1.
  rewrite land_07, !land_3F, lor_shiftl_6, lor_shiftl_12, lor_shiftl_18 by byte_arith.
  set (c := b mod 8 * 262144 + (b1 mod 64 * 4096 + (b2 mod 64 * 64 + b3 mod 64))).
  assert (Hc : 0x10000 ≤ c < 0x110000) by (unfold c; byte_arith).
  unfold encode_char.
  destruct (Z.ltb_spec c 0x80); [lia|]. destruct (Z.ltb_spec c 0x800); [lia|].
  destruct (Z.leb_spec 0xD800 c), (Z.leb_spec c 0xDFFF); cbn [andb]; try lia;
    (destruct (Z.ltb_spec c 0x10000); [lia|]);
    rewrite !land_3F, shiftr_6, shiftr_12, shiftr_18, lor_F0, !lor_80 by byte_arith;
    (do 2 f_equal; [|f_equal; [|f_equal; [|f_equal]]]); unfold c; byte_arith.
Qed.

(** A well-formed sequence of bytes is the encoding of what it decodes
    to. *)
Lemma decode_strict_encode : ∀ bs s, decode_strict bs = Some s → encode_chars s = Some bs.
Proof.
  intros bs. remember (length bs) as n eqn:Hn. revert bs Hn.
  induction n as [n IH] using lt_wf_ind. intros bs Hn s H.
  assert (Hrec : ∀ t s', (length t < length bs)%nat → decode_strict t = Some s' →
                         encode_chars s' = Some t).
  { intros t s' Hlt. apply (IH (length t)); [lia|done]. }
  clear IH Hn.
  destruct bs as [|b t1]; [by injection H as <-|].
  cbn [decode_strict] in H.
  destruct (Z.ltb_spec b 0x80) as [H1|H1].
  { destruct (decode_strict t1) as [s1|] eqn:E; [|done]. injection H as <-.
    cbn [encode_chars]. rewrite (Hrec t1 s1) by (simpl; lia || done).
    unfold encode_char. destruct (Z.ltb_spec b 0x80); [done|lia]. }
  destruct (Z.ltb_spec b 0xC2) as [H2|H2]; [done|].
  destruct (Z.ltb_spec 0xF4 b) as [H3|H3]; [done|]. cbn [orb] in H.
  destruct (Z.ltb_spec b 0xE0) as [H4|H4].
  { destruct t1 as [|b1 t2]; [done|].
    destruct (is_continuation b1) eqn:Hb1; [|done].
    destruct (decode_strict t2) as [s1|] eqn:E; [|done]. injection H as <-.
    cbn [encode_chars]. rewrite (Hrec t2 s1) by (simpl; lia || done).
    by rewrite encode_two. }
  destruct (Z.ltb_spec b 0xF0) as [H5|H5].
  { destruct t1 as [|b1 t2]; [done|].
    destruct (_ && _) eqn:Hb1 in H; [|done].
    destruct t2 as [|b2 t3]; [done|].
    destruct (is_continuation b2) eqn:Hb2; [|done].
    destruct (decode_strict t3) as [s1|] eqn:E; [|done]. injection H as <-.
    cbn [encode_chars]. rewrite (Hrec t3 s1) by (simpl; lia || done).
    by rewrite encode_three. }
  destruct t1 as [|b1 t2]; [done|].
  destruct (_ && _) eqn:Hb1 in H; [|done].
  destruct t2 as [|b2 t3]; [done|].
  destruct (is_continuation b2) eqn:Hb2; [|done].
  destruct t3 as [|b3 t4]; [done|].
  destruct (is_continuation b3) eqn:Hb3; [|done].
  destruct (decode_strict t4) as [s1|] eqn:E; [|done]. injection H as <-.
  cbn [encode_chars]. rewrite (Hrec t4 s1) by (simpl; lia || done).
  by rewrite encode_four.
Qed.

Lemma universal_newlines_id s : Forall (fun c => c ≠ 13) s → universal_newlines s = s.
Proof.
  induction 1 as [|c s Hc _ IH]; [done|]. cbn [universal_newlines].
  destruct (Z.eqb_spec c 13); [done|]. by rewrite IH.
Qed.

(** ** Text files and the program *)

Lemma prog_bind_inv {A B} (m : Prog A) (f : A → Prog B) p r p' :
  (m ≫= f) p = (r, p') →
  (∃ a p1, m p = (Ok a, p1) ∧ f a p1 = (r, p'))
  ∨ (∃ e, m p = (Raise e, p') ∧ r = Raise e).
Proof.
  unfold mbind, Prog_bind. destruct (m p) as [[a|e] p1].
  - intros H. left. eauto.
  - intros [= <- <-]. right. eauto.
Qed.

Lemma run_inv {A} (m : M A) p r p' :
  run m p = (r, p') →
  ∃ w', m {| files := p_files p; trace := [] |} = (r, w')
        ∧ p' = {| p_files := files w'; p_log := p_log p ++ map Did (trace w') |}.
Proof.
  unfold run. destruct (m _) as [r1 w1]. intros [= <- <-]. by exists w1.
Qed.

(** Reading changes nothing, and yields the decoded content. *)
Lemma read_text_inv T path w r w' :
  read_text T path w = (r, w') →
  w' = w
  ∧ ∀ text, r = Ok text →
      ∃ bs s, files w !! path = Some bs ∧ decode_strict bs = Some s
              ∧ text = universal_newlines s.
Proof.
  unfold read_text, text_may_fail, get_files, raise, closing, mbind, M_bind, mret, M_ret.
  destruct (T (TsOpenRead path)); [by intros [= <- <-]|].
  destruct (files w !! path) as [bs|]; [|by intros [= <- <-]].
  destruct (T (TsRead path)).
  { destruct (T (TsCloseRead path)); by intros [= <- <-]. }
  destruct (decode_strict bs) as [s|] eqn:Hd.
  - destruct (T (TsCloseRead path)); intros [= <- <-]; [done|].
    split; [done|]. intros text [= <-]. by exists bs, s.
  - destruct (T (TsCloseRead path)); by intros [= <- <-].
Qed.

Lemma read_text_ok path w bs s :
  files w !! path = Some bs → decode_strict bs = Some s →
  read_text no_text_fault path w = (Ok (universal_newlines s), w).
Proof.
  intros Hf Hd.
  unfold read_text, text_may_fail, get_files, raise, closing, mbind, M_bind, mret, M_ret.
  simpl. rewrite Hf. simpl. by rewrite Hd.
Qed.

(** Writing changes the file written, and no other. *)
Lemma write_text_frame T path text w r w' :
  write_text T path text w = (r, w') →
  ∀ q, q ≠ path → files w' !! q = files w !! q.
Proof.
  unfold write_text, record, text_may_fail, get_files, put_files, lift, closing,
    mbind, M_bind, mret, M_ret.
  destruct (T (TsOpenWrite path)); [by intros [= <- <-]|]. simpl.
  destruct (encode text) as [data|e].
  - destruct (T (TsWrite path)); simpl.
    + destruct (T (TsCloseWrite path)); intros [= <- <-] q Hq; simpl;
        by rewrite lookup_insert_ne.
    + destruct (T (TsCloseWrite path)); intros [= <- <-] q Hq; simpl;
        by rewrite ?lookup_insert_ne.
  - destruct (T (TsCloseWrite path)); intros [= <- <-] q Hq; simpl;
      by rewrite lookup_insert_ne.
Qed.

Lemma write_text_ok path text data w :
  encode text = Ok data →
  write_text no_text_fault path text w
  = (Ok tt, {| files := <[path := data]> (files w);
               trace := trace w ++ [EvOpen path; EvWrite path data] |}).
Proof.
  intros He.
  unfold write_text, record, text_may_fail, get_files, put_files, lift, closing,
    mbind, M_bind, mret, M_ret.
  simpl. rewrite He. simpl. unfold set_files. simpl.
  by rewrite insert_insert_eq, <- app_assoc.
Qed.

(** X19. A document without image link and without carriage return is
    copied byte for byte: when the calls on the two files do not fail
    and the bytes of [md_file] are well-formed UTF-8, [new_md] creates
    [new_file] with the same bytes, writes nothing else, and prints its
    line. *)
Theorem new_md_copies_plain_document
    (md_file new_file server_path : str) (p : process) (bs : list Z) (text : str) :
  p_files p !! md_file = Some bs →
  decode_strict bs = Some text →
  Forall (fun c => c ≠ 13) text →
  extract_image_urls text = [] →
  new_md_file no_text_fault md_file new_file server_path p
  = (Ok tt,
     {| p_files := <[new_file := bs]> (p_files p);
        p_log := p_log p ++ [Did (EvOpen new_file); Did (EvWrite new_file bs);
                             Printed (LineWritten new_file)] |}).
Proof.
  intros Hfile Hdec Hcr Hnone.
  unfold new_md_file, run, print, log. unfold mbind, Prog_bind.
  rewrite (read_text_ok md_file _ bs text) by done.
  rewrite (universal_newlines_id text Hcr).
  unfold lift. rewrite (new_md_no_match text server_path (extract_nil_no_match text Hnone)).
  rewrite (write_text_ok new_file text bs).
  2:{ unfold encode. by rewrite (decode_strict_encode bs text Hdec). }
  simpl. by rewrite !app_nil_r, <- app_assoc.
Qed.

Lemma new_md_copies_plain_document_witness :
  new_md_file no_text_fault (lit "notes.md") (lit "notes_new.md") cdn disk_with_notes
  = (Ok tt,
     {| p_files := <[lit "notes_new.md" := plain_bytes]> (p_files disk_with_notes);
        p_log := p_log disk_with_notes
                   ++ [Did (EvOpen (lit "notes_new.md"));
                       Did (EvWrite (lit "notes_new.md") plain_bytes);
                       Printed (LineWritten (lit "notes_new.md"))] |}).
Proof.
  apply (new_md_copies_plain_document (lit "notes.md") (lit "notes_new.md") cdn
           disk_with_notes plain_bytes plain_bytes).
  - vm_compute. reflexivity.
  - vm_compute. reflexivity.
  - vm_compute. repeat constructor; discriminate.
  - vm_compute. reflexivity.
Defined.

(** ** The name of the rewritten file *)

Lemma rfind_from_spec c s : ∀ i found,
  let r := rfind_from c s i found in
  (r = found ∧ Forall (fun x => x ≠ c) s)
  ∨ (i ≤ r < i + Z.of_nat (length s)
     ∧ s !! Z.to_nat (r - i) = Some c
     ∧ Forall (fun x => x ≠ c) (drop (S (Z.to_nat (r - i))) s)).
Proof.
  induction s as [|x s IH]; intros i found; cbn [rfind_from].
  { left. by split. }
  cbv zeta. specialize (IH (i + 1) (if x =? c then i else found)). cbv zeta in IH.
  destruct IH as [[Hr Hall]|(Hr & Hat & Hall)].
  - rewrite Hr. destruct (Z.eqb_spec x c) as [->|Hx].
    + right. rewrite Z.sub_diag. simpl. split; [lia|]. split; [done|]. by rewrite drop_0.
    + left. split; [done|]. by constructor.
  - right. split; [simpl length; lia|].
    replace (Z.to_nat (rfind_from c s (i + 1) (if x =? c then i else found) - i))
      with (S (Z.to_nat (rfind_from c s (i + 1) (if x =? c then i else found) - (i + 1))))
      by lia.
    done.
Qed.

Lemma rfind_spec c s :
  (rfind c s = -1 ∧ Forall (fun x => x ≠ c) s)
  ∨ (0 ≤ rfind c s < Z.of_nat (length s)
     ∧ s !! Z.to_nat (rfind c s) = Some c
     ∧ Forall (fun x => x ≠ c) (drop (S (Z.to_nat (rfind c s))) s)).
Proof.
  pose proof (rfind_from_spec c s 0 (-1)) as H. cbv zeta in H. fold (rfind c s) in H.
  by rewrite Z.sub_0_r in H.
Qed.

(** What [os.path.splitext] returns: two parts of the path, the second
    without slash, and empty or starting with a dot. *)
Lemma splitext_spec p :
  p = (splitext p).1 ++ (splitext p).2
  ∧ Forall (fun c => c ≠ 47) (splitext p).2
  ∧ ((splitext p).2 = [] ∨ ∃ rest, (splitext p).2 = 46 :: rest).
Proof.
  unfold splitext. cbv zeta.
  destruct (_ && _) eqn:Hcond; cbn [fst snd].
  2:{ rewrite app_nil_r. split; [done|]. split; [constructor|by left]. }
  apply andb_true_iff in Hcond as [Hlt%Z.ltb_lt _].
  split; [by rewrite take_drop|].
  destruct (rfind_spec 46 p) as [[Hd _]|(Hd & Hat & _)].
  { destruct (rfind_spec 47 p) as [[Hs _]|(Hs & _)]; lia. }
  split.
  - destruct (rfind_spec 47 p) as [[_ Hall]|(Hs & _ & Hall)].
    + by apply Forall_drop.
    + replace (Z.to_nat (rfind 46 p))
        with (S (Z.to_nat (rfind 47 p)) + (Z.to_nat (rfind 46 p) - S (Z.to_nat (rfind 47 p))))%nat
        by lia.
      rewrite <- drop_drop. by apply Forall_drop.
  - right. exists (drop (S (Z.to_nat (rfind 46 p))) p). by apply drop_S.
Qed.

Lemma new_file_name_ne md_file : new_file_name md_file ≠ md_file.
Proof.
  destruct (splitext_spec md_file) as (Hp & _ & Hext).
  unfold new_file_name. intros H. rewrite Hp in H at 2.
  apply app_inv_head in H. rewrite <- H in Hext.
  destruct Hext as [Hext|[rest Hext]]; discriminate Hext.
Qed.

(** X20. The rewritten file never has the name of the file it is made
    from: [os.path.splitext(md_file)[0] + "_new.md"] differs from
    [md_file], whatever that path is; it stands in the same directory,
    the part of [md_file] it drops holding no slash, and that part is
    empty or an extension that starts with a dot. *)
Theorem new_file_name_fresh (md_file : str) :
  new_file_name md_file ≠ md_file
  ∧ ∃ root ext,
      md_file = root ++ ext
      ∧ new_file_name md_file = root ++ lit "_new.md"
      ∧ Forall (fun c => c ≠ 47) ext
      ∧ (ext = [] ∨ ∃ rest, ext = 46 :: rest).
Proof.
  split; [apply new_file_name_ne|].
  destruct (splitext_spec md_file) as (Hp & Hslash & Hext).
  by exists (splitext md_file).1, (splitext md_file).2.
Qed.

(** ** The files the program changes *)

Section ChangesOnly.
Context {A B : Type}.
Variable Q : str → Prop.

Lemma changes_only_ret (a : A) : changes_only Q (mret a : Prog A).
Proof. by intros p r p' [= <- <-] q Hq. Qed.

Lemma changes_only_bind (m : Prog A) (f : A → Prog B) :
  changes_only Q m → (∀ a, changes_only Q (f a)) → changes_only Q (m ≫= f).
Proof.
  intros Hm Hf p r p' H q Hq.
  apply prog_bind_inv in H as [(a & p1 & Hk & H)|(e & Hk & ->)].
  - destruct (decide (p_files p1 !! q = p_files p !! q)) as [Heq|Hne].
    + apply (Hf a p1 r p' H). by rewrite Heq.
    + by apply (Hm p (Ok a) p1 Hk).
  - by apply (Hm p (Raise e) p' Hk).
Qed.

Lemma changes_only_run (m : M A) :
  (∀ w r w', m w = (r, w') → ∀ q, files w' !! q ≠ files w !! q → Q q) →
  changes_only Q (run m).
Proof.
  intros Hm p r p' H q Hq. apply run_inv in H as (w' & H & ->).
  by apply (Hm _ _ _ H).
Qed.

Lemma changes_only_log a : changes_only Q (log a).
Proof. by intros p r p' [= <- <-] q Hq. Qed.

Lemma changes_only_input X n pr : changes_only Q (input X n pr).
Proof. intros p r p'. unfold input. by destruct (typed X n); intros [= <- <-] q Hq. Qed.

Lemma changes_only_glob X pattern : changes_only Q (glob X pattern).
Proof.
  unfold glob. intros p r p' H q Hq. unfold log, mbind, Prog_bind, mret, Prog_ret in H.
  by injection H as <- <-.
Qed.
End ChangesOnly.

Lemma changes_only_mono {A} (Q Q' : str → Prop) (m : Prog A) :
  (∀ q, Q q → Q' q) → changes_only Q m → changes_only Q' m.
Proof. intros HQ Hm p r p' H q Hq. by apply HQ, (Hm p r p' H). Qed.

(** [new_md] changes the file it writes only. *)
Lemma new_md_file_changes T md_file new_file server_path :
  changes_only (fun q => q = new_file) (new_md_file T md_file new_file server_path).
Proof.
  unfold new_md_file.
  apply changes_only_bind.
  { apply changes_only_run. intros w r w' H q Hq. apply read_text_inv in H as [-> _]. done. }
  intros text. apply changes_only_bind.
  { apply changes_only_run. by intros w r w' [= <- <-] q Hq. }
  intros new_text. apply changes_only_bind; [|intros; apply changes_only_log].
  apply changes_only_run. intros w r w' H q Hq.
  destruct (decide (q = new_file)) as [->|Hne]; [done|].
  exfalso. apply Hq. by eapply write_text_frame.
Qed.

(** X21. The rewrite leaves its source alone: [new_md], writing to the
    name that [main] derives from [md_file], changes no file but that
    one, whatever fails; the file [md_file] is as it was. *)
Theorem rewrite_leaves_source
    (T : text_env) (md_file server_path : str) (p : process) (r : result unit)
    (p' : process) :
  new_md_file T md_file (new_file_name md_file) server_path p = (r, p') →
  p_files p' !! md_file = p_files p !! md_file
  ∧ ∀ q, q ≠ new_file_name md_file → p_files p' !! q = p_files p !! q.
Proof.
  intros H.
  assert (Hframe : ∀ q, q ≠ new_file_name md_file → p_files p' !! q = p_files p !! q).
  { intros q Hq. destruct (decide (p_files p' !! q = p_files p !! q)) as [|Hne]; [done|].
    by apply (new_md_file_changes _ _ _ _ p r p' H) in Hne. }
  split; [|done]. apply Hframe. intros Heq. by apply (new_file_name_ne md_file).
Qed.

Lemma rewrite_leaves_source_witness :
  ∃ r p',
    new_md_file no_text_fault (lit "notes.md") (new_file_name (lit "notes.md")) cdn
      disk_with_notes = (r, p')
    ∧ p_files p' !! lit "notes.md" = p_files disk_with_notes !! lit "notes.md"
    ∧ ∀ q, q ≠ new_file_name (lit "notes.md") →
           p_files p' !! q = p_files disk_with_notes !! q.
Proof.
  eexists _, _. split; [vm_compute; reflexivity|].
  apply (rewrite_leaves_source no_text_fault (lit "notes.md") cdn disk_with_notes (Ok tt)).
  vm_compute. reflexivity.
Defined.

(** ** One file of the program *)

Lemma encode_chars_Some s :
  Forall (fun c => is_Some (encode_char c)) s → ∃ data, encode_chars s = Some data.
Proof.
  induction 1 as [|c s [b Hc] _ [data IH]]; [by exists []|].
  exists (b ++ data). cbn [encode_chars]. by rewrite Hc, IH.
Qed.

Lemma encode_chars_Forall s data :
  encode_chars s = Some data → Forall (fun c => is_Some (encode_char c)) s.
Proof.
  revert data. induction s as [|c s IH]; intros data H; [constructor|].
  cbn [encode_chars] in H. destruct (encode_char c) as [b|] eqn:Hc; [|done].
  destruct (encode_chars s) as [d|] eqn:Hs; [|done].
  constructor; [by rewrite Hc|]. by eapply IH.
Qed.

Lemma universal_newlines_Forall (P : Z → Prop) : P 10 → ∀ s,
  Forall P s → Forall P (universal_newlines s).
Proof.
  intros H10 s. remember (length s) as n eqn:Hn. revert s Hn.
  induction n as [n IH] using lt_wf_ind. intros s Hn Hs.
  destruct s as [|c s]; [constructor|]. cbn [universal_newlines].
  inversion Hs as [|? ? Hc Hs']; subst.
  destruct (c =? 13).
  - constructor; [done|]. destruct s as [|c' s'']; [constructor|].
    inversion Hs' as [|? ? Hc' Hs'']; subst.
    destruct (c' =? 10).
    + apply (IH (length s'')); [simpl; lia|done|done].
    + apply (IH (length (c' :: s''))); [simpl; lia|done|done].
  - constructor; [done|]. apply (IH (length s)); [simpl; lia|done|done].
Qed.

(** What is read from a file can be written to a file. *)
Lemma read_text_encodable bs s :
  decode_strict bs = Some s → ∃ data, encode (universal_newlines s) = Ok data.
Proof.
  intros Hd. apply decode_strict_encode, encode_chars_Forall in Hd.
  destruct (encode_chars_Some (universal_newlines s)) as [data Hdata].
  { apply universal_newlines_Forall; [by eexists|done]. }
  exists data. unfold encode. by rewrite Hdata.
Qed.

(** X22. A document without image link costs no request: for such a
    file, when the calls on the text files do not fail, the program
    prints that it found no link, sends nothing, creates nothing in the
    directory of the images, and writes the text it read, its line
    ends read as line feeds, to the new file. *)
Theorem process_file_without_links
    (X : main_env) (i : nat) (md_file server_path : str) (p : process)
    (bs : list Z) (s : str) :
  text_faults X = no_text_fault →
  p_files p !! md_file = Some bs →
  decode_strict bs = Some s →
  extract_image_urls (universal_newlines s) = [] →
  let new_file := new_file_name md_file in
  ∃ data,
    encode (universal_newlines s) = Ok data
    ∧ process_file X i md_file server_path p
      = (Ok tt,
         {| p_files := <[new_file := data]> (p_files p);
            p_log := p_log p ++ [Printed (LineProcessing md_file); Printed LineNoImages;
                                 Did (EvOpen new_file); Did (EvWrite new_file data);
                                 Printed (LineWritten new_file)] |}).
Proof.
  intros HT Hfile Hdec Hnone new_file.
  destruct (read_text_encodable bs s Hdec) as [data Hdata]. exists data. split; [done|].
  unfold process_file, extract_image_urls_of_file, new_md_file. rewrite HT.
  unfold run, print, log. unfold mbind at 1 2, Prog_bind.
  unfold mbind at 1, M_bind at 1. cbn [p_files p_log].
  rewrite (read_text_ok md_file _ bs s) by done.
  unfold mret at 1, M_ret at 1. cbn [files trace map]. rewrite Hnone.
  rewrite bool_decide_true by done. unfold mbind, Prog_bind. cbn [p_files p_log].
  rewrite (read_text_ok md_file _ bs s) by done.
  unfold lift.
  rewrite (new_md_no_match _ server_path (extract_nil_no_match _ Hnone)).
  cbn [files trace map p_files p_log].
  rewrite (write_text_ok (new_file_name md_file) _ data) by done.
  cbn [files trace map app p_files p_log]. fold new_file.
  by rewrite !app_nil_r, <- !app_assoc.
Qed.

Lemma process_file_without_links_witness :
  ∃ data,
    encode (universal_newlines plain_bytes) = Ok data
    ∧ process_file notes_env 0 (lit "notes.md") cdn disk_with_notes
      = (Ok tt,
         {| p_files := <[new_file_name (lit "notes.md") := data]> (p_files disk_with_notes);
            p_log := p_log disk_with_notes
                       ++ [Printed (LineProcessing (lit "notes.md")); Printed LineNoImages;
                           Did (EvOpen (new_file_name (lit "notes.md")));
                           Did (EvWrite (new_file_name (lit "notes.md")) data);
                           Printed (LineWritten (new_file_name (lit "notes.md")))] |}).
Proof.
  apply (process_file_without_links notes_env 0 (lit "notes.md") cdn disk_with_notes
           plain_bytes plain_bytes); vm_compute; reflexivity.
Defined.

Lemma prog_bind_ok {A B} (m : Prog A) (f : A → Prog B) p a p1 :
  m p = (Ok a, p1) → (m ≫= f) p = f a p1.
Proof. unfold mbind, Prog_bind. by intros ->. Qed.

Lemma prog_bind_raise {A B} (m : Prog A) (f : A → Prog B) p e p1 :
  m p = (Raise e, p1) → (m ≫= f) p = (Raise e, p1).
Proof. unfold mbind, Prog_bind. by intros ->. Qed.

Lemma run_eq {A} (m : M A) p r w' :
  m {| files := p_files p; trace := [] |} = (r, w') →
  run m p = (r, {| p_files := files w'; p_log := p_log p ++ map Did (trace w') |}).
Proof. unfold run. by intros ->. Qed.

Lemma extract_image_urls_of_file_ok md_file w bs s :
  files w !! md_file = Some bs → decode_strict bs = Some s →
  extract_image_urls_of_file no_text_fault md_file w
  = (Ok (extract_image_urls (universal_newlines s)), w).
Proof.
  intros Hf Hd. unfold extract_image_urls_of_file. unfold mbind, M_bind.
  by rewrite (read_text_ok md_file w bs s).
Qed.

(** X23. The two passes do not treat a URL without name alike: the
    download pass reports it and goes on, the rewrite pass raises.  For
    a document one of whose extracted URLs is refused by
    [safe_basename_from_url], the program runs the whole batch and then
    ends with the exception of [new_md], before the new file is
    opened: the files changed are those of the downloads only.  (The
    document itself is supposed not to be the destination of one of
    its downloads.) *)
Theorem url_without_name_aborts_rewrite
    (X : main_env) (i : nat) (md_file server_path : str) (p : process)
    (bs : list Z) (s url : str) (e : exn) :
  text_faults X = no_text_fault →
  p_files p !! md_file = Some bs →
  decode_strict bs = Some s →
  let imgs := extract_image_urls (universal_newlines s) in
  url ∈ imgs →
  safe_basename_from_url url = Raise e →
  ¬ batch_path imgs IMAGES_DIR md_file →
  ∃ e' p' results w',
    process_file X i md_file server_path p = (Raise e', p')
    ∧ img_download_batch (fetch_envs X i) imgs IMAGES_DIR
        {| files := p_files p; trace := [] |} = (Ok results, w')
    ∧ map (fun r => r.1.1) results = imgs
    ∧ p_files p' = files w'
    ∧ p_log p' = p_log p ++ [Printed (LineProcessing md_file); Printed (LineFound (length imgs))]
                   ++ map Did (trace w')
    ∧ ∀ q, p_files p' !! q ≠ p_files p !! q → batch_path imgs IMAGES_DIR q.
Proof.
  intros HT Hfile Hdec imgs Hin Hraise Hmd.
  destruct (batch_loop_total (fetch_envs X i) IMAGES_DIR imgs 0 []
              {| files := p_files p; trace := [] |}) as (results & w' & Hbatch & Hmap & _).
  rewrite app_nil_l in Hbatch.
  pose proof (batch_loop_effects _ _ _ _ _ _ _ _ Hbatch) as [_ Hframe]. cbn [files] in Hframe.
  assert (Hmd' : files w' !! md_file = Some bs).
  { destruct (decide (files w' !! md_file = p_files p !! md_file)) as [Heq|Hne];
      [by rewrite Heq|]. by apply Hframe in Hne. }
  destruct (new_md_raises (universal_newlines s) server_path url e Hin Hraise) as [e' Hnew].
  exists e'. eexists. exists results, w'.
  split; [|split; [exact Hbatch|split; [exact Hmap|]]].
  - unfold process_file. rewrite HT.
    erewrite prog_bind_ok by reflexivity.
    erewrite prog_bind_ok.
    2:{ apply run_eq. by apply (extract_image_urls_of_file_ok md_file _ bs s). }
    fold imgs. rewrite bool_decide_false.
    2:{ intros Hnil. rewrite Hnil in Hin. by apply elem_of_nil in Hin. }
    erewrite prog_bind_ok.
    2:{ erewrite prog_bind_ok by reflexivity.
        erewrite prog_bind_ok; [reflexivity|].
        apply run_eq. exact Hbatch. }
    unfold new_md_file.
    erewrite prog_bind_ok.
    2:{ apply run_eq. by apply (read_text_ok md_file _ bs s). }
    erewrite prog_bind_raise; [reflexivity|].
    apply run_eq. unfold lift. by rewrite Hnew.
  - cbn [p_files p_log files trace map]. split; [done|]. split.
    + rewrite !app_nil_r. by rewrite <- !app_assoc.
    + done.
Qed.

Lemma url_without_name_aborts_rewrite_witness :
  ∃ e' p' results w',
    process_file notes_env 0 (lit "notes.md") cdn disk_with_bad = (Raise e', p')
    ∧ img_download_batch (fetch_envs notes_env 0)
        (extract_image_urls (universal_newlines bad_bytes)) IMAGES_DIR
        {| files := p_files disk_with_bad; trace := [] |} = (Ok results, w')
    ∧ map (fun r => r.1.1) results = extract_image_urls (universal_newlines bad_bytes)
    ∧ p_files p' = files w'
    ∧ p_log p' = p_log disk_with_bad
                   ++ [Printed (LineProcessing (lit "notes.md"));
                       Printed (LineFound
                                  (length (extract_image_urls (universal_newlines bad_bytes))))]
                   ++ map Did (trace w')
    ∧ ∀ q, p_files p' !! q ≠ p_files disk_with_bad !! q →
           batch_path (extract_image_urls (universal_newlines bad_bytes)) IMAGES_DIR q.
Proof.
  apply (url_without_name_aborts_rewrite notes_env 0 (lit "notes.md") cdn disk_with_bad
           bad_bytes bad_bytes (lit "http://[x.png") (ValueError "Invalid IPv6 URL" [])).
  - reflexivity.
  - vm_compute. reflexivity.
  - vm_compute. reflexivity.
  - vm_compute. right. left.
  - vm_compute. reflexivity.
  - intros (u & n & Hin & Hn & Hp). vm_compute in Hin.
    apply elem_of_cons in Hin as [->|Hin].
    + vm_compute in Hn. injection Hn as <-. vm_compute in Hp.
      destruct Hp as [Hp|Hp]; discriminate Hp.
    + apply list_elem_of_singleton in Hin as ->. vm_compute in Hn. discriminate Hn.
Defined.

(** ** A document that cannot be read *)

(** X24. A document that cannot be read ends the run: when a file of
    the list is absent, or is not well-formed UTF-8, the loop over the
    files ends with the exception of the reading, after the line that
    announces the file; nothing is requested, nothing is written, and
    the files after it are not processed. *)
Theorem unreadable_document_ends_run
    (X : main_env) (i : nat) (md_file : str) (rest : list str) (server_path : str)
    (p : process) :
  text_faults X = no_text_fault →
  p_files p !! md_file = None
  ∨ (∃ bs, p_files p !! md_file = Some bs ∧ decode_strict bs = None) →
  ∃ e,
    process_files X i (md_file :: rest) server_path p
    = (Raise e, {| p_files := p_files p;
                   p_log := p_log p ++ [Printed (LineProcessing md_file)] |})
    ∧ (e = FileNotFoundError md_file ∨ e = EnvironmentFailure "UnicodeDecodeError").
Proof.
  intros HT Hbad.
  assert (Hread : ∃ e, ∀ tr,
            extract_image_urls_of_file no_text_fault md_file
              {| files := p_files p; trace := tr |}
            = (Raise e, {| files := p_files p; trace := tr |})
            ∧ (e = FileNotFoundError md_file ∨ e = EnvironmentFailure "UnicodeDecodeError")).
  { unfold extract_image_urls_of_file, read_text, text_may_fail, get_files, raise, closing,
      mbind, M_bind, mret, M_ret. simpl.
    destruct Hbad as [Hnone|(bs & Hsome & Hdec)].
    - exists (FileNotFoundError md_file). intros tr. rewrite Hnone. by split; [|left].
    - exists (EnvironmentFailure "UnicodeDecodeError"). intros tr.
      rewrite Hsome, Hdec. by split; [|right]. }
  destruct Hread as [e Hread]. exists e. split; [|by destruct (Hread [])].
  cbn [process_files]. unfold process_file. rewrite HT.
  erewrite prog_bind_raise; [reflexivity|].
  erewrite prog_bind_ok by reflexivity.
  erewrite prog_bind_raise.
  2:{ apply run_eq. apply Hread. }
  cbn [files trace map p_files p_log]. by rewrite app_nil_r.
Qed.

Lemma unreadable_document_ends_run_witness :
  ∃ e,
    process_files notes_env 0 [lit "notes.md"; lit "other.md"] cdn disk_with_latin1
    = (Raise e, {| p_files := p_files disk_with_latin1;
                   p_log := p_log disk_with_latin1
                              ++ [Printed (LineProcessing (lit "notes.md"))] |})
    ∧ (e = FileNotFoundError (lit "notes.md") ∨ e = EnvironmentFailure "UnicodeDecodeError").
Proof.
  apply (unreadable_document_ends_run notes_env 0 (lit "notes.md") [lit "other.md"] cdn
           disk_with_latin1); [reflexivity|].
  right. exists (lit "caf" ++ [0xFF]). split; vm_compute; reflexivity.
Defined.

(** ** The files the program writes *)

Lemma batch_path_image img_list q : batch_path img_list IMAGES_DIR q → image_path q.
Proof.
  intros (url & name & _ & Hname & Hq).
  destruct (safe_basename_chars _ _ Hname) as [Hne Hchars]. by exists name.
Qed.

Lemma ensure_dir_files E d w r w' : ensure_dir E d w = (r, w') → files w' = files w.
Proof.
  unfold ensure_dir, record, may_fail, mbind, M_bind.
  destruct (fault E StMakedirs); by intros [= <- <-].
Qed.

Lemma process_file_changes X i md_file server_path :
  changes_only (fun q => image_path q ∨ q = new_file_name md_file)
    (process_file X i md_file server_path).
Proof.
  unfold process_file.
  apply changes_only_bind; [apply changes_only_log|]. intros _.
  apply changes_only_bind.
  { apply changes_only_run. intros w r w' H q Hq.
    unfold extract_image_urls_of_file in H.
    apply bind_inv in H as [(text & w1 & Hread & H)|(e & Hread & _)].
    - apply read_text_inv in Hread as [-> _]. by injection H as <- <-.
    - by apply read_text_inv in Hread as [-> _]. }
  intros imgs. apply changes_only_bind.
  { destruct (bool_decide (imgs = [])); [apply changes_only_log|].
    apply changes_only_bind; [apply changes_only_log|]. intros _.
    apply changes_only_bind; [|intros; apply changes_only_ret].
    apply changes_only_run. intros w r w' H q Hq. left.
    apply batch_loop_effects in H as [_ H]. by eapply batch_path_image, H. }
  intros _. eapply changes_only_mono; [|apply new_md_file_changes].
  intros q ->. by right.
Qed.

Lemma process_files_changes X server_path mdfile_list : ∀ i,
  changes_only (fun q => image_path q ∨ ∃ md_file, md_file ∈ mdfile_list
                                                   ∧ q = new_file_name md_file)
    (process_files X i mdfile_list server_path).
Proof.
  induction mdfile_list as [|md_file rest IH]; intros i; cbn [process_files].
  { apply changes_only_ret. }
  apply changes_only_bind.
  - eapply changes_only_mono; [|apply process_file_changes].
    intros q [Hq| ->]; [by left|]. right. exists md_file. split; [by left|done].
  - intros _. eapply changes_only_mono; [|apply IH].
    intros q [Hq|(md & Hin & ->)]; [by left|]. right. exists md. split; [by right|done].
Qed.

Lemma changes_only_bind_value {A B} (Q : str → Prop) (m : Prog A) (f : A → Prog B) :
  changes_only Q m →
  (∀ a, (∃ p p1, m p = (Ok a, p1)) → changes_only Q (f a)) →
  changes_only Q (m ≫= f).
Proof.
  intros Hm Hf p r p' H q Hq.
  apply prog_bind_inv in H as [(a & p1 & Hk & H)|(e & Hk & ->)].
  - destruct (decide (p_files p1 !! q = p_files p !! q)) as [Heq|Hne].
    + apply (Hf a (ex_intro _ p (ex_intro _ p1 Hk)) p1 r p' H). by rewrite Heq.
    + by apply (Hm p (Ok a) p1 Hk).
  - by apply (Hm p (Raise e) p' Hk).
Qed.

(** X25. The files the program writes: whatever is typed, whatever the
    pattern matches and whatever fails, a run of [main] changes no file
    but entries of the directory [images] whose names are names that
    [safe_basename_from_url] returns, with or without [.part], and the
    files named after a document of the run with [_new.md] in the place
    of its extension, the documents being the files matched by the
    pattern made from the name typed.  The file written for a document
    is never that document: a document changes only as an entry of
    [images] or as the rewritten file of another document.  A run that
    ends early, because no name was typed, no file matched, or the
    input ended at one of the prompts, changes no file at all. *)
Theorem main_changes_only
    (X : main_env) (p : process) (r : result unit) (p' : process) :
  main X p = (r, p') →
  (documents X = [] ∨ typed X 1 = None → p_files p' = p_files p)
  ∧ (∀ q, p_files p' !! q ≠ p_files p !! q →
       image_path q
       ∨ ∃ md_file, md_file ∈ documents X ∧ q = new_file_name md_file ∧ q ≠ md_file)
  ∧ (∀ md_file, md_file ∈ documents X →
       p_files p' !! md_file ≠ p_files p !! md_file →
       image_path md_file
       ∨ ∃ other, other ∈ documents X ∧ other ≠ md_file ∧ md_file = new_file_name other).
Proof.
  intros H.
  assert (Hmain : (documents X = [] ∨ typed X 1 = None → p_files p' = p_files p)
                  ∧ ∀ q, p_files p' !! q ≠ p_files p !! q →
                      image_path q ∨ ∃ md_file, md_file ∈ documents X
                                               ∧ q = new_file_name md_file).
  { revert H. unfold main, documents, glob_pattern.
    unfold mbind at 1, Prog_bind at 1. unfold input at 1.
    destruct (typed X 0) as [answer|]; [|by intros [= <- <-]].
    cbv zeta. destruct (bool_decide (strip answer = [])); [by intros [= <- <-]|].
    set (pattern := if ends_with (lit ".md") (strip answer) then strip answer
                    else strip answer ++ lit ".md").
    unfold mbind at 1, Prog_bind at 1. unfold glob at 1.
    unfold mbind at 1, Prog_bind at 1. unfold log at 1. unfold mret at 1, Prog_ret at 1.
    destruct (bool_decide (glob_result X pattern = [])) eqn:Hnone.
    { by intros [= <- <-]. }
    apply bool_decide_eq_false in Hnone.
    unfold mbind at 1, Prog_bind at 1. unfold input at 1.
    destruct (typed X 1) as [server_path|]; [|by intros [= <- <-]].
    intros H. split; [by intros [?|?]|].
    revert H.
    match goal with |- ?m ?p0 = _ → _ =>
      assert (Hm : changes_only
                     (fun q => image_path q
                               ∨ ∃ md_file, md_file ∈ glob_result X pattern
                                            ∧ q = new_file_name md_file) m);
      [|intros H q Hq; by apply (Hm p0 r p' H q)]
    end.
    apply changes_only_bind.
    { apply changes_only_run. intros w r0 w' H q Hq. apply ensure_dir_files in H.
      by rewrite H in Hq. }
    intros _. apply changes_only_bind; [|intros; apply changes_only_log].
    apply process_files_changes. }
  destruct Hmain as [Hearly Hchanged]. split; [done|].
  assert (Hq : ∀ q, p_files p' !! q ≠ p_files p !! q →
             image_path q
             ∨ ∃ md_file, md_file ∈ documents X ∧ q = new_file_name md_file ∧ q ≠ md_file).
  { intros q Hq. destruct (Hchanged q Hq) as [Hi|(md_file & Hin & ->)]; [by left|].
    right. exists md_file. split; [done|]. split; [done|]. apply new_file_name_ne. }
  split; [done|].
  intros md_file _ Hch. destruct (Hq md_file Hch) as [Hi|(other & Hin & Heq & Hne)]; [by left|].
  right. exists other. split; [done|]. split; [|done]. intros ->. by apply Hne.
Qed.

Lemma main_changes_only_witness :
  ∃ r p',
    main notes_env disk_with_notes = (r, p')
    ∧ documents notes_env = [lit "notes.md"]
    ∧ p_files p' = <[lit "notes_new.md" := plain_bytes]> (p_files disk_with_notes)
    ∧ ∀ q, p_files p' !! q ≠ p_files disk_with_notes !! q →
        image_path q
        ∨ ∃ md_file, md_file ∈ documents notes_env ∧ q = new_file_name md_file
                     ∧ q ≠ md_file.
Proof.
  eexists _, _. split; [vm_compute; reflexivity|]. split; [vm_compute; reflexivity|].
  split; [vm_compute; reflexivity|].
  apply (main_changes_only notes_env disk_with_notes (Ok tt)). vm_compute. reflexivity.
Defined.

(** * The outcomes of a fetch: skip, integrity failure and exceptions

    The statements on the skip test, on the check of the length and on
    the exceptions of a fetch.  They rest on the lemmas on the effects
    of a fetch above. *)

Lemma write_chunks_run E temp chunks : ∀ i total w old,
  (∀ j, (j ≤ length chunks)%nat → fault E (StIterContent (i + j)) = None) →
  (∀ j c, chunks !! j = Some c → c ≠ [] → fault E (StWrite (i + j)) = None) →
  files w !! temp = Some old →
  ∃ w', write_chunks E temp chunks i total w
        = (Ok (total + Z.of_nat (length (concat chunks))), w')
        ∧ files w' = <[temp := old ++ concat chunks]> (files w)
        ∧ trace w' = trace w ++ chunk_writes temp chunks.
Proof.
  induction chunks as [|c chunks IH]; intros i total w old Hi Hw Hold; simpl.
  - unfold mbind, M_bind, may_fail, mret, M_ret.
    specialize (Hi 0%nat). rewrite Nat.add_0_r in Hi. rewrite Hi by (simpl; lia).
    eexists. split; [by rewrite Z.add_0_r|]. rewrite !app_nil_r. by rewrite insert_id.
  - unfold mbind at 1, M_bind at 1. unfold may_fail at 1.
    pose proof (Hi 0%nat) as Hi0. rewrite Nat.add_0_r in Hi0. rewrite Hi0 by (simpl; lia).
    unfold mbind at 1, M_bind at 1. unfold chunk_writes. rewrite filter_cons.
    assert (Hi' : ∀ j, (j ≤ length chunks)%nat → fault E (StIterContent (S i + j)) = None).
    { intros j Hj. specialize (Hi (S j)). rewrite Nat.add_succ_r in Hi. apply Hi. simpl. lia. }
    assert (Hw' : ∀ j c', chunks !! j = Some c' → c' ≠ [] → fault E (StWrite (S i + j)) = None).
    { intros j c' Hj Hc. specialize (Hw (S j) c' Hj Hc). by rewrite Nat.add_succ_r in Hw. }
    destruct (bool_decide (c = [])) eqn:Hc.
    + apply bool_decide_eq_true in Hc. subst c. unfold mret at 1, M_ret at 1.
      destruct (IH (S i) total w old Hi' Hw' Hold) as (w' & -> & Hf & Ht).
      exists w'. rewrite decide_False by (intros H; by apply H). eauto.
    + apply bool_decide_eq_false in Hc. rewrite decide_True by done.
      unfold file_write, record, may_fail, get_files, put_files, mbind, M_bind, mret, M_ret.
      pose proof (Hw 0%nat c eq_refl Hc) as Hw0. rewrite Nat.add_0_r in Hw0.
      rewrite Hw0. simpl. rewrite Hold. simpl.
      edestruct (IH (S i) (total + Z.of_nat (length c))) as (w' & -> & Hf & Ht);
        [exact Hi'|exact Hw'| |].
      { simpl. apply lookup_insert_eq. }
      eexists. split; [|split].
      * f_equal. f_equal. rewrite length_app. lia.
      * rewrite Hf. simpl. rewrite insert_insert_eq. by rewrite app_assoc.
      * rewrite Ht. simpl. by rewrite <- app_assoc.
Qed.

Lemma bind_ok_inv {A B} (m : M A) (f : A → M B) w b w' :
  (m ≫= f) w = (Ok b, w') → ∃ a w1, m w = (Ok a, w1) ∧ f a w1 = (Ok b, w').
Proof.
  intros H. apply bind_inv in H as [(a & w1 & Hm & Hf)|(e & _ & ?)]; [eauto|done].
Qed.

Lemma may_fail_ok_inv E s w u w' : may_fail E s w = (Ok u, w') → fault E s = None ∧ w' = w.
Proof. unfold may_fail. destruct (fault E s); [done|]. by intros [= _ <-]. Qed.

Lemma closing_ok_inv {A} (close : M unit) (body : M A) w a w' :
  closing close body w = (Ok a, w') →
  ∃ w1, body w = (Ok a, w1) ∧ close w1 = (Ok tt, w').
Proof.
  unfold closing. destruct (body w) as [r w1]. destruct (close w1) as [[[]|e] w2] eqn:Hc; [|done].
  intros [= -> <-]. eauto.
Qed.

(** What a loop over the chunks that ends normally has asked for. *)
Lemma write_chunks_inv E temp chunks : ∀ i total w t w',
  write_chunks E temp chunks i total w = (Ok t, w') →
  (∀ j, (j ≤ length chunks)%nat → fault E (StIterContent (i + j)) = None)
  ∧ (∀ j c, chunks !! j = Some c → c ≠ [] → fault E (StWrite (i + j)) = None).
Proof.
  induction chunks as [|c chunks IH]; intros i total w t w' H; simpl in H.
  - apply bind_ok_inv in H as ([] & w1 & Hf & _). apply may_fail_ok_inv in Hf as [Hf _].
    split; [|done]. intros j Hj. simpl in Hj. replace j with 0%nat by lia.
    by rewrite Nat.add_0_r.
  - apply bind_ok_inv in H as ([] & w1 & Hf & H). apply may_fail_ok_inv in Hf as [Hf ->].
    apply bind_ok_inv in H as (total' & w2 & Hc & H).
    apply IH in H as [Hi Hw].
    split.
    + intros [|j] Hj; [by rewrite Nat.add_0_r|].
      rewrite Nat.add_succ_r. apply Hi. simpl in Hj. lia.
    + intros [|j] c' Hj Hne.
      * injection Hj as ->. rewrite Nat.add_0_r.
        rewrite bool_decide_false in Hc by done.
        apply bind_ok_inv in Hc as ([] & w3 & Hwr & _).
        unfold file_write in Hwr.
        apply bind_ok_inv in Hwr as ([] & w4 & _ & Hwr).
        apply bind_ok_inv in Hwr as ([] & w5 & Hwr & _).
        by apply may_fail_ok_inv in Hwr as [Hwr _].
      * rewrite Nat.add_succ_r. by eapply Hw.
Qed.

(** The streamed download when the calls of the transfer succeed: the
    body is written to the temporary file, which is then renamed, or
    removed when the length is not the expected one. *)
Lemma streamed_download_outcome E url dest_dir safe_name w cl :
  (∀ s, transfer_step (get_response E) s → fault E s = None) →
  status_code (get_response E) = 200 →
  expected_size E = Ok cl →
  let dest_path := path_join dest_dir safe_name in
  let temp_path := dest_path ++ lit ".part" in
  let data := concat (body (get_response E)) in
  let total := Z.of_nat (length data) in
  let complete := match cl with Some expected => total =? expected | None => true end in
  (complete = true → fault E StReplace = None) →
  ∃ w', streamed_download E url dest_dir safe_name (probed_size E) w
        = (Ok (if complete then (true, MsgDownloaded safe_name)
               else (false, MsgIncomplete total (default 0 cl) safe_name)), w')
     ∧ files w' =
         (if complete then <[dest_path := data]> (delete temp_path (files w))
          else match fault E StRemove with
               | None => delete temp_path (files w)
               | Some _ => <[temp_path := data]> (files w)
               end)
     ∧ trace w' =
         trace w ++ [EvGet url; EvMakedirs dest_dir; EvOpen temp_path]
           ++ chunk_writes temp_path (body (get_response E))
           ++ [if complete then EvReplace temp_path dest_path else EvRemove temp_path].
Proof.
  intros Hfault Hstatus Hexp dest_path temp_path data total complete Hreplace.
  unfold streamed_download, session_get.
  unfold mbind at 1, M_bind at 1. unfold mbind at 1, M_bind at 1.
  unfold record at 1. unfold mbind at 1, M_bind at 1. unfold may_fail at 1.
  rewrite (Hfault StGet) by done. unfold mret at 1, M_ret at 1.
  rewrite Hstatus. simpl negb. cbv iota.
  unfold closing at 1.
  assert (Hcl : (match probed_size E with
                 | Some n => mret (Some n)
                 | None => lift (read_content_length (content_length_header (get_response E)))
                 end : M (option Z)) = lift (Ok cl)).
  { unfold expected_size in Hexp. destruct (probed_size E); [by injection Hexp as <-|].
    by rewrite Hexp. }
  rewrite Hcl. clear Hcl.
  unfold mbind at 1, M_bind at 1. unfold lift at 1.
  unfold ensure_dir, open_wb.
  unfold mbind at 1, M_bind at 1. unfold mbind at 1, M_bind at 1. unfold record at 1.
  unfold may_fail at 1. rewrite (Hfault StMakedirs) by done.
  unfold mbind at 1, M_bind at 1.
  unfold mbind at 1, M_bind at 1. unfold mbind at 1, M_bind at 1. unfold record at 1.
  unfold mbind at 1, M_bind at 1. unfold may_fail at 1. rewrite (Hfault StOpen) by done.
  unfold mbind at 1, M_bind at 1. unfold get_files at 1. unfold put_files at 1.
  unfold mbind at 1, M_bind at 1. unfold closing at 1.
  unfold mbind at 1, M_bind at 1.
  match goal with |- context [write_chunks E ?t ?c 0 0 ?w0] =>
    destruct (write_chunks_run E t c 0%nat 0 w0 [])
      as (w4 & Hrun & Hfiles & Htrace)
  end.
  { intros j Hj. by apply Hfault. }
  { intros j c Hj Hc. apply Hfault. simpl. eauto. }
  { simpl. apply lookup_insert_eq. }
  rewrite Hrun. simpl in Hfiles. rewrite insert_insert_eq in Hfiles.
  simpl in Htrace. rewrite <- !app_assoc in Htrace. simpl in Htrace.
  unfold may_fail at 1. rewrite (Hfault StFlush) by done. unfold mret at 1, M_ret at 1.
  unfold may_fail at 1. rewrite (Hfault StCloseFile) by done.
  rewrite Z.add_0_l. fold data. fold total. fold dest_path. fold temp_path.
  fold temp_path in Hfiles. fold data in Hfiles.
  assert (Hend : ∀ (r : bool * message) (w5 : world),
             (let (r0, w2) := may_fail E StCloseResponse w5 in
              match r0 with Ok _ => (Ok r, w2) | Raise e => (Raise e, w2) end)
             = (Ok r, w5)).
  { intros r w5. unfold may_fail. by rewrite (Hfault StCloseResponse). }
  assert (Hfin : ∀ ev, trace w4 ++ [ev]
            = trace w ++ [EvGet url; EvMakedirs dest_dir; EvOpen temp_path]
                ++ chunk_writes temp_path (body (get_response E)) ++ [ev]).
  { intros ev. rewrite Htrace. rewrite <- !app_assoc. done. }
  assert (Hinc : (match cl with Some expected => negb (total =? expected) | None => false end)
                 = negb complete).
  { unfold complete. by destruct cl. }
  rewrite Hinc. destruct complete; cbn [negb].
  - unfold os_replace, record, may_fail, get_files, put_files, mbind, M_bind, mret, M_ret.
    rewrite Hreplace by done. simpl. rewrite Hfiles, lookup_insert_eq.
    rewrite (Hfault StCloseResponse) by done.
    eexists. split; [done|]. simpl. rewrite delete_insert_eq, Hfin. done.
  - unfold try_except, os_remove, record, may_fail, get_files, put_files,
      mbind, M_bind, mret, M_ret. simpl.
    destruct (fault E StRemove) as [e|] eqn:Hrm.
    + rewrite (Hfault StCloseResponse) by done. eexists. split; [done|]. simpl.
      rewrite Hfin. done.
    + simpl. rewrite Hfiles, lookup_insert_eq. simpl.
      rewrite (Hfault StCloseResponse) by done. eexists. split; [done|]. simpl.
      rewrite delete_insert_eq, Hfin. done.
Qed.

(** A streamed download that returns has made the calls of the transfer
    without an exception, and [os.replace] when it reports a completed
    download; what it returns is an HTTP error, an incomplete or a
    completed download. *)
Lemma streamed_download_ok_inv E url dest_dir safe_name cl w a w' :
  streamed_download E url dest_dir safe_name cl w = (Ok a, w') →
  (∀ s, transfer_step (get_response E) s → fault E s = None)
  ∧ (a = (false, MsgHTTP (status_code (get_response E)) url)
       ∧ status_code (get_response E) ≠ 200
     ∨ status_code (get_response E) = 200
       ∧ ((∃ total expected, a = (false, MsgIncomplete total expected safe_name))
          ∨ a = (true, MsgDownloaded safe_name) ∧ fault E StReplace = None)).
Proof.
  unfold streamed_download, session_get. intros H.
  apply bind_ok_inv in H as (r & w1 & Hget & H).
  apply bind_ok_inv in Hget as ([] & w0 & _ & Hget).
  apply bind_ok_inv in Hget as ([] & w2 & Hfget & Hget).
  apply may_fail_ok_inv in Hfget as [Hfget _]. injection Hget as <- _.
  apply closing_ok_inv in H as (w3 & H & Hclose).
  apply may_fail_ok_inv in Hclose as [Hclose _].
  destruct (status_code (get_response E) =? 200) eqn:Hstatus; cbn [negb] in H.
  - apply Z.eqb_eq in Hstatus.
    apply bind_ok_inv in H as (cl' & w4 & _ & H).
    apply bind_ok_inv in H as ([] & w5 & Hdir & H).
    unfold ensure_dir in Hdir. apply bind_ok_inv in Hdir as ([] & w6 & _ & Hdir).
    apply may_fail_ok_inv in Hdir as [Hdir _].
    apply bind_ok_inv in H as ([] & w7 & Hopen & H).
    unfold open_wb in Hopen. apply bind_ok_inv in Hopen as ([] & w8 & _ & Hopen).
    apply bind_ok_inv in Hopen as ([] & w9 & Hopen & _).
    apply may_fail_ok_inv in Hopen as [Hopen _].
    apply bind_ok_inv in H as (total & w10 & Hloop & H).
    apply closing_ok_inv in Hloop as (w11 & Hloop & Hclosef).
    apply may_fail_ok_inv in Hclosef as [Hclosef _].
    apply bind_ok_inv in Hloop as (total' & w12 & Hloop & Hflush).
    apply bind_ok_inv in Hflush as ([] & w13 & Hflush & _).
    apply may_fail_ok_inv in Hflush as [Hflush _].
    apply write_chunks_inv in Hloop as [Hiter Hwrite].
    split.
    { intros [] Hs; simpl in Hs; try done.
      - destruct Hs as [_ Hs]. by apply (Hiter i).
      - destruct Hs as [_ (chunk & Hs & Hne)]. by apply (Hwrite i chunk). }
    right. split; [done|]. cbv zeta in H.
    destruct (match cl' with Some expected => negb (total =? expected) | None => false end).
    + apply bind_ok_inv in H as ([] & w14 & _ & H). injection H as <- _. left. eauto.
    + apply bind_ok_inv in H as ([] & w14 & Hrep & H). injection H as <- _. right.
      split; [done|]. unfold os_replace in Hrep.
      apply bind_ok_inv in Hrep as ([] & w15 & _ & Hrep).
      apply bind_ok_inv in Hrep as ([] & w16 & Hrep & _).
      by apply may_fail_ok_inv in Hrep as [Hrep _].
  - apply Z.eqb_neq in Hstatus. injection H as <- _.
    split; [|by left].
    intros [] Hs; simpl in Hs; try done; try (by destruct Hs).
Qed.

(** The course of a fetch of a URL that has a name: after the probe, the
    test of the size of the existing file, which raises, skips or
    leads to the streamed download. *)
Lemma download_with_resume_outline E url dest_dir safe_name w :
  safe_basename_from_url url = Ok safe_name →
  download_with_resume E url dest_dir w
  = let streamed :=
      try_except (streamed_download E url dest_dir safe_name (probed_size E))
        (fun e => mret (false, MsgException e url)) (emit (EvHead url) w) in
    match probed_size E, files w !! path_join dest_dir safe_name with
    | Some expected, Some data =>
        match fault E StGetsize with
        | Some e => (Ok (false, MsgException e url), emit (EvHead url) w)
        | None =>
            if Z.of_nat (length data) =? expected
            then (Ok (true, MsgSkip safe_name), emit (EvHead url) w)
            else streamed
        end
    | _, _ => streamed
    end.
Proof.
  intros Hname.
  unfold download_with_resume, try_except. unfold mbind at 1, M_bind at 1.
  unfold lift at 1. rewrite Hname. unfold mbind at 1, M_bind at 1.
  rewrite probe_content_length_eq.
  unfold os_path_exists, os_path_getsize, get_files, may_fail, mbind, M_bind, mret, M_ret.
  simpl.
  destruct (probed_size E) as [n|]; [|done].
  destruct (files w !! path_join dest_dir safe_name) as [data|] eqn:Hf; simpl; [|done].
  destruct (fault E StGetsize) as [e|]; [done|]. simpl. rewrite Hf. simpl.
  by destruct (Z.of_nat (length data) =? n).
Qed.

Lemma download_with_resume_unnamed E url dest_dir w e :
  safe_basename_from_url url = Raise e →
  download_with_resume E url dest_dir w = (Ok (false, MsgException e url), w).
Proof.
  intros Hname. unfold download_with_resume, try_except.
  unfold mbind at 1, M_bind at 1. unfold lift at 1. by rewrite Hname.
Qed.

(** The fetch that is not skipped is the streamed download, with the
    handler of [download_with_resume] around it. *)
Lemma download_not_skipped E url dest_dir w safe_name :
  safe_basename_from_url url = Ok safe_name →
  size_matches E w (path_join dest_dir safe_name) = false →
  (probed_size E ≠ None → is_Some (files w !! path_join dest_dir safe_name) →
   fault E StGetsize = None) →
  download_with_resume E url dest_dir w
  = try_except (streamed_download E url dest_dir safe_name (probed_size E))
      (fun e => mret (false, MsgException e url)) (emit (EvHead url) w).
Proof.
  intros Hname Hsize Hg. rewrite (download_with_resume_outline _ _ _ _ _ Hname).
  unfold size_matches in Hsize. cbv zeta.
  destruct (probed_size E) as [n|]; [|done].
  destruct (files w !! path_join dest_dir safe_name) as [data|]; [|done].
  rewrite Hg by done. by rewrite Hsize.
Qed.

(** C6. When a file exists at the destination derived from the URL, the
    HEAD probe yielded a size and the size of the file is that size,
    [download_with_resume] returns success with the skip message, and
    the only thing it did is the HEAD request: no GET, no write.  When
    one of the three conditions fails, the fetch is not skipped: it
    sends the GET request after the HEAD request and its result is not
    a skip; an answer with another status than 200 ends it with the
    HTTP failure and no file operation; an answer with the status 200,
    when no call of the transfer raises, is streamed to the temporary
    file, one write for every chunk that is not empty, and the
    temporary file is renamed onto the destination, which then holds
    the body, unless a length is expected and the number of bytes
    differs from it, in which case the temporary file is removed. *)
Theorem skip_exactly_when_size_matches
    (E : env) (url dest_dir : str) (w : world) (safe_name : str) :
  safe_basename_from_url url = Ok safe_name →
  let dest_path := path_join dest_dir safe_name in
  let temp_path := dest_path ++ lit ".part" in
  (∀ data expected,
     files w !! dest_path = Some data →
     probed_size E = Some expected →
     fault E StGetsize = None →
     Z.of_nat (length data) = expected →
     download_with_resume E url dest_dir w
     = (Ok (true, MsgSkip safe_name), emit (EvHead url) w))
  ∧ ((files w !! dest_path = None
      ∨ probed_size E = None
      ∨ ∃ data expected,
          files w !! dest_path = Some data
          ∧ probed_size E = Some expected
          ∧ fault E StGetsize = None
          ∧ Z.of_nat (length data) ≠ expected) →
     ∃ success msg w',
       download_with_resume E url dest_dir w = (Ok (success, msg), w')
       ∧ (∀ n, msg ≠ MsgSkip n)
       ∧ (∃ later, trace w' = trace w ++ [EvHead url; EvGet url] ++ later)
       ∧ (fault E StGet = None →
          fault E StCloseResponse = None →
          status_code (get_response E) ≠ 200 →
          (success, msg) = (false, MsgHTTP (status_code (get_response E)) url)
          ∧ w' = emit (EvGet url) (emit (EvHead url) w))
       ∧ ((∀ s, transfer_step (get_response E) s → fault E s = None) →
          status_code (get_response E) = 200 →
          ∀ cl, expected_size E = Ok cl →
            let data := concat (body (get_response E)) in
            let total := Z.of_nat (length data) in
            let complete :=
              match cl with Some expected => total =? expected | None => true end in
            (complete = true → fault E StReplace = None) →
            (success, msg)
            = (if complete then (true, MsgDownloaded safe_name)
               else (false, MsgIncomplete total (default 0 cl) safe_name))
            ∧ files w' =
                (if complete then <[dest_path := data]> (delete temp_path (files w))
                 else match fault E StRemove with
                      | None => delete temp_path (files w)
                      | Some _ => <[temp_path := data]> (files w)
                      end)
            ∧ trace w' =
                trace w ++ [EvHead url; EvGet url; EvMakedirs dest_dir; EvOpen temp_path]
                  ++ chunk_writes temp_path (body (get_response E))
                  ++ [if complete then EvReplace temp_path dest_path
                      else EvRemove temp_path])).
Proof.
  intros Hname dest_path temp_path. split.
  { intros data expected. by apply skip_path. }
  intros Hcond.
  assert (Hgo : download_with_resume E url dest_dir w
                = try_except (streamed_download E url dest_dir safe_name (probed_size E))
                    (fun e => mret (false, MsgException e url)) (emit (EvHead url) w)).
  { apply download_not_skipped; [done|unfold size_matches; fold dest_path|fold dest_path].
    - destruct Hcond as [Hf|[Hp|(data & expected & Hf & Hp & Hg & Hne)]].
      + rewrite Hf. by destruct (probed_size E).
      + by rewrite Hp.
      + rewrite Hf, Hp. by apply Z.eqb_neq.
    - destruct Hcond as [Hf|[Hp|(data & expected & Hf & Hp & Hg & Hne)]]; [|done..].
      rewrite Hf. by intros _ [? ?]. }
  rewrite Hgo. unfold try_except.
  destruct (streamed_download_starts_with_get E url dest_dir safe_name (probed_size E)
              (emit (EvHead url) w)) as (r & w' & later & Hrun & Ht).
  assert (Hlater : ∃ later, trace w' = trace w ++ [EvHead url; EvGet url] ++ later).
  { exists later. rewrite Ht. simpl. by rewrite <- app_assoc. }
  rewrite Hrun. destruct r as [[success msg]|e].
  - exists success, msg, w'. split; [done|]. split; [|split; [done|split]].
    + intros n ->. apply streamed_download_ok_inv in Hrun as [_ Hcase].
      by destruct Hcase as [[? _]|[_ [(t & x & ?)|[? _]]]].
    + intros Hget Hclose Hstatus.
      rewrite (http_error_path _ _ _ _ _ _ Hget Hclose Hstatus) in Hrun.
      by injection Hrun as <- <- <-.
    + intros Hcalls Hstatus cl Hexp Hreplace.
      destruct (streamed_download_outcome E url dest_dir safe_name (emit (EvHead url) w) cl
                  Hcalls Hstatus Hexp Hreplace) as (w2 & Hrun2 & Hfiles & Htrace).
      rewrite Hrun in Hrun2. injection Hrun2 as Hres <-.
      split; [exact Hres|]. split; [exact Hfiles|].
      rewrite Htrace. simpl. by rewrite <- app_assoc.
  - exists false, (MsgException e url), w'. split; [done|]. split; [done|].
    split; [done|]. split.
    + intros Hget Hclose Hstatus.
      by rewrite (http_error_path _ _ _ _ _ _ Hget Hclose Hstatus) in Hrun.
    + intros Hcalls Hstatus cl Hexp Hreplace.
      destruct (streamed_download_outcome E url dest_dir safe_name (emit (EvHead url) w) cl
                  Hcalls Hstatus Hexp Hreplace) as (w2 & Hrun2 & _).
      by rewrite Hrun in Hrun2.
Qed.

Lemma skip_exactly_when_size_matches_witness :
  safe_basename_from_url sample_url = Ok (lit "b.png")
  ∧ download_with_resume (sample_env (Some "5"%string) no_fault) sample_url IMAGES_DIR
      world_with_file
    = (Ok (true, MsgSkip (lit "b.png")), emit (EvHead sample_url) world_with_file)
  ∧ ∃ w',
      download_with_resume (sample_env (Some "5"%string) no_fault) sample_url IMAGES_DIR
        empty_world = (Ok (true, MsgDownloaded (lit "b.png")), w')
      ∧ files w' = {[ lit "images/b.png" := [1; 2; 3; 4; 5] ]}
      ∧ trace w' = [EvHead sample_url; EvGet sample_url; EvMakedirs (lit "images");
                    EvOpen (lit "images/b.png.part");
                    EvWrite (lit "images/b.png.part") [1; 2; 3];
                    EvWrite (lit "images/b.png.part") [4; 5];
                    EvReplace (lit "images/b.png.part") (lit "images/b.png")].
Proof.
  split; [exact sample_url_name|]. split.
  - apply (proj1 (skip_exactly_when_size_matches (sample_env (Some "5"%string) no_fault)
                    sample_url IMAGES_DIR world_with_file (lit "b.png") sample_url_name)
             [9; 9; 9; 9; 9] 5); vm_compute; reflexivity.
  - destruct (proj2 (skip_exactly_when_size_matches (sample_env (Some "5"%string) no_fault)
                       sample_url IMAGES_DIR empty_world (lit "b.png") sample_url_name))
      as (success & msg & w' & Hrun & _ & _ & _ & Hbody).
    { left. vm_compute. reflexivity. }
    destruct (Hbody (fun s _ => eq_refl) eq_refl (Some 5) eq_refl (fun _ => eq_refl))
      as (Hres & Hfiles & Htrace).
    exists w'. split; [|split].
    + rewrite Hrun. f_equal. f_equal. exact Hres.
    + rewrite Hfiles. vm_compute. reflexivity.
    + rewrite Htrace. vm_compute. reflexivity.
Defined.

(** C5 (as amended). When the fetch is not skipped, an expected size is
    known, from the HEAD probe or from the GET answer, the body is
    streamed to the temporary file to its end without an exception of
    a call of the transfer, and the number of bytes streamed differs
    from the expected size, [download_with_resume] calls [os.remove] on
    the temporary file, ignoring a failure of that call, returns the
    failure "incomplete download", and leaves the destination, and
    every file but the temporary one, as it was; the temporary file is
    gone when the removal succeeded, and holds the bytes received when
    it failed. *)
Theorem incomplete_download_is_discarded
    (E : env) (url dest_dir : str) (w : world) (safe_name : str) (expected : Z) :
  safe_basename_from_url url = Ok safe_name →
  let dest_path := path_join dest_dir safe_name in
  let temp_path := dest_path ++ lit ".part" in
  let data := concat (body (get_response E)) in
  let total := Z.of_nat (length data) in
  size_matches E w dest_path = false →
  (probed_size E ≠ None → is_Some (files w !! dest_path) → fault E StGetsize = None) →
  (∀ s, transfer_step (get_response E) s → fault E s = None) →
  status_code (get_response E) = 200 →
  expected_size E = Ok (Some expected) →
  total ≠ expected →
  ∃ w',
    download_with_resume E url dest_dir w
    = (Ok (false, MsgIncomplete total expected safe_name), w')
    ∧ trace w' = trace w ++ [EvHead url; EvGet url; EvMakedirs dest_dir; EvOpen temp_path]
                   ++ chunk_writes temp_path (body (get_response E))
                   ++ [EvRemove temp_path]
    ∧ files w' !! dest_path = files w !! dest_path
    ∧ files w' !! temp_path = match fault E StRemove with
                              | None => None
                              | Some _ => Some data
                              end
    ∧ ∀ p, p ≠ temp_path → files w' !! p = files w !! p.
Proof.
  intros Hname dest_path temp_path data total Hskip Hsize Hcalls Hstatus Hexp Hne.
  rewrite (download_not_skipped E url dest_dir w safe_name Hname Hskip Hsize).
  destruct (streamed_download_outcome E url dest_dir safe_name (emit (EvHead url) w)
              (Some expected) Hcalls Hstatus Hexp) as (w' & Hrun & Hfiles & Htrace).
  { fold data total. intros Heq. by apply Z.eqb_eq in Heq. }
  fold dest_path temp_path data total in Hrun, Hfiles, Htrace.
  apply Z.eqb_neq in Hne. rewrite Hne in Hrun, Hfiles, Htrace.
  unfold try_except. rewrite Hrun. exists w'. split; [done|].
  pose proof (temp_path_fresh dest_path) as Hfresh. fold temp_path in Hfresh.
  assert (Hother : ∀ p, p ≠ temp_path → files w' !! p = files w !! p).
  { intros p Hp. rewrite Hfiles. simpl.
    destruct (fault E StRemove).
    - by rewrite lookup_insert_ne.
    - by rewrite lookup_delete_ne. }
  split; [|split; [|split]].
  - rewrite Htrace. simpl. by rewrite <- app_assoc.
  - by apply Hother.
  - rewrite Hfiles. simpl. destruct (fault E StRemove).
    + apply lookup_insert_eq.
    + apply lookup_delete_eq.
  - exact Hother.
Qed.

Lemma incomplete_download_is_discarded_witness :
  ∃ w',
    download_with_resume (sample_env (Some "6"%string) no_fault) sample_url IMAGES_DIR
      world_with_file
    = (Ok (false, MsgIncomplete 5 6 (lit "b.png")), w')
    ∧ files w' !! lit "images/b.png" = Some [9; 9; 9; 9; 9]
    ∧ files w' !! lit "images/b.png.part" = None.
Proof.
  destruct (incomplete_download_is_discarded (sample_env (Some "6"%string) no_fault)
              sample_url IMAGES_DIR world_with_file (lit "b.png") 6 sample_url_name)
    as (w' & Hrun & _ & Hdest & Htemp & _);
    try (vm_compute; reflexivity); try (vm_compute; discriminate); try done.
  exists w'. split; [exact Hrun|]. split.
  - etrans; [exact Hdest|]. vm_compute. reflexivity.
  - exact Htemp.
Defined.

(** C5 (as stated) fails in two ways.  When the removal itself fails,
    the exception is swallowed, the failure is reported, and the
    temporary file stays on disk with the bytes received.  When the
    connection breaks after the first chunk, the length is never
    compared: the exception is reported, [os.remove] is not called, and
    the temporary file stays on disk with the three bytes received of
    the six announced. *)
Lemma temp_file_remains_on_disk :
  (∃ w',
     download_with_resume (sample_env (Some "6"%string) remove_fails) sample_url IMAGES_DIR
       empty_world
     = (Ok (false, MsgIncomplete 5 6 (lit "b.png")), w')
     ∧ files w' !! lit "images/b.png.part" = Some [1; 2; 3; 4; 5])
  ∧ (∃ w',
       download_with_resume (sample_env (Some "6"%string) stream_breaks) sample_url
         IMAGES_DIR empty_world
       = (Ok (false, MsgException (EnvironmentFailure "ChunkedEncodingError") sample_url), w')
       ∧ files w' !! lit "images/b.png.part" = Some [1; 2; 3]
       ∧ trace w' = [EvHead sample_url; EvGet sample_url; EvMakedirs (lit "images");
                     EvOpen (lit "images/b.png.part");
                     EvWrite (lit "images/b.png.part") [1; 2; 3]]).
Proof.
  split.
  - exists (download_with_resume (sample_env (Some "6"%string) remove_fails) sample_url
              IMAGES_DIR empty_world).2.
    split; vm_compute; reflexivity.
  - exists (download_with_resume (sample_env (Some "6"%string) stream_breaks) sample_url
              IMAGES_DIR empty_world).2.
    split; [|split]; vm_compute; reflexivity.
Qed.

(** The loop of the batch: every URL is fetched, in the world the
    fetches before have left, and gets its result. *)
Lemma batch_loop_fetches envs images_dir img_list : ∀ i results w,
  ∃ more w',
    batch_loop envs i img_list images_dir results w = (Ok (results ++ more), w')
    ∧ map (fun r => r.1.1) more = img_list
    ∧ Forall (fun r => result_for (url_for_req r.1.1) (r.1.2, r.2)) more
    ∧ ∀ j url, img_list !! j = Some url →
        ∃ success msg wj wj' before after,
          more !! j = Some (url, success, msg)
          ∧ download_with_resume (envs (i + j)%nat) (url_for_req url) images_dir wj
            = (Ok (success, msg), wj')
          ∧ trace wj = trace w ++ before
          ∧ trace w' = trace wj' ++ EvPrint success msg :: after.
Proof.
  induction img_list as [|url rest IH]; intros i results w.
  - exists [], w. simpl. rewrite app_nil_r. done.
  - cbn [batch_loop]. unfold mbind at 1, M_bind at 1.
    destruct (download_with_resume_total (envs i) (url_for_req url) images_dir w)
      as (success & msg & w1 & Hrun).
    pose proof (download_with_resume_result _ _ _ _ _ _ Hrun) as Hres.
    destruct (batch_fetch_effects _ _ rest _ _ _ _ Hrun) as [(l0 & Hl0 & _) _].
    rewrite Hrun. unfold mbind at 1, M_bind at 1. unfold record at 1.
    destruct (IH (S i) (results ++ [(url, success, msg)]) (emit (EvPrint success msg) w1))
      as (more & w' & Hloop & Hmap & Hall & Hfetch).
    destruct (batch_loop_effects _ _ _ _ _ _ _ _ Hloop) as [(l2 & Hl2 & _) _].
    rewrite Hloop.
    exists ((url, success, msg) :: more), w'. rewrite <- app_assoc.
    split; [done|]. split; [simpl; by rewrite Hmap|]. split; [by constructor|].
    intros [|j] u Hu.
    + injection Hu as <-. exists success, msg, w, w1, [], l2.
      rewrite Nat.add_0_r, app_nil_r. split; [done|]. split; [done|]. split; [done|].
      rewrite Hl2. simpl. by rewrite <- app_assoc.
    + destruct (Hfetch j u Hu) as (s & m & wj & wj' & before & after & Hj & Hr & Hb & Ha).
      exists s, m, wj, wj', (l0 ++ EvPrint success msg :: before), after.
      split; [done|]. rewrite Nat.add_succ_r. split; [done|]. split; [|done].
      rewrite Hb. simpl. rewrite Hl0. by rewrite <- !app_assoc.
Qed.

(** C7. Whatever the network and the file system do, [download_with_resume]
    returns a pair of a success flag and a message and never raises.
    Success goes with the messages of a skip and of a completed
    download only.  Every exception is turned into the failure
    [(False, "exception: {e} for url {url}")]: the one raised by the
    derivation of the name, the one raised by [os.path.getsize], and
    the one that leaves the streamed download; and a result that is not
    this failure means that no call of the fetch has raised, the HEAD
    request and [os.remove] apart, whose exceptions are swallowed on
    the spot.  So [img_download_batch] returns one result for every URL
    of its list, in order: each URL is fetched in the world that the
    fetches before have left, whatever they returned, and its result is
    printed. *)
Theorem download_with_resume_never_raises
    (envs : nat → env) (img_list : list str) (images_dir : str) (w : world) :
  (∀ E url dest_dir w0,
     ∃ success msg w',
       download_with_resume E url dest_dir w0 = (Ok (success, msg), w')
       ∧ result_for url (success, msg)
       ∧ (∀ e, safe_basename_from_url url = Raise e →
            (success, msg) = (false, MsgException e url) ∧ w' = w0)
       ∧ (∀ safe_name, safe_basename_from_url url = Ok safe_name →
            let dest_path := path_join dest_dir safe_name in
            let size_read := probed_size E ≠ None ∧ is_Some (files w0 !! dest_path) in
            (∀ e, size_read → fault E StGetsize = Some e →
               (success, msg) = (false, MsgException e url))
            ∧ (∀ e w1,
                 (size_read → fault E StGetsize = None) →
                 size_matches E w0 dest_path = false →
                 streamed_download E url dest_dir safe_name (probed_size E)
                   (emit (EvHead url) w0) = (Raise e, w1) →
                 (success, msg) = (false, MsgException e url) ∧ w' = w1)
            ∧ ((∀ e u, msg ≠ MsgException e u) →
               ∀ s, calls_made E w0 dest_path msg s → fault E s = None)))
  ∧ ∃ results w',
      img_download_batch envs img_list images_dir w = (Ok results, w')
      ∧ map (fun r => r.1.1) results = img_list
      ∧ Forall (fun r => result_for (url_for_req r.1.1) (r.1.2, r.2)) results
      ∧ ∀ i url, img_list !! i = Some url →
          ∃ success msg wi wi' before after,
            results !! i = Some (url, success, msg)
            ∧ download_with_resume (envs i) (url_for_req url) images_dir wi
              = (Ok (success, msg), wi')
            ∧ trace wi = trace w ++ before
            ∧ trace w' = trace wi' ++ EvPrint success msg :: after.
Proof.
  split.
  - intros E url dest_dir w0.
    destruct (download_with_resume_total E url dest_dir w0) as (success & msg & w' & H).
    exists success, msg, w'. split; [done|].
    split; [by apply download_with_resume_result in H|].
    split.
    { intros e Hname. rewrite (download_with_resume_unnamed _ _ _ _ _ Hname) in H.
      by injection H as <- <- <-. }
    intros safe_name Hname dest_path size_read.
    rewrite (download_with_resume_outline _ _ _ _ _ Hname) in H. cbv zeta in H.
    fold dest_path in H. unfold size_matches. subst size_read.
    destruct (probed_size E) as [expected|] eqn:Hprobe;
      [destruct (files w0 !! dest_path) as [data|] eqn:Hfile|].
    + (* the size of the existing file is read *)
      destruct (fault E StGetsize) as [e0|] eqn:Hsize.
      { injection H as <- <- <-. split; [by intros e _ [= <-]|].
        split; [intros e w1 Hg; by assert (Some e0 = None) by (apply Hg; eauto)|].
        intros Hmsg. by destruct (Hmsg e0 url). }
      split; [done|].
      destruct (Z.of_nat (length data) =? expected) eqn:Heq.
      { injection H as <- <- <-. split; [done|].
        intros _ [] Hs; simpl in Hs; try done;
          try (destruct Hs as [Hs _]; by destruct (Hs safe_name)).
        by destruct Hs. }
      unfold try_except in H.
      destruct (streamed_download _ _ _ _ _ _) as [[a|e0] w1] eqn:Hs.
      * injection H as -> <-. split; [done|]. intros Hmsg s Hmade.
        apply streamed_download_ok_inv in Hs as [Hcalls Hcase].
        destruct s; simpl in Hmade; try done; try (apply Hcalls; simpl; by destruct Hmade).
        destruct Hmade as [n Hn]. simpl in Hn.
        destruct Hcase as [[[= _ ->] _]|[_ [(t & x & [= _ ->])|[_ Hr]]]]; done.
      * injection H as <- <- <-. split; [by intros e w2 _ _ [= <- <-]|].
        intros Hmsg. by destruct (Hmsg e0 url).
    + (* no file at the destination *)
      split; [by intros e [_ [? ?]]|].
      unfold try_except in H.
      destruct (streamed_download _ _ _ _ _ _) as [[a|e0] w1] eqn:Hs.
      * injection H as -> <-. split; [done|]. intros Hmsg s Hmade.
        apply streamed_download_ok_inv in Hs as [Hcalls Hcase].
        destruct s; simpl in Hmade; try done; try (apply Hcalls; simpl; by destruct Hmade).
        { rewrite Hfile in Hmade. by destruct Hmade as [_ [? ?]]. }
        destruct Hmade as [n Hn]. simpl in Hn.
        destruct Hcase as [[[= _ ->] _]|[_ [(t & x & [= _ ->])|[_ Hr]]]]; done.
      * injection H as <- <- <-. split; [by intros e w2 _ _ [= <- <-]|].
        intros Hmsg. by destruct (Hmsg e0 url).
    + (* the probe gave no size *)
      split; [by intros e [? _]|].
      unfold try_except in H.
      destruct (streamed_download _ _ _ _ _ _) as [[a|e0] w1] eqn:Hs.
      * injection H as -> <-. split; [done|]. intros Hmsg s Hmade.
        apply streamed_download_ok_inv in Hs as [Hcalls Hcase].
        destruct s; simpl in Hmade; try done; try (apply Hcalls; simpl; by destruct Hmade).
        destruct Hmade as [n Hn]. simpl in Hn.
        destruct Hcase as [[[= _ ->] _]|[_ [(t & x & [= _ ->])|[_ Hr]]]]; done.
      * injection H as <- <- <-. split; [by intros e w2 _ _ [= <- <-]|].
        intros Hmsg. by destruct (Hmsg e0 url).
  - destruct (batch_loop_fetches envs images_dir img_list 0 [] w)
      as (more & w' & H & Hm & Hall & Hfetch).
    exists more, w'. done.
Qed.
